(** * GenerateVideos: scheduling, frame state and segment assembly

    A shallow embedding of the music-video generator, module by module:
    - [Js], [Path], [Canvas], [Io]: the JavaScript idioms, Node's [path], the
      drawing surface and the process (file system, random source, clock and
      the external collaborators: the node child process, the canvas, ffmpeg);
    - [MusicGenerator]: the genre templates, the duration draw of
      [generateMusic] and the note schedule of the generated Tone.js script;
    - [VisualGenerator]: the visual styles, the frame loops, the fade of the
      title cards and the scene of a main frame;
    - [VideoRenderer], [MusicVideoGenerator]: the segment renders, the
      concatenation and the orchestration of one request.
    The properties follow the definitions.

    JavaScript numbers are read as exact numbers: rationals ([Q]) where the
    code only adds, multiplies, divides and floors, reals ([R]) where it calls
    [Math.sin] and [Math.cos].  The rounding of binary64 is modelled where it
    decides the result: in the duration draw ([Double]). *)

From Stdlib Require Import ZArith QArith Qround Qminmax Qabs Qpower Lia Lqa List String Ascii Bool.
From Stdlib Require Import SpecFloat PrimFloat FloatOps.
From Stdlib Require Import DecimalString DecimalNat.
From Stdlib Require Import Reals Qreals Lra.
Import ListNotations.

Local Open Scope Q_scope.

(** ** JavaScript idioms shared by the modules *)

Module Js.

(** A loop counter read as a number. *)
Definition num (i : nat) : Q := inject_Z (Z.of_nat i).

(** The values [i] taken by [for (let i = 0; i < bound; i++)], in order:
    the counter runs over the naturals below [bound] (see
    [for_indices_spec]). *)
Definition for_indices (bound : Q) : list nat :=
  seq 0 (Z.to_nat (Qceiling bound)).

(** Names every object literal inherits from [Object.prototype]: a lookup
    [obj[key]] with such a key finds the inherited member, which is truthy. *)
Definition object_prototype : list string :=
  ["constructor"; "__proto__"; "hasOwnProperty"; "isPrototypeOf";
   "propertyIsEnumerable"; "toLocaleString"; "toString"; "valueOf";
   "__defineGetter__"; "__defineSetter__"; "__lookupGetter__";
   "__lookupSetter__"]%string.

(** The result of [obj[key]] on an object literal whose own properties all
    hold values of type [A]. *)
Inductive Value (A : Type) : Type :=
| Own (a : A)
| Inherited (name : string)
| Undefined.
Arguments Own {A} a.
Arguments Inherited {A} name.
Arguments Undefined {A}.

Fixpoint own_property {A : Type} (obj : list (string * A)) (key : string)
  : option A :=
  match obj with
  | [] => None
  | (k, v) :: rest => if String.eqb k key then Some v else own_property rest key
  end.

Definition get {A : Type} (obj : list (string * A)) (key : string) : Value A :=
  match own_property obj key with
  | Some v => Own v
  | None =>
      if existsb (String.eqb key) object_prototype then Inherited key
      else Undefined
  end.

(** [a || b]: objects and functions are truthy, [undefined] is falsy. *)
Definition or_else {A : Type} (a b : Value A) : Value A :=
  match a with
  | Undefined => b
  | _ => a
  end.

Definition keys {A : Type} (obj : list (string * A)) : list string :=
  map fst obj.

End Js.

(** ** binary64 arithmetic, where its rounding decides a result *)

Module Double.

(** [2^e] *)
Definition pow2 (e : Z) : Q := 2 ^ e.

(** The [e] with [2^e <= x < 2^(e+1)], for a positive [x]. *)
Definition ilog2 (x : Q) : Z :=
  let e := (Z.log2 (Qnum x) - Z.log2 (Zpos (Qden x)))%Z in
  if Qle_bool (pow2 e) x then e else (e - 1)%Z.

(** The exponent of the last of the 53 bits of [x]; below [2^-1022] the
    numbers are [2^-1074] apart. *)
Definition lastBit (x : Q) : Z := Z.max (ilog2 (Qabs x) - 52) (-1074).

(** The nearest whole number, the even one of two that are equally near. *)
Definition nearest (x : Q) : Z :=
  let f := Qfloor x in
  match Qcompare (x - inject_Z f) (1 # 2) with
  | Lt => f
  | Gt => (f + 1)%Z
  | Eq => if Z.even f then f else (f + 1)%Z
  end.

(** The binary64 number nearest to [x], ties to even.  Results of
    magnitude [2^1024] and more, which binary64 turns into an infinity, are
    out of reach of the computations below. *)
Definition round (x : Q) : Q :=
  if Qeq_bool x 0 then 0
  else inject_Z (nearest (x / pow2 (lastBit x))) * pow2 (lastBit x).

(** [x + y], [x - y] and [x * y] on binary64 numbers. *)
Definition add (x y : Q) : Q := round (x + y).
Definition sub (x y : Q) : Q := round (x - y).
Definition mul (x y : Q) : Q := round (x * y).

(** The value of a finite binary64 number given by its sign, mantissa and
    exponent. *)
Definition value (f : spec_float) : Q :=
  match f with
  | S754_finite s m e =>
      (if s then -1 else 1) * inject_Z (Zpos m) * pow2 e
  | _ => 0
  end.

End Double.

(** ** Node's [path] module (POSIX), as far as the generator uses it *)

Module Path.

(** An absolute, normalised path: its components below the root. *)
Definition t : Type := list string.

Definition is_sep (c : ascii) : bool := Ascii.eqb c "/".

Fixpoint drop_seps (l : list ascii) : list ascii :=
  match l with
  | c :: l' => if is_sep c then drop_seps l' else l
  | [] => []
  end.

Fixpoint take_name (l : list ascii) : list ascii :=
  match l with
  | c :: l' => if is_sep c then [] else c :: take_name l'
  | [] => []
  end.

(** [path.basename(p)]: scanning from the end, the trailing separators are
    skipped and the characters up to the next separator are kept. *)
Definition basename (p : string) : string :=
  string_of_list_ascii
    (rev (take_name (drop_seps (rev (list_ascii_of_string p))))).

Fixpoint split (l : list ascii) : list (list ascii) :=
  match l with
  | [] => [[]]
  | c :: l' =>
      if is_sep c then [] :: split l'
      else match split l' with
           | seg :: segs => (c :: seg) :: segs
           | [] => [[c]]
           end
  end.

(** One step of [normalize]: empty and [.] segments are dropped, [..] leaves
    the current directory (the root is its own parent). *)
Definition enter (dir : t) (segment : string) : t :=
  if (String.eqb segment "" || String.eqb segment ".")%bool then dir
  else if String.eqb segment ".." then removelast dir
  else dir ++ [segment].

(** [path.join(dir, rel)] for an absolute, normalised [dir]. *)
Definition join (dir : t) (rel : string) : t :=
  fold_left enter
    (map string_of_list_ascii (split (list_ascii_of_string rel))) dir.

Definition dirname (p : t) : t := removelast p.

Fixpoint eqb (a b : t) : bool :=
  match a, b with
  | [], [] => true
  | x :: a', y :: b' => String.eqb x y && eqb a' b'
  | _, _ => false
  end.

Fixpoint is_prefix (a b : t) : bool :=
  match a, b with
  | [], _ => true
  | x :: a', y :: b' => String.eqb x y && is_prefix a' b'
  | _ :: _, [] => false
  end.

(** [p] lies inside the directory [dir]: strictly below it. *)
Definition inside (dir p : t) : bool :=
  is_prefix dir p && negb (eqb dir p).

(** A single path component that names an entry: no separator, and not
    empty, [.] or [..]. *)
Definition proper_name (s : string) : bool :=
  negb (existsb is_sep (list_ascii_of_string s))
  && negb (String.eqb s "") && negb (String.eqb s ".")
  && negb (String.eqb s "..").

(** A character that a shell, inside double quotes, and a JavaScript string
    literal both read as itself: a letter, a digit, [_], [-] or [.]. *)
Definition plain_char (c : ascii) : bool :=
  let n := nat_of_ascii c in
  ((48 <=? n) && (n <=? 57) || (65 <=? n) && (n <=? 90)
   || (97 <=? n) && (n <=? 122) || (n =? 95) || (n =? 45) || (n =? 46))%nat.

(** A path all of whose components are made of such characters. *)
Definition plain (p : t) : Prop :=
  Forall (fun s => forallb plain_char (list_ascii_of_string s) = true) p.

End Path.

(** ** The drawing surface: what a canvas holds when it is written out *)

Module Canvas.

Inductive Shape :=
| Hexagon (vertices : list (R * R))
| Circle (radius : R).

(** The drawing calls that put ink on the canvas, each with the context
    state it is drawn under. *)
Inductive Draw :=
| fillRect (fillStyle : option string) (x y w h : R)
| fillArc (fillStyle : option string) (globalAlpha x y radius : R)
| stroke (strokeStyle : option string) (lineWidth globalAlpha : R)
         (translate : R * R) (rotate : R) (path : Shape).

Inductive Image :=
| Scene (draws : list Draw)
| TitleCard (globalAlpha : Q) (text : list string).

End Canvas.

(** ** The generator process: file system, random source and collaborators *)

Module Io.

Inductive Node :=
| Directory
| Picture (image : Canvas.Image)
| Data.

Definition Files : Type := list (Path.t * Node).

Inductive Job := EncodeIntro | EncodeMain | EncodeOutro | Concat.
Inductive Encode := Done | Failed (partial : bool).
Inductive FrameKind := IntroFrame | MainFrame | OutroFrame.

(** What a request does not decide: the values of [Math.random()] and
    [Date.now()], how the child process running the music script ends,
    whether a frame can be drawn and written, and how each ffmpeg run ends (a
    failed run may leave a partial output file).  Of the child the request
    learns the exit status only ([node_exec]: it is zero); whether the script
    got as far as writing the audio file is a separate matter
    ([node_writes]), since the script catches its own errors and then exits
    cleanly all the same.  The other writes, [writeFileSync] and [mkdirSync],
    are taken to succeed. *)
Record Env := {
  random : nat -> Q;
  now : Z;
  node_exec : bool;
  node_writes : bool;
  canvas : FrameKind -> nat -> bool;
  ffmpeg : Job -> Encode
}.

Record World := { files : Files; draws : nat }.

Inductive Error := TypeError | ExecError | CanvasError | FfmpegError (job : Job) | FsError.

Inductive Outcome (A : Type) : Type :=
| Return (a : A)
| Throw (e : Error).
Arguments Return {A} a.
Arguments Throw {A} e.

Definition IO (A : Type) : Type := Env -> World -> Outcome A * World.

Definition ret {A : Type} (a : A) : IO A := fun _ w => (Return a, w).

Definition throw {A : Type} (e : Error) : IO A := fun _ w => (Throw e, w).

Definition bind {A B : Type} (m : IO A) (k : A -> IO B) : IO B :=
  fun env w =>
    match m env w with
    | (Return a, w') => k a env w'
    | (Throw e, w') => (Throw e, w')
    end.

(** [try { m } catch (error) { handler error }]: the handler runs in the
    world the failure left. *)
Definition try_catch {A : Type} (m : IO A) (handler : Error -> IO A) : IO A :=
  fun env w =>
    match m env w with
    | (Return a, w') => (Return a, w')
    | (Throw e, w') => handler e env w'
    end.

Fixpoint for_each {X : Type} (l : list X) (body : X -> IO unit) : IO unit :=
  match l with
  | [] => ret tt
  | x :: l' => bind (body x) (fun _ => for_each l' body)
  end.

Definition when (b : bool) (m : IO unit) : IO unit := if b then m else ret tt.

Definition Math_random : IO Q :=
  fun env w => (Return (random env (draws w)),
                {| files := files w; draws := S (draws w) |}).

Definition Date_now : IO Z := fun env w => (Return (now env), w).

(** *** [fs] *)

Fixpoint entry (p : Path.t) (fs : Files) : option Node :=
  match fs with
  | [] => None
  | (q, n) :: fs' => if Path.eqb q p then Some n else entry p fs'
  end.

(** What is at [p]; the root directory is always there. *)
Definition lookup (p : Path.t) (fs : Files) : option Node :=
  match p with
  | [] => Some Directory
  | _ :: _ => entry p fs
  end.

Definition exists_ (p : Path.t) (fs : Files) : bool :=
  match lookup p fs with Some _ => true | None => false end.

Definition remove (p : Path.t) (fs : Files) : Files :=
  filter (fun e => negb (Path.eqb (fst e) p)) fs.

Definition write (p : Path.t) (n : Node) (fs : Files) : Files :=
  (p, n) :: remove p fs.

(** The directory itself preceded by its ancestors, the root left out. *)
Definition ancestors (p : Path.t) : list Path.t :=
  map (fun k => firstn k p) (seq 1 (List.length p)).

Definition mkdir (fs : Files) (p : Path.t) : Files :=
  if exists_ p fs then fs else (p, Directory) :: fs.

Definition on_files (f : Files -> Files) : IO unit :=
  fun _ w => (Return tt, {| files := f (files w); draws := draws w |}).

Definition existsSync (p : Path.t) : IO bool :=
  fun _ w => (Return (exists_ p (files w)), w).

(** [fs.mkdirSync(p, { recursive: true })] *)
Definition mkdirSync (p : Path.t) : IO unit :=
  on_files (fun fs => fold_left mkdir (ancestors p) fs).

Definition writeFileSync (p : Path.t) (n : Node) : IO unit :=
  on_files (write p n).

(** [fs.unlinkSync(p)] removes a file; it throws on a directory and on a
    path that does not exist. *)
Definition unlinkSync (p : Path.t) : IO unit :=
  fun env w =>
    match lookup p (files w) with
    | Some Directory | None => (Throw FsError, w)
    | Some _ => on_files (remove p) env w
    end.

(** [fs.rmSync(p, { recursive: true, force: true })] *)
Definition rmSync (p : Path.t) : IO unit :=
  on_files (filter (fun e => negb (Path.is_prefix p (fst e)))).

Definition is_child (p q : Path.t) : bool :=
  Path.eqb (removelast q) p && negb (Path.eqb q []).

(** [fs.readdirSync(p)]: the names directly below [p]. *)
Definition readdirSync (p : Path.t) : IO (list string) :=
  fun _ w =>
    (Return (map (fun e => last (fst e) EmptyString)
                 (filter (fun e => is_child p (fst e)) (files w))), w).

(** [fs.statSync(p)] throws when nothing is at [p]. *)
Definition statSync (p : Path.t) : IO unit :=
  fun _ w => if exists_ p (files w) then (Return tt, w) else (Throw FsError, w).

(** *** Collaborators *)

(** [execAsync(`node "${scriptPath}"`)], the script holding
    [fs.writeFileSync('${outputPath}', wavBuffer)] and ending with
    [generateMusic().catch(console.error)]: the child may or may not write
    the audio file, and [exec] rejects when its exit status is not zero.
    The script writes nothing else.  The command line goes through a shell
    and the audio path is pasted into the text of the script, so this is the
    run of the child only for paths that spell themselves there
    ([Path.plain]); what the shell makes of another path is not described. *)
Definition execNode (audioPath : Path.t) : IO unit :=
  fun env w =>
    let w' :=
      if node_writes env
      then {| files := write audioPath Data (files w); draws := draws w |}
      else w in
    if node_exec env then (Return tt, w') else (Throw ExecError, w').

(** [canvas.toBuffer] followed by [fs.writeFileSync(framePath, buffer)]. *)
Definition writeCanvas (kind : FrameKind) (frameNum : nat) (framePath : Path.t)
                       (image : Canvas.Image) : IO unit :=
  fun env w =>
    if canvas env kind frameNum then writeFileSync framePath (Picture image) env w
    else (Throw CanvasError, w).

(** One run of ffmpeg writing [outputPath], with its [end] and [error]
    handlers. *)
Definition runFfmpeg {A : Type} (job : Job) (outputPath : Path.t)
    (on_end : IO A) (on_error : Error -> IO A) : IO A :=
  fun env w =>
    let written :=
      {| files := write outputPath Data (files w); draws := draws w |} in
    match ffmpeg env job with
    | Done => on_end env written
    | Failed partial =>
        on_error (FfmpegError job) env (if partial then written else w)
    end.

(** [if (!fs.existsSync(dir)) fs.mkdirSync(dir, { recursive: true })] *)
Definition ensureDir (dir : Path.t) : IO unit :=
  bind (existsSync dir) (fun present => when (negb present) (mkdirSync dir)).

(** [String(n).padStart(width, '0')] *)
Definition padStart (width : nat) (n : nat) : string :=
  let digits := NilEmpty.string_of_uint (Nat.to_uint n) in
  string_of_list_ascii (repeat "0"%char (width - String.length digits))
    ++ digits.

(** The number a padded frame number stands for. *)
Definition frameNumber (digits : string) : nat :=
  match NilEmpty.uint_of_string digits with
  | Some d => Nat.of_uint d
  | None => 0
  end.

(** *** Reading a run *)

Definition exists_in (p : Path.t) (w : World) : Prop :=
  exists_ p (files w) = true.

Definition missing_in (p : Path.t) (w : World) : Prop :=
  exists_ p (files w) = false.

Definition not_dir (p : Path.t) (w : World) : Prop :=
  lookup p (files w) <> Some Directory.

(** [m] keeps [I]: if [I] holds when [m] starts, it holds when [m] ends,
    by a return or by a throw. *)
Definition preserves {A : Type} (I : World -> Prop) (m : IO A) : Prop :=
  forall env w, I w -> I (snd (m env w)).

End Io.

Declare Scope io_scope.
Delimit Scope io_scope with io.
Notation "x <- m ;; k" := (Io.bind m (fun x => k))
  (at level 61, m at next level, right associativity) : io_scope.
Notation "m ;; k" := (Io.bind m (fun _ => k))
  (at level 61, right associativity) : io_scope.


(** ** src/musicGenerator.js *)

Declare Scope script_scope.

Module MusicGenerator.

Record Range := { min : Z; max : Z }.

Record Template := {
  tempo : Z;
  scale : list string;
  bassNotes : list string;
  chords : list (list string);
  duration : Range
}.

Local Open Scope string_scope.

Definition electronic : Template := {|
  tempo := 128;
  scale := ["C4"; "D4"; "E4"; "G4"; "A4"; "C5"];
  bassNotes := ["C2"; "G2"; "A2"; "F2"];
  chords := [["C4"; "E4"; "G4"]; ["G3"; "B3"; "D4"];
             ["A3"; "C4"; "E4"]; ["F3"; "A3"; "C4"]];
  duration := {| min := 180; max := 300 |} |}.

Definition ambient : Template := {|
  tempo := 80;
  scale := ["C4"; "D4"; "F4"; "G4"; "A4"; "C5"; "D5"];
  bassNotes := ["C2"; "F2"; "G2"];
  chords := [["C4"; "E4"; "G4"; "B4"]; ["F3"; "A3"; "C4"; "E4"];
             ["G3"; "B3"; "D4"; "F4"]];
  duration := {| min := 180; max := 300 |} |}.

Definition hiphop : Template := {|
  tempo := 90;
  scale := ["C4"; "D4"; "Eb4"; "F4"; "G4"; "Ab4"; "Bb4"; "C5"];
  bassNotes := ["C2"; "Eb2"; "F2"; "G2"];
  chords := [["C4"; "Eb4"; "G4"]; ["F3"; "Ab3"; "C4"]; ["G3"; "Bb3"; "D4"]];
  duration := {| min := 180; max := 300 |} |}.

Definition pop : Template := {|
  tempo := 120;
  scale := ["C4"; "D4"; "E4"; "F4"; "G4"; "A4"; "B4"; "C5"];
  bassNotes := ["C2"; "F2"; "G2"; "A2"];
  chords := [["C4"; "E4"; "G4"]; ["F3"; "A3"; "C4"];
             ["G3"; "B3"; "D4"]; ["A3"; "C4"; "E4"]];
  duration := {| min := 180; max := 300 |} |}.

Definition techno : Template := {|
  tempo := 140;
  scale := ["C4"; "D4"; "F4"; "G4"; "A4"; "C5"];
  bassNotes := ["C2"; "C2"; "D2"; "F2"];
  chords := [["C4"; "F4"; "G4"]; ["D4"; "F4"; "A4"];
             ["C4"; "E4"; "G4"]; ["F3"; "A3"; "C4"]];
  duration := {| min := 180; max := 300 |} |}.

Definition genreTemplates : list (string * Template) :=
  [("electronic", electronic); ("ambient", ambient); ("hiphop", hiphop);
   ("pop", pop); ("techno", techno)].

(** [this.genreTemplates[genre] || this.genreTemplates.electronic] *)
Definition lookupTemplate (genre : string) : Js.Value Template :=
  Js.or_else (Js.get genreTemplates genre) (Js.get genreTemplates "electronic").

Local Close Scope string_scope.

(** [Math.floor(Math.random() * (max - min) + min)], [r] the draw of
    [Math.random()], a binary64 number: the difference, the product and the
    sum are each rounded to binary64 before the floor is taken. *)
Definition sampleDuration (template : Template) (r : Q) : Z :=
  Qfloor (Double.add
            (Double.mul r (Double.sub (inject_Z (max (duration template)))
                                      (inject_Z (min (duration template)))))
            (inject_Z (min (duration template)))).

(** *** The schedule of the generated script *)

Inductive Instrument := synth | bass | kick | hihat.

Inductive Pitch :=
| Note (n : option string)
| Chord (c : option (list string))
| Unpitched.

(** One [triggerAttackRelease] call: the instrument, what it plays, the
    note-length tag, the start time in seconds and the velocity if given. *)
Record Event := {
  instrument : Instrument;
  pitch : Pitch;
  noteLength : string;
  time : Q;
  velocity : option Q
}.

(** The script runs against an ambient random source (the successive values
    of [Math.random()]) and a transport collecting the scheduled events. *)
Record Transport := { draws : nat; scheduled : list Event }.

Definition Script (A : Type) : Type := (nat -> Q) -> Transport -> A * Transport.

Definition ret {A : Type} (a : A) : Script A := fun _ s => (a, s).

Definition bind {A B : Type} (m : Script A) (k : A -> Script B) : Script B :=
  fun rnd s => let (a, s') := m rnd s in k a rnd s'.

Definition Math_random : Script Q :=
  fun rnd s => (rnd (draws s), {| draws := S (draws s); scheduled := scheduled s |}).

Definition triggerAttackRelease (e : Event) : Script unit :=
  fun _ s => (tt, {| draws := draws s; scheduled := scheduled s ++ [e] |}).

Fixpoint for_each (l : list nat) (body : nat -> Script unit) : Script unit :=
  match l with
  | [] => ret tt
  | i :: l' => bind (body i) (fun _ => for_each l' body)
  end.

Notation "x <- m ;; k" := (bind m (fun x => k))
  (at level 61, m at next level, right associativity) : script_scope.
Notation "m ;; k" := (bind m (fun _ => k))
  (at level 61, right associativity) : script_scope.
Local Open Scope script_scope.

(** [60 / tempo] *)
Definition beatDuration (tempo : Q) : Q := 60 / tempo.

(** [Math.floor(duration / beatDuration)] *)
Definition totalBeats (duration : Z) (tempo : Q) : Z :=
  Qfloor (inject_Z duration / beatDuration tempo).

Definition toneScript (template : Template) (duration : Z) : Script unit :=
  let tempo := inject_Z (tempo template) in
  let scale := scale template in
  let bassNotes := bassNotes template in
  let chords := chords template in
  let beatDuration := beatDuration tempo in
  let totalBeats := inject_Z (totalBeats duration tempo) in
  (* Kick drum pattern *)
  for_each (Js.for_indices totalBeats) (fun i =>
    let time := Js.num i * beatDuration in
    if (i mod 2 =? 0)%nat then
      triggerAttackRelease
        {| instrument := kick; pitch := Note (Some "C1"%string);
           noteLength := "8n"; time := time; velocity := None |}
    else ret tt) ;;
  (* Hi-hat pattern *)
  for_each (Js.for_indices (totalBeats * 2)) (fun i =>
    let time := Js.num i * beatDuration / 2 in
    v <- Math_random ;;
    triggerAttackRelease
      {| instrument := hihat; pitch := Unpitched; noteLength := "16n";
         time := time; velocity := Some (v * 0.3 + 0.1) |}) ;;
  (* Bass line *)
  for_each (Js.for_indices (totalBeats / 4)) (fun i =>
    let time := Js.num i * beatDuration * 4 in
    let note := nth_error bassNotes (i mod List.length bassNotes) in
    triggerAttackRelease
      {| instrument := bass; pitch := Note note; noteLength := "2n";
         time := time; velocity := None |}) ;;
  (* Melodic pattern *)
  for_each (Js.for_indices (totalBeats / 8)) (fun i =>
    let time := Js.num i * beatDuration * 8 in
    let chord := nth_error chords (i mod List.length chords) in
    triggerAttackRelease
      {| instrument := synth; pitch := Chord chord; noteLength := "4n";
         time := time; velocity := None |} ;;
    for_each (Js.for_indices 4) (fun j =>
      let noteTime := time + Js.num j * beatDuration * 2 in
      r <- Math_random ;;
      let note :=
        nth_error scale (Z.to_nat (Qfloor (r * Js.num (List.length scale)))) in
      v <- Math_random ;;
      triggerAttackRelease
        {| instrument := synth; pitch := Note note; noteLength := "8n";
           time := noteTime; velocity := Some (v * 0.3 + 0.3) |})).

(** The events the script has scheduled when it starts the transport. *)
Definition schedule (rnd : nat -> Q) (template : Template) (duration : Z)
  : list Event :=
  scheduled (snd (toneScript template duration rnd {| draws := 0; scheduled := [] |})).

Definition layer (i : Instrument) (e : Event) : bool :=
  match i, instrument e with
  | synth, synth | bass, bass | kick, kick | hihat, hihat => true
  | _, _ => false
  end.

(** *** Reading the schedule *)

(** [emits P m]: whatever the random source and the transport, [m] only
    appends events, and every event it appends satisfies [P]. *)
Definition emits {A : Type} (P : Event -> Prop) (m : Script A) : Prop :=
  forall rnd s, exists new,
    scheduled (snd (m rnd s)) = scheduled s ++ new /\ Forall P new.

(** The single notes of the melody: the synth events that are not chords. *)
Definition melodyNote (e : Event) : bool :=
  match instrument e, pitch e with
  | synth, Note _ => true
  | _, _ => false
  end.

(** [adds i K m]: whatever the random source and the transport, the events
    of instrument [i] that [m] appends are exactly [K], in that order. *)
Definition adds {A : Type} (i : Instrument) (K : list Event) (m : Script A)
  : Prop :=
  forall rnd s,
    filter (layer i) (scheduled (snd (m rnd s)))
    = filter (layer i) (scheduled s) ++ K.

(** The kick on beat [i]. *)
Definition kickOn (tempo : Q) (i : nat) : Event :=
  {| instrument := kick; pitch := Note (Some "C1"%string); noteLength := "8n";
     time := Js.num i * beatDuration tempo; velocity := None |}.

Definition evenBeat (i : nat) : bool := (i mod 2 =? 0)%nat.

(** The pulse layer: the kick events, in the order they were scheduled. *)
Definition pulseLayer (rnd : nat -> Q) (template : Template) (duration : Z)
  : list Event :=
  filter (layer kick) (schedule rnd template duration).

(** Every event starts at a time [>= 0]; the kick, hi-hat, bass and chord
    events start before [duration]; a melody note starts less than six
    beats after it. *)
Definition in_time (template : Template) (duration : Z) (e : Event) : Prop :=
  0 <= time e /\
  (melodyNote e = false -> time e < inject_Z duration) /\
  time e < inject_Z duration + 6 * beatDuration (inject_Z (tempo template)).

(** A melody note that starts when the rendered audio has already ended. *)
Definition late_note (duration : Z) (e : Event) : bool :=
  melodyNote e && negb (Qle_bool (time e) (inject_Z duration)).

(** *** The score: the schedule in closed form *)

(** The hi-hat on eighth [i], its velocity taken from draw [i]. *)
Definition hihatOn (tempo : Q) (rnd : nat -> Q) (i : nat) : Event :=
  {| instrument := hihat; pitch := Unpitched; noteLength := "16n";
     time := Js.num i * beatDuration tempo / 2;
     velocity := Some (rnd i * 0.3 + 0.1) |}.

(** The bass note of bar [i]. *)
Definition bassOn (template : Template) (i : nat) : Event :=
  {| instrument := bass;
     pitch := Note (nth_error (bassNotes template)
                              (i mod List.length (bassNotes template)));
     noteLength := "2n";
     time := Js.num i * beatDuration (inject_Z (tempo template)) * 4;
     velocity := None |}.

(** The chord that opens round [i]. *)
Definition chordOn (template : Template) (i : nat) : Event :=
  {| instrument := synth;
     pitch := Chord (nth_error (chords template)
                               (i mod List.length (chords template)));
     noteLength := "4n";
     time := Js.num i * beatDuration (inject_Z (tempo template)) * 8;
     velocity := None |}.

(** Melody note [j] of round [i], its pitch taken from draw [d] and its
    velocity from draw [d + 1]. *)
Definition melodyOn (template : Template) (rnd : nat -> Q) (d i j : nat)
  : Event :=
  {| instrument := synth;
     pitch := Note (nth_error (scale template)
                      (Z.to_nat (Qfloor (rnd d
                                         * Js.num (List.length (scale template))))));
     noteLength := "8n";
     time := Js.num i * beatDuration (inject_Z (tempo template)) * 8
             + Js.num j * beatDuration (inject_Z (tempo template)) * 2;
     velocity := Some (rnd (S d) * 0.3 + 0.3) |}.

(** Round [i] of the melodic pattern, its first draw being draw [d]. *)
Definition melodyRound (template : Template) (rnd : nat -> Q) (d i : nat)
  : list Event :=
  chordOn template i
  :: map (fun j => melodyOn template rnd (d + 2 * j) i j) (seq 0 4).

(** The numbers of hi-hats, bass notes and rounds. *)
Definition eighths (template : Template) (duration : Z) : nat :=
  List.length
    (Js.for_indices
       (inject_Z (totalBeats duration (inject_Z (tempo template))) * 2)).

Definition bars (template : Template) (duration : Z) : nat :=
  List.length
    (Js.for_indices
       (inject_Z (totalBeats duration (inject_Z (tempo template))) / 4)).

Definition rounds (template : Template) (duration : Z) : nat :=
  List.length
    (Js.for_indices
       (inject_Z (totalBeats duration (inject_Z (tempo template))) / 8)).

Definition score (rnd : nat -> Q) (template : Template) (duration : Z)
  : list Event :=
  let tempo := inject_Z (tempo template) in
  map (kickOn tempo)
      (filter evenBeat (seq 0 (Z.to_nat (totalBeats duration tempo))))
  ++ map (hihatOn tempo rnd) (seq 0 (eighths template duration))
  ++ map (bassOn template) (seq 0 (bars template duration))
  ++ flat_map (fun i => melodyRound template rnd
                          (eighths template duration + 8 * i) i)
              (seq 0 (rounds template duration)).

(** Each event plays what its instrument is given: the kick its fixed
    note, the bass a note of [bassNotes], the synth a chord of [chords] or
    a note of [scale]; nothing is [undefined]. *)
Definition well_pitched (template : Template) (e : Event) : Prop :=
  match instrument e, pitch e with
  | kick, Note (Some n) => n = "C1"%string
  | hihat, Unpitched => True
  | bass, Note (Some n) => In n (bassNotes template)
  | synth, Chord (Some c) => In c (chords template)
  | synth, Note (Some n) => In n (scale template)
  | _, _ => False
  end.

(** The velocities: none for the kick, the bass and the chords, one in
    [0.1, 0.4) for a hi-hat and one in [0.3, 0.6) for a melody note. *)
Definition well_voiced (e : Event) : Prop :=
  match instrument e, pitch e, velocity e with
  | hihat, _, Some v => 0.1 <= v /\ v < 0.4
  | synth, Note _, Some v => 0.3 <= v /\ v < 0.6
  | synth, Chord _, None => True
  | kick, _, None => True
  | bass, _, None => True
  | _, _, _ => False
  end.

Local Close Scope script_scope.
Local Open Scope io_scope.

(** *** [generateMusic] *)

Record Metadata := {
  md_tempo : Z;
  md_duration : Z;
  md_genre : string;
  md_path : Path.t
}.

(** The script written to disk is [toneScript template duration] as text;
    the child process that runs it draws from a random source of its own.
    An inherited member in place of a template has no [duration]: reading
    [template.duration.max], after the draw, throws. *)
Definition generateMusic (genre : string) (outputPath : Path.t)
  : Io.IO Metadata :=
  let template := lookupTemplate genre in
  r <- Io.Math_random ;;
  match template with
  | Js.Own template =>
      let duration := sampleDuration template r in
      let scriptPath :=
        Path.join (Path.dirname outputPath) "temp_music_script.js" in
      Io.writeFileSync scriptPath Io.Data ;;
      Io.try_catch
        (Io.execNode outputPath ;;
         Io.unlinkSync scriptPath ;;
         Io.ret {| md_tempo := tempo template; md_duration := duration;
                   md_genre := genre; md_path := outputPath |})
        (fun error =>
           present <- Io.existsSync scriptPath ;;
           Io.when present (Io.unlinkSync scriptPath) ;;
           Io.throw error)
  | _ => Io.throw Io.TypeError
  end.

End MusicGenerator.

(** ** Node's [Buffer], as far as the generated script uses it *)

Module Buffer.

(** The octets of a buffer. *)
Definition t : Type := list Z.

Inductive Failure := TypeError | RangeError.

Inductive Result (A : Type) : Type :=
| Ok (a : A)
| Raise (e : Failure).
Arguments Ok {A} a.
Arguments Raise {A} e.

(** [Buffer.alloc(size)]: zero-filled; the allocation is taken to succeed. *)
Definition alloc (size : nat) : t := repeat 0%Z size.

(** [bytes] put in place of the octets from [offset] on. *)
Definition set_at (buf : t) (offset : nat) (bytes : list Z) : t :=
  firstn offset buf ++ bytes ++ skipn (offset + List.length bytes) buf.

Definition octets (s : string) : list Z :=
  map (fun c => Z.of_nat (nat_of_ascii c)) (list_ascii_of_string s).

(** [buf.write(string, offset)]: an offset beyond the end is a
    [RangeError]; the string is cut to the room that is left. *)
Definition write (s : string) (offset : nat) (buf : t) : Result t :=
  if (List.length buf <? offset)%nat then Raise RangeError
  else Ok (set_at buf offset (firstn (List.length buf - offset) (octets s))).

(** The [width] low octets of [value], least significant first; a negative
    value is stored in two's complement. *)
Definition le_bytes (width : nat) (value : Z) : list Z :=
  map (fun k => Z.land (Z.shiftr value (8 * Z.of_nat k)) 255) (seq 0 width).

(** [checkInt] followed by the store: the value has to lie in
    [[lo, hi]] and the [width] octets inside the buffer. *)
Definition writeIntLE (width : nat) (lo hi value : Z) (offset : nat) (buf : t)
  : Result t :=
  if ((lo <=? value)%Z && (value <=? hi)%Z
      && (offset + width <=? List.length buf)%nat)%bool
  then Ok (set_at buf offset (le_bytes width value))
  else Raise RangeError.

Definition writeUInt32LE : Z -> nat -> t -> Result t :=
  writeIntLE 4 0 4294967295.

Definition writeUInt16LE : Z -> nat -> t -> Result t :=
  writeIntLE 2 0 65535.

(** [buf.writeInt16LE(value, offset)]; [None] is [NaN], which passes the
    range check (no comparison with [NaN] holds) and is stored as zero. *)
Definition writeInt16LE (value : option Z) (offset : nat) (buf : t)
  : Result t :=
  match value with
  | Some v => writeIntLE 2 (-32768) 32767 v offset buf
  | None => writeIntLE 2 0 0 0 offset buf
  end.

(** The value of octets read least significant first. *)
Fixpoint le_value (bytes : list Z) : Z :=
  match bytes with
  | [] => 0
  | b :: bytes' => b + 256 * le_value bytes'
  end.

Definition slice (buf : t) (offset width : nat) : option (list Z) :=
  if (offset + width <=? List.length buf)%nat
  then Some (firstn width (skipn offset buf))
  else None.

(** [buf.readUInt16LE(offset)], [buf.readUInt32LE(offset)]; [None] outside
    the buffer. *)
Definition readUIntLE (width : nat) (buf : t) (offset : nat) : option Z :=
  option_map le_value (slice buf offset width).

(** [buf.readInt16LE(offset)] *)
Definition readInt16LE (buf : t) (offset : nat) : option Z :=
  option_map (fun u => if (u <? 32768)%Z then u else (u - 65536)%Z)
             (readUIntLE 2 buf offset).

(** [buf.toString('latin1', offset, offset + width)] *)
Definition readString (buf : t) (offset width : nat) : option string :=
  option_map (fun bytes =>
                string_of_list_ascii
                  (map (fun b => ascii_of_nat (Z.to_nat b)) bytes))
             (slice buf offset width).

End Buffer.

(** ** The WAV writer of the generated script *)

Declare Scope writer_scope.

Module WavWriter.

Import Buffer.

(** The buffer being filled and the [offset] the script keeps beside it. *)
Record Cursor := { buffer : Buffer.t; offset : nat }.

Definition Writer (A : Type) : Type := Cursor -> Result (A * Cursor).

Definition ret {A : Type} (a : A) : Writer A := fun c => Ok (a, c).

Definition bind {A B : Type} (m : Writer A) (k : A -> Writer B) : Writer B :=
  fun c =>
    match m c with
    | Ok (a, c') => k a c'
    | Raise e => Raise e
    end.

(** [buffer.op(..., offset); offset += width;] *)
Definition put (op : nat -> Buffer.t -> Result Buffer.t) (width : nat)
  : Writer unit :=
  fun c =>
    match op (offset c) (buffer c) with
    | Ok buf => Ok (tt, {| buffer := buf; offset := offset c + width |})
    | Raise e => Raise e
    end.

Fixpoint for_each (l : list nat) (body : nat -> Writer unit) : Writer unit :=
  match l with
  | [] => ret tt
  | i :: l' => bind (body i) (fun _ => for_each l' body)
  end.

Notation "m ;; k" := (bind m (fun _ => k))
  (at level 61, right associativity) : writer_scope.
Local Open Scope writer_scope.

(** A channel holds finite samples, exact as rationals; reading past its
    end gives [undefined]. *)
Definition sampleAt (audioData : list (list Q)) (channel i : nat) : option Q :=
  match nth_error audioData channel with
  | Some samples => nth_error samples i
  | None => None
  end.

(** [Math.max(-1, Math.min(1, x))] *)
Definition clamp (x : Q) : Q := Qmax (-1) (Qmin 1 x).

(** [Math.floor(sample * 32767)]; of [undefined] it is [NaN]. *)
Definition intSample (x : option Q) : option Z :=
  option_map (fun x => Qfloor (clamp x * 32767)) x.

Definition createWavBuffer (audioData : list (list Q)) (sampleRate : Z)
  : Result Buffer.t :=
  match audioData with
  | [] => Raise TypeError
  | first :: _ =>
      let numChannels := List.length audioData in
      let length := List.length first in
      let bytesPerSample := 2%nat in
      let blockAlign := (numChannels * bytesPerSample)%nat in
      let byteRate := (sampleRate * Z.of_nat blockAlign)%Z in
      let dataSize := (length * blockAlign)%nat in
      let bufferSize := (44 + dataSize)%nat in
      let script :=
        (* RIFF header *)
        put (write "RIFF") 4 ;;
        put (writeUInt32LE (Z.of_nat bufferSize - 8)) 4 ;;
        put (write "WAVE") 4 ;;
        (* fmt chunk *)
        put (write "fmt ") 4 ;;
        put (writeUInt32LE 16) 4 ;;
        put (writeUInt16LE 1) 2 ;;
        put (writeUInt16LE (Z.of_nat numChannels)) 2 ;;
        put (writeUInt32LE sampleRate) 4 ;;
        put (writeUInt32LE byteRate) 4 ;;
        put (writeUInt16LE (Z.of_nat blockAlign)) 2 ;;
        put (writeUInt16LE 16) 2 ;;
        (* data chunk *)
        put (write "data") 4 ;;
        put (writeUInt32LE (Z.of_nat dataSize)) 4 ;;
        (* audio data *)
        for_each (seq 0 length) (fun i =>
          for_each (seq 0 numChannels) (fun channel =>
            let sample := sampleAt audioData channel i in
            put (writeInt16LE (intSample sample)) 2))
      in
      match script {| buffer := alloc bufferSize; offset := 0 |} with
      | Ok (_, c) => Ok (buffer c)
      | Raise e => Raise e
      end
  end.

(** *** The file in closed form *)

Definition sampleBytes (x : option Q) : list Z :=
  match intSample x with
  | Some v => le_bytes 2 v
  | None => [0; 0]%Z
  end.

(** Frame [i]: sample [i] of every channel in turn. *)
Definition frameBytes (audioData : list (list Q)) (i : nat) : list Z :=
  flat_map (fun channel => sampleBytes (sampleAt audioData channel i))
           (seq 0 (List.length audioData)).

Definition frames (audioData : list (list Q)) : nat :=
  List.length (hd [] audioData).

Definition dataSize (audioData : list (list Q)) : nat :=
  frames audioData * (List.length audioData * 2).

(** The thirteen fields of the header. *)
Definition fields (audioData : list (list Q)) (sampleRate : Z)
  : list (list Z) :=
  let numChannels := Z.of_nat (List.length audioData) in
  [ octets "RIFF"; le_bytes 4 (Z.of_nat (44 + dataSize audioData) - 8);
    octets "WAVE";
    octets "fmt "; le_bytes 4 16; le_bytes 2 1;
    le_bytes 2 numChannels; le_bytes 4 sampleRate;
    le_bytes 4 (sampleRate * (numChannels * 2));
    le_bytes 2 (numChannels * 2); le_bytes 2 16;
    octets "data"; le_bytes 4 (Z.of_nat (dataSize audioData)) ].

Definition header (audioData : list (list Q)) (sampleRate : Z) : list Z :=
  List.concat (fields audioData sampleRate).

Definition wavBytes (audioData : list (list Q)) (sampleRate : Z) : list Z :=
  header audioData sampleRate
  ++ flat_map (frameBytes audioData) (seq 0 (frames audioData)).

(** Every header field fits its width. *)
Definition fits (audioData : list (list Q)) (sampleRate : Z) : bool :=
  let numChannels := Z.of_nat (List.length audioData) in
  ((Z.of_nat (44 + dataSize audioData) - 8 <=? 4294967295)
   && (numChannels <=? 65535)
   && (0 <=? sampleRate) && (sampleRate <=? 4294967295)
   && (sampleRate * (numChannels * 2) <=? 4294967295)
   && (numChannels * 2 <=? 65535))%Z.

(** *** Reading a run of the writer *)

(** The cursor after [written] has been stored in a fresh buffer with room
    for [room] more octets. *)
Definition filled (written : list Z) (room : nat) : Cursor :=
  {| buffer := written ++ repeat 0%Z room; offset := List.length written |}.

(** [m] stores [bytes] at the cursor and moves past them. *)
Definition appends (bytes : list Z) (m : Writer unit) : Prop :=
  forall written room,
    (List.length bytes <= room)%nat ->
    m (filled written room)
    = Ok (tt, filled (written ++ bytes) (room - List.length bytes)).

(** [m] throws a [RangeError] wherever the cursor is. *)
Definition raises {A : Type} (m : Writer A) : Prop :=
  forall c, m c = Raise RangeError.

End WavWriter.

(** ** src/visualGenerator.js *)

Module VisualGenerator.

Record t := { width : Z; height : Z; fps : Z }.

Definition constructor : t := {| width := 1920; height := 1080; fps := 30 |}.

Record Style := {
  colors : list string;
  backgroundColor : string;
  shapeType : string;
  particleCount : Z;
  waveAmplitude : Z
}.

Record Metadata := {
  frameCount : Z;
  md_fps : Z;
  md_width : Z;
  md_height : Z;
  framesDir : Path.t
}.

Local Open Scope string_scope.

Definition electronic : Style := {|
  colors := ["#00ffff"; "#ff00ff"; "#ffff00"; "#00ff00"];
  backgroundColor := "#000000";
  shapeType := "geometric";
  particleCount := 50;
  waveAmplitude := 100 |}.

Definition ambient : Style := {|
  colors := ["#4a90e2"; "#7b68ee"; "#9370db"; "#ba55d3"];
  backgroundColor := "#0a0a1a";
  shapeType := "organic";
  particleCount := 30;
  waveAmplitude := 150 |}.

Definition hiphop : Style := {|
  colors := ["#ff4500"; "#ffa500"; "#ffff00"; "#ff6347"];
  backgroundColor := "#1a1a1a";
  shapeType := "sharp";
  particleCount := 40;
  waveAmplitude := 80 |}.

Definition pop : Style := {|
  colors := ["#ff1493"; "#ff69b4"; "#ffc0cb"; "#ffb6c1"];
  backgroundColor := "#ffffff";
  shapeType := "round";
  particleCount := 60;
  waveAmplitude := 120 |}.

Definition techno : Style := {|
  colors := ["#ff0000"; "#00ff00"; "#0000ff"; "#ffffff"];
  backgroundColor := "#000000";
  shapeType := "geometric";
  particleCount := 70;
  waveAmplitude := 90 |}.

Definition styles : list (string * Style) :=
  [("electronic", electronic); ("ambient", ambient); ("hiphop", hiphop);
   ("pop", pop); ("techno", techno)].

(** [styles[genre] || styles.electronic] *)
Definition _getVisualStyle (genre : string) : Js.Value Style :=
  Js.or_else (Js.get styles genre) (Js.get styles "electronic").

Local Close Scope string_scope.

(** [Math.floor(duration * this.fps)] *)
Definition totalFrames (this : t) (duration : Q) : Z :=
  Qfloor (duration * inject_Z (fps this)).

(** [frameNum / totalFrames] *)
Definition progress (frameNum : nat) (totalFrames : Z) : Q :=
  Js.num frameNum / inject_Z totalFrames.

(** [Math.min(progress * 2, 1)] *)
Definition introOpacity (progress : Q) : Q := Qmin (progress * 2) 1.

(** [Math.max(1 - progress * 2, 0)] *)
Definition outroOpacity (progress : Q) : Q := Qmax (1 - progress * 2) 0.

(** *** The scene of a main frame *)

Section Scene.
Local Open Scope R_scope.

Variable this : t.

(** [Math.sin(beat * Math.PI) * 0.5 + 0.5] *)
Definition intensity (beat : Q) : R := sin (Q2R beat * PI) * 0.5 + 0.5.

Definition barCount : nat := 64.

Definition barPhase (beat : Q) (i : nat) : Q :=
  let frequency := (Js.num i / Js.num barCount)%Q in
  (beat + frequency * 4)%Q.

Definition barHeight (beat : Q) (intensity : R) (style : Style) (i : nat) : R :=
  let phase := barPhase beat i in
  (sin (Q2R phase * PI) * 0.5 + 0.5) * IZR (waveAmplitude style) * intensity.

Definition _drawVisualizer (beat : Q) (intensity : R) (style : Style)
  : list Canvas.Draw :=
  let barWidth := Q2R (inject_Z (width this) / Js.num barCount) in
  let centerY := Q2R (inject_Z (height this) / 2) in
  map (fun i =>
         let height := barHeight beat intensity style i in
         let colorIndex :=
           Z.to_nat (Qfloor ((Js.num i / Js.num barCount)
                             * Js.num (List.length (colors style)))) in
         let x := Q2R (Js.num i) * barWidth in
         let h := height * 2 in
         Canvas.fillRect (nth_error (colors style) colorIndex)
                         x (centerY - h) (barWidth - 2) (h * 2))
      (Js.for_indices (Js.num barCount)).

Definition _drawParticles (time beat : Q) (style : Style) : list Canvas.Draw :=
  map (fun i =>
         let angle :=
           Q2R (Js.num i / inject_Z (particleCount style)) * PI * 2
           + Q2R time * 0.5 in
         let radius := 300 + sin (Q2R (beat + Js.num i)) * 100 in
         let x := Q2R (inject_Z (width this) / 2) + cos angle * radius in
         let y := Q2R (inject_Z (height this) / 2) + sin angle * radius in
         let size := 5 + sin (Q2R (beat * 2 + Js.num i)) * 3 in
         Canvas.fillArc
           (nth_error (colors style) (i mod List.length (colors style)))
           0.6 x y size)
      (Js.for_indices (inject_Z (particleCount style))).

Definition _drawGeometricPatterns (beat : Q) (style : Style)
  : list Canvas.Draw :=
  let center :=
    (Q2R (inject_Z (width this) / 2), Q2R (inject_Z (height this) / 2)) in
  let rotationSpeed := 0.5 in
  let rotation := Q2R beat * rotationSpeed in
  map (fun i =>
         let size := 150 + INR i * 50 in
         Canvas.stroke
           (nth_error (colors style) (i mod List.length (colors style)))
           3 0.4 center (rotation + INR i * PI * 2 / 3)
           (if String.eqb (shapeType style) "geometric" then
              Canvas.Hexagon
                (map (fun j =>
                        let angle := Q2R (Js.num j / 6) * PI * 2 in
                        (cos angle * size, sin angle * size))
                     (Js.for_indices 6))
            else Canvas.Circle size))
      (Js.for_indices 3).

(** What [_generateFrame] has drawn when it writes the canvas out: the
    background, then the bars, the particles and the rotating shapes. *)
Definition frameScene (beat time : Q) (style : Style) : list Canvas.Draw :=
  Canvas.fillRect (Some (backgroundColor style)) 0 0
                  (IZR (width this)) (IZR (height this))
  :: _drawVisualizer beat (intensity beat) style
  ++ _drawParticles time beat style
  ++ _drawGeometricPatterns beat style.

End Scene.

(** [genre.toUpperCase()], on ASCII letters. *)
Definition toUpperCase (s : string) : string :=
  string_of_list_ascii
    (map (fun c =>
            let n := nat_of_ascii c in
            if ((97 <=? n) && (n <=? 122))%nat then ascii_of_nat (n - 32) else c)
         (list_ascii_of_string s)).

Local Open Scope io_scope.

Definition frameFile (prefix : string) (frameNum : nat) : string :=
  (prefix ++ Io.padStart 6 frameNum ++ ".png")%string.

(** A value that is not a style has no [colors]: drawing the first bar
    throws. *)
Definition _generateFrame (this : t) (frameNum : nat) (beat time : Q)
    (duration : Z) (style : Js.Value Style) (outputDir : Path.t) : Io.IO unit :=
  match style with
  | Js.Own style =>
      let framePath := Path.join outputDir (frameFile "frame_" frameNum) in
      Io.writeCanvas Io.MainFrame frameNum framePath
        (Canvas.Scene (frameScene this beat time style))
  | _ => Io.throw Io.TypeError
  end.

Definition _generateIntroFrame (this : t) (frameNum : nat) (progress : Q)
    (genre : string) (outputDir : Path.t) : Io.IO unit :=
  let opacity := introOpacity progress in
  let title := (toUpperCase genre ++ " MUSIC VIDEO")%string in
  let framePath := Path.join outputDir (frameFile "intro_" frameNum) in
  Io.writeCanvas Io.IntroFrame frameNum framePath
    (Canvas.TitleCard opacity [title; "Generated by AI"%string]).

Definition _generateOutroFrame (this : t) (frameNum : nat) (progress : Q)
    (genre : string) (outputDir : Path.t) : Io.IO unit :=
  let opacity := outroOpacity progress in
  let framePath := Path.join outputDir (frameFile "outro_" frameNum) in
  Io.writeCanvas Io.OutroFrame frameNum framePath
    (Canvas.TitleCard opacity ["THANK YOU"; "FOR WATCHING"]%string).

Definition metadata (this : t) (totalFrames : Z) (outputDir : Path.t) : Metadata :=
  {| frameCount := totalFrames; md_fps := fps this; md_width := width this;
     md_height := height this; framesDir := outputDir |}.

Definition generateVisuals (this : t) (musicMetadata : MusicGenerator.Metadata)
    (outputDir : Path.t) : Io.IO Metadata :=
  let tempo := MusicGenerator.md_tempo musicMetadata in
  let duration := MusicGenerator.md_duration musicMetadata in
  let genre := MusicGenerator.md_genre musicMetadata in
  let totalFrames := totalFrames this (inject_Z duration) in
  let beatsPerSecond := inject_Z tempo / 60 in
  Io.ensureDir outputDir ;;
  let visualStyle := _getVisualStyle genre in
  Io.for_each (Js.for_indices (inject_Z totalFrames)) (fun frameNum =>
    let time := Js.num frameNum / inject_Z (fps this) in
    let beat := time * beatsPerSecond in
    _generateFrame this frameNum beat time duration visualStyle outputDir) ;;
  Io.ret (metadata this totalFrames outputDir).

Definition generateIntro (this : t) (genre : string) (outputDir : Path.t)
    (durationSeconds : Q) : Io.IO Metadata :=
  let totalFrames := totalFrames this durationSeconds in
  Io.ensureDir outputDir ;;
  Io.for_each (Js.for_indices (inject_Z totalFrames)) (fun frameNum =>
    let progress := progress frameNum totalFrames in
    _generateIntroFrame this frameNum progress genre outputDir) ;;
  Io.ret (metadata this totalFrames outputDir).

Definition generateOutro (this : t) (genre : string) (outputDir : Path.t)
    (durationSeconds : Q) : Io.IO Metadata :=
  let totalFrames := totalFrames this durationSeconds in
  Io.ensureDir outputDir ;;
  Io.for_each (Js.for_indices (inject_Z totalFrames)) (fun frameNum =>
    let progress := progress frameNum totalFrames in
    _generateOutroFrame this frameNum progress genre outputDir) ;;
  Io.ret (metadata this totalFrames outputDir).

End VisualGenerator.

(** ** Where the ink of a frame lands *)

Module Frame.

Local Open Scope R_scope.

(** A point of a path drawn after [ctx.translate(tx, ty)] and
    [ctx.rotate(a)]: the path is turned about the origin, then moved. *)
Definition place (translate : R * R) (rotate : R) (p : R * R) : R * R :=
  (fst translate + (fst p * cos rotate - snd p * sin rotate),
   snd translate + (fst p * sin rotate + snd p * cos rotate)).

(** A point at least [margin] pixels away from the border of a canvas of
    [W] by [H] pixels. *)
Definition clear (W H margin : R) (p : R * R) : Prop :=
  margin <= fst p <= W - margin /\ margin <= snd p <= H - margin.

(** The draw call stays on a canvas of [W] by [H] pixels: a rectangle has
    non-negative sides and lies on it whole, a disc has a non-negative radius
    (a negative one makes [ctx.arc] throw) and lies on it whole, a stroked
    outline keeps its corners, and a circle its rim, a line width away from
    the border. *)
Definition inside (W H : R) (d : Canvas.Draw) : Prop :=
  match d with
  | Canvas.fillRect _ x y w h =>
      0 <= w /\ 0 <= h /\ 0 <= x /\ x + w <= W /\ 0 <= y /\ y + h <= H
  | Canvas.fillArc _ _ x y radius =>
      0 <= radius /\ clear W H radius (x, y)
  | Canvas.stroke _ lineWidth _ translate rotate (Canvas.Hexagon vertices) =>
      Forall (fun v => clear W H lineWidth (place translate rotate v)) vertices
  | Canvas.stroke _ lineWidth _ translate rotate (Canvas.Circle radius) =>
      0 <= radius /\ clear W H (radius + lineWidth) translate
  end.

End Frame.

(** ** src/videoRenderer.js *)

Module VideoRenderer.

Local Open Scope io_scope.

(** The length of silent audio and video asked of ffmpeg ([-t]) for a title
    card: [frameCount / fps]. *)
Definition segmentDuration (m : VisualGenerator.Metadata) : Q :=
  inject_Z (VisualGenerator.frameCount m) / inject_Z (VisualGenerator.md_fps m).

Definition renderIntro (introMetadata : VisualGenerator.Metadata)
    (audioPath outputPath : Path.t) : Io.IO unit :=
  Io.runFfmpeg Io.EncodeIntro outputPath (Io.ret tt) (fun err => Io.throw err).

Definition renderMain (visualMetadata : VisualGenerator.Metadata)
    (audioPath outputPath : Path.t) : Io.IO unit :=
  Io.runFfmpeg Io.EncodeMain outputPath (Io.ret tt) (fun err => Io.throw err).

Definition renderOutro (outroMetadata : VisualGenerator.Metadata)
    (outputPath : Path.t) : Io.IO unit :=
  Io.runFfmpeg Io.EncodeOutro outputPath (Io.ret tt) (fun err => Io.throw err).

Definition unlinkIfExists (p : Path.t) : Io.IO unit :=
  present <- Io.existsSync p ;;
  Io.when present (Io.unlinkSync p).

Definition concatenateVideos (videoPaths : list Path.t) (outputPath : Path.t)
  : Io.IO unit :=
  let concatListPath := Path.join (Path.dirname outputPath) "concat_list.txt" in
  Io.writeFileSync concatListPath Io.Data ;;
  Io.runFfmpeg Io.Concat outputPath
    (unlinkIfExists concatListPath ;;
     Io.ret tt)
    (fun err =>
       unlinkIfExists concatListPath ;;
       Io.throw err).

Definition removeSegments (introPath mainPath outroPath tempDir : Path.t)
  : Io.IO unit :=
  unlinkIfExists introPath ;;
  unlinkIfExists mainPath ;;
  unlinkIfExists outroPath ;;
  present <- Io.existsSync tempDir ;;
  Io.when present (Io.rmSync tempDir).

(** The returned object also holds the size of the output file, which is
    read with [statSync] and not modelled beyond that call. *)
Definition renderComplete
    (introMetadata visualMetadata outroMetadata : VisualGenerator.Metadata)
    (audioPath outputPath : Path.t) : Io.IO Path.t :=
  let tempDir := Path.join (Path.dirname outputPath) "temp_segments" in
  Io.ensureDir tempDir ;;
  let introPath := Path.join tempDir "intro.mp4" in
  let mainPath := Path.join tempDir "main.mp4" in
  let outroPath := Path.join tempDir "outro.mp4" in
  Io.try_catch
    (renderIntro introMetadata audioPath introPath ;;
     renderMain visualMetadata audioPath mainPath ;;
     renderOutro outroMetadata outroPath ;;
     concatenateVideos [introPath; mainPath; outroPath] outputPath ;;
     removeSegments introPath mainPath outroPath tempDir ;;
     Io.statSync outputPath ;;
     Io.ret outputPath)
    (fun error =>
       removeSegments introPath mainPath outroPath tempDir ;;
       Io.throw error).

End VideoRenderer.

(** ** generate.js *)

Module MusicVideoGenerator.

Local Open Scope io_scope.

(** [__dirname] is the directory of the script. *)
Record t := { outputDir : Path.t }.

Definition constructor (__dirname : Path.t) : t :=
  {| outputDir := Path.join __dirname "output" |}.

Definition string_of_Z (z : Z) : string := NilZero.string_of_int (Z.to_int z).

(** [outputName ? path.basename(outputName) : `music_video_${genre}_${timestamp}`]:
    [null] and the empty string are falsy. *)
Definition sanitizedName (genre : string) (outputName : option string)
    (timestamp : Z) : string :=
  match outputName with
  | None | Some EmptyString =>
      ("music_video_" ++ genre ++ "_" ++ string_of_Z timestamp)%string
  | Some name => Path.basename name
  end.

Definition projectDir (this : t) (name : string) : Path.t :=
  Path.join (outputDir this) name.

Definition videoPath (this : t) (name : string) : Path.t :=
  Path.join (outputDir this) (name ++ ".mp4")%string.

Definition _cleanupTempFiles (projectDir : Path.t) : Io.IO unit :=
  Io.for_each ["frames"; "intro"; "outro"]%string (fun dir =>
    let fullPath := Path.join projectDir dir in
    present <- Io.existsSync fullPath ;;
    Io.when present
      (files <- Io.readdirSync fullPath ;;
       Io.for_each files (fun file => Io.unlinkSync (Path.join fullPath file)) ;;
       Io.rmSync fullPath)) ;;
  let audioPath := Path.join projectDir "audio.wav" in
  VideoRenderer.unlinkIfExists audioPath ;;
  present <- Io.existsSync projectDir ;;
  Io.when present
    (remaining <- Io.readdirSync projectDir ;;
     Io.when (Nat.eqb (List.length remaining) 0) (Io.rmSync projectDir)).

(** The five stages of the [try] block of [generate], up to its final
    cleanup. *)
Definition stages (visualGenerator : VisualGenerator.t) (genre : string)
    (framesDir introDir outroDir audioPath videoPath : Path.t)
  : Io.IO Path.t :=
  musicMetadata <- MusicGenerator.generateMusic genre audioPath ;;
  introMetadata <-
    VisualGenerator.generateIntro visualGenerator genre introDir 3 ;;
  visualMetadata <-
    VisualGenerator.generateVisuals visualGenerator musicMetadata framesDir ;;
  outroMetadata <-
    VisualGenerator.generateOutro visualGenerator genre outroDir 3 ;;
  VideoRenderer.renderComplete introMetadata visualMetadata outroMetadata
    audioPath videoPath.

(** The [try] block of [generate]. *)
Definition pipeline (visualGenerator : VisualGenerator.t) (genre : string)
    (projectDir framesDir introDir outroDir audioPath videoPath : Path.t)
  : Io.IO Path.t :=
  musicMetadata <- MusicGenerator.generateMusic genre audioPath ;;
  introMetadata <-
    VisualGenerator.generateIntro visualGenerator genre introDir 3 ;;
  visualMetadata <-
    VisualGenerator.generateVisuals visualGenerator musicMetadata framesDir ;;
  outroMetadata <-
    VisualGenerator.generateOutro visualGenerator genre outroDir 3 ;;
  videoMetadata <-
    VideoRenderer.renderComplete introMetadata visualMetadata outroMetadata
      audioPath videoPath ;;
  _cleanupTempFiles projectDir ;;
  Io.ret videoPath.

Definition generate (this : t) (genre : string) (outputName : option string)
  : Io.IO Path.t :=
  timestamp <- Io.Date_now ;;
  let sanitizedName := sanitizedName genre outputName timestamp in
  let projectDir := projectDir this sanitizedName in
  let framesDir := Path.join projectDir "frames" in
  let introDir := Path.join projectDir "intro" in
  let outroDir := Path.join projectDir "outro" in
  let audioPath := Path.join projectDir "audio.wav" in
  let videoPath := videoPath this sanitizedName in
  Io.for_each [projectDir; framesDir; introDir; outroDir]
    Io.ensureDir ;;
  Io.try_catch
    (pipeline VisualGenerator.constructor genre
              projectDir framesDir introDir outroDir audioPath videoPath)
    (fun error => Io.throw error).

Definition listGenres : list string := Js.keys MusicGenerator.genreTemplates.

End MusicVideoGenerator.

(** ** Reading the disk before and after a request *)

Module Disk.

Import Io.

(** A path all of whose components name an entry. *)
Definition normal (p : Path.t) : Prop :=
  Forall (fun s => Path.proper_name s = true) p.

(** The entries of a real disk: every path is made of names. *)
Definition normal_files (w : World) : Prop :=
  Forall (fun e => normal (fst e)) (files w).

(** No path is listed twice. *)
Definition distinct (w : World) : Prop := NoDup (map fst (files w)).

Definition well_formed (w : World) : Prop := distinct w /\ normal_files w.

(** What is at [p] is [v] ([None]: nothing). *)
Definition holds (p : Path.t) (v : option Node) (w : World) : Prop :=
  lookup p (files w) = v.

(** Nothing is at [dir] or below it. *)
Definition vacant (dir : Path.t) (w : World) : Prop :=
  forall q, Path.is_prefix dir q = true -> lookup q (files w) = None.

(** Every collaborator works: the child process exits cleanly, every frame
    is drawn and written, every ffmpeg run ends well. *)
Definition working (env : Env) : Prop :=
  node_exec env = true /\
  (forall kind k, canvas env kind k = true) /\
  (forall job, ffmpeg env job = Done).

(** The ffmpeg runs that [renderComplete] has awaited when it starts
    [job]. *)
Definition earlier (job : Job) : list Job :=
  match job with
  | EncodeIntro => []
  | EncodeMain => [EncodeIntro]
  | EncodeOutro => [EncodeIntro; EncodeMain]
  | Concat => [EncodeIntro; EncodeMain; EncodeOutro]
  end.

Definition workDirs : list string := ["frames"; "intro"; "outro"]%string.

(** What a request puts below its working directory [dir]: the directory
    itself, its three image directories and the files in them, the audio
    file and the script that renders it. *)
Definition expected (dir q : Path.t) (n : Node) : Prop :=
  (q = dir /\ n = Directory) \/
  (exists d, In d workDirs /\ q = dir ++ [d] /\ n = Directory) \/
  (exists d f, In d workDirs /\ q = dir ++ [d; f] /\ n <> Directory) \/
  (q = dir ++ ["audio.wav"%string] /\ n <> Directory) \/
  (q = dir ++ ["temp_music_script.js"%string] /\ n <> Directory).

(** Below [dir] there is nothing but what a request puts there. *)
Definition tidy (dir : Path.t) (w : World) : Prop :=
  forall q n, Path.is_prefix dir q = true ->
              lookup q (files w) = Some n -> expected dir q n.

(** The body of [generate] once the clock has been read and the name
    chosen, with every path spelled out: [out] is the output directory and
    [name] the name of the request. *)
Definition request (genre : string) (out : Path.t) (name : string) : IO Path.t :=
  let projectDir := out ++ [name] in
  bind (for_each [projectDir; projectDir ++ ["frames"%string];
                  projectDir ++ ["intro"%string]; projectDir ++ ["outro"%string]]
                 ensureDir)
       (fun _ =>
          try_catch
            (MusicVideoGenerator.pipeline VisualGenerator.constructor genre
               projectDir (projectDir ++ ["frames"%string])
               (projectDir ++ ["intro"%string]) (projectDir ++ ["outro"%string])
               (projectDir ++ ["audio.wav"%string])
               (out ++ [(name ++ ".mp4")%string]))
            (fun error => throw error)).

End Disk.

(** ** generate.js: the command line *)

Module Cli.

Local Open Scope io_scope.
Local Open Scope string_scope.

(** What the process has printed when it exits. *)
Inductive Report :=
| Usage
| Genres (names : list string)
| UnknownGenre (genre : string) (available : list string)
| Success (videoPath : Path.t)
| GenerationFailed (error : Io.Error).

(** [args.includes(s)] *)
Definition includes (args : list string) (s : string) : bool :=
  existsb (String.eqb s) args.

(** [args[i] || null]: a missing argument and the empty string are falsy. *)
Definition argument (args : list string) (i : nat) : option string :=
  match nth_error args i with
  | None | Some EmptyString => None
  | Some s => Some s
  end.

Definition wantsHelp (args : list string) : bool :=
  includes args "--help" || includes args "-h".

Definition wantsList (args : list string) : bool :=
  includes args "--list" || includes args "-l".

(** [args[0] || 'electronic'] *)
Definition genre (args : list string) : string :=
  match argument args 0 with
  | Some g => g
  | None => "electronic"
  end.

(** [args[1] || null] *)
Definition outputName (args : list string) : option string := argument args 1.

(** The block run when the file is the main module, on
    [args = process.argv.slice(2)]: the report printed and the code given to
    [process.exit].  The three packages are taken to be installed: without
    them the file exits with 1 before it reaches this block. *)
Definition main (__dirname : Path.t) (args : list string) : Io.IO (Report * Z) :=
  if wantsHelp args then Io.ret (Usage, 0%Z)
  else if wantsList args then
    Io.ret (Genres MusicVideoGenerator.listGenres, 0%Z)
  else
    let genre := genre args in
    let outputName := outputName args in
    let generator := MusicVideoGenerator.constructor __dirname in
    if negb (includes MusicVideoGenerator.listGenres genre) then
      Io.ret (UnknownGenre genre MusicVideoGenerator.listGenres, 1%Z)
    else
      Io.try_catch
        (videoPath <- MusicVideoGenerator.generate generator genre outputName ;;
         Io.ret (Success videoPath, 0%Z))
        (fun error => Io.ret (GenerationFailed error, 1%Z)).

End Cli.

(** ** Concrete runs *)

Module Scenario.

Local Open Scope string_scope.

(** The generator installed in [/srv/app]. *)
Definition this : MusicVideoGenerator.t :=
  MusicVideoGenerator.constructor ["srv"; "app"].

Definition empty_disk : Io.World := {| Io.files := []; Io.draws := 0 |}.

(** Every collaborator works. *)
Definition all_well : Io.Env := {|
  Io.random := fun _ => 1 # 2;
  Io.now := 1700000000000;
  Io.node_exec := true;
  Io.node_writes := true;
  Io.canvas := fun _ _ => true;
  Io.ffmpeg := fun _ => Io.Done |}.

(** The child process running the music script fails. *)
Definition music_fails : Io.Env := {|
  Io.random := fun _ => 1 # 2;
  Io.now := 1700000000000;
  Io.node_exec := false;
  Io.node_writes := false;
  Io.canvas := fun _ _ => true;
  Io.ffmpeg := fun _ => Io.Done |}.

(** ffmpeg fails on the intro segment, leaving a partial file. *)
Definition intro_render_fails : Io.Env := {|
  Io.random := fun _ => 1 # 2;
  Io.now := 1700000000000;
  Io.node_exec := true;
  Io.node_writes := true;
  Io.canvas := fun _ _ => true;
  Io.ffmpeg := fun job =>
    match job with Io.EncodeIntro => Io.Failed true | _ => Io.Done end |}.

(** The canvas cannot be written from the first intro frame on. *)
Definition intro_frames_fail : Io.Env := {|
  Io.random := fun _ => 1 # 2;
  Io.now := 1700000000000;
  Io.node_exec := true;
  Io.node_writes := true;
  Io.canvas := fun kind _ =>
    match kind with Io.IntroFrame => false | _ => true end;
  Io.ffmpeg := fun _ => Io.Done |}.

Definition card (frames : Z) (dir : Path.t) : VisualGenerator.Metadata :=
  VisualGenerator.metadata VisualGenerator.constructor frames dir.

End Scenario.

(** * Properties *)

(** Linear arithmetic over [Q], division by a literal read as a product. *)
Ltac qlra :=
  unfold Qdiv in *;
  change (/ 2)%Q with (1 # 2)%Q in *;
  change (/ 4)%Q with (1 # 4)%Q in *;
  change (/ 8)%Q with (1 # 8)%Q in *;
  Lqa.lra.
Ltac rlra := Lra.lra.

(** ** Loops and lookups *)

Section JsFacts.

Lemma num_nonneg (i : nat) : 0 <= Js.num i.
Proof.
  unfold Js.num. change 0 with (inject_Z 0). rewrite <- Zle_Qle. lia.
Qed.

Lemma num_lt (i j : nat) : (i < j)%nat <-> Js.num i < Js.num j.
Proof. unfold Js.num. rewrite <- Zlt_Qlt. lia. Qed.

(** The loop [for (let i = 0; i < bound; i++)] runs its body for exactly
    the counters below the bound. *)
Lemma for_indices_spec (bound : Q) (i : nat) :
  In i (Js.for_indices bound) <-> Js.num i < bound.
Proof.
  unfold Js.for_indices, Js.num. rewrite in_seq. split.
  - intros [_ H]. simpl in H.
    assert (Hz : (Z.of_nat i <= Qceiling bound - 1)%Z) by lia.
    apply Qle_lt_trans with (inject_Z (Qceiling bound - 1)).
    + rewrite <- Zle_Qle. exact Hz.
    + apply Qceiling_lt.
  - intros H. split; [lia|]. simpl.
    assert (Hc : inject_Z (Z.of_nat i) < inject_Z (Qceiling bound)).
    { eapply Qlt_le_trans; [exact H | apply Qle_ceiling]. }
    rewrite <- Zlt_Qlt in Hc. lia.
Qed.

Lemma for_indices_nat (n : nat) : Js.for_indices (Js.num n) = seq 0 n.
Proof.
  unfold Js.for_indices, Js.num. rewrite Qceiling_Z, Nat2Z.id. reflexivity.
Qed.

Lemma for_indices_Z (z : Z) : Js.for_indices (inject_Z z) = seq 0 (Z.to_nat z).
Proof. unfold Js.for_indices. rewrite Qceiling_Z. reflexivity. Qed.

Lemma get_own {A : Type} (obj : list (string * A)) (key : string) :
  In key (Js.keys obj) -> exists v, Js.get obj key = Js.Own v.
Proof.
  unfold Js.get, Js.keys. induction obj as [|[k v] obj IH]; simpl.
  - intros [].
  - intros [Hk | Hin].
    + subst. rewrite String.eqb_refl. eauto.
    + destruct (String.eqb k key); eauto.
Qed.

Lemma own_property_absent {A : Type} (obj : list (string * A)) (key : string) :
  ~ In key (Js.keys obj) -> Js.own_property obj key = None.
Proof.
  unfold Js.keys. induction obj as [|[k v] obj IH]; simpl; intros H.
  - reflexivity.
  - destruct (String.eqb_spec k key) as [->|Hne].
    + exfalso. apply H. now left.
    + apply IH. intros Hin. apply H. now right.
Qed.

(** A key that is neither an own property nor inherited reads as
    [undefined]. *)
Lemma get_undefined {A : Type} (obj : list (string * A)) (key : string) :
  ~ In key (Js.keys obj) -> ~ In key Js.object_prototype ->
  Js.get obj key = Js.Undefined.
Proof.
  intros Hown Hproto. unfold Js.get. rewrite own_property_absent by assumption.
  destruct (existsb (String.eqb key) Js.object_prototype) eqn:E; [|reflexivity].
  apply existsb_exists in E. destruct E as [x [Hin Heq]].
  apply String.eqb_eq in Heq. subst. contradiction.
Qed.

(** A key that is not inherited reads as an own property or as the
    fallback. *)
Lemma get_or_else_own {A : Type} (obj : list (string * A)) (key dflt : string) :
  ~ In key Js.object_prototype -> In dflt (Js.keys obj) ->
  exists v, Js.or_else (Js.get obj key) (Js.get obj dflt) = Js.Own v.
Proof.
  intros Hproto Hd. unfold Js.get at 1.
  destruct (Js.own_property obj key) as [v|]; [exists v; reflexivity|].
  destruct (existsb (String.eqb key) Js.object_prototype) eqn:E.
  - apply existsb_exists in E. destruct E as [x [Hin Heq]].
    apply String.eqb_eq in Heq. subst. contradiction.
  - simpl. apply get_own, Hd.
Qed.

End JsFacts.


(** ** Rounding *)

Section DoubleFacts.

Import Double.







End DoubleFacts.
(** ** The note schedule *)

Section ScheduleFacts.

Import MusicGenerator.

Lemma emits_ret {A : Type} (P : Event -> Prop) (a : A) : emits P (ret a).
Proof. intros rnd s. exists []. simpl. rewrite app_nil_r. auto. Qed.

Lemma emits_random (P : Event -> Prop) : emits P Math_random.
Proof. intros rnd s. exists []. simpl. rewrite app_nil_r. auto. Qed.

Lemma emits_trigger (P : Event -> Prop) (e : Event) :
  P e -> emits P (triggerAttackRelease e).
Proof. intros H rnd s. exists [e]. simpl. auto. Qed.

Lemma emits_bind {A B : Type} (P : Event -> Prop) (m : Script A)
  (k : A -> Script B) :
  emits P m -> (forall a, emits P (k a)) -> emits P (bind m k).
Proof.
  intros Hm Hk rnd s. unfold bind.
  destruct (Hm rnd s) as [new1 [E1 F1]].
  destruct (m rnd s) as [a s1]. simpl in E1.
  destruct (Hk a rnd s1) as [new2 [E2 F2]].
  exists (new1 ++ new2). split.
  - rewrite E2, E1, app_assoc. reflexivity.
  - apply Forall_app. auto.
Qed.

Lemma emits_for_each (P : Event -> Prop) (l : list nat) (body : nat -> Script unit) :
  (forall i, In i l -> emits P (body i)) -> emits P (for_each l body).
Proof.
  induction l as [|i l IH]; intros H; simpl.
  - apply emits_ret.
  - apply emits_bind.
    + apply H. now left.
    + intros _. apply IH. intros j Hj. apply H. now right.
Qed.

Lemma emits_schedule (P : Event -> Prop) (template : Template) (duration : Z) :
  emits P (toneScript template duration) ->
  forall rnd, Forall P (schedule rnd template duration).
Proof.
  intros H rnd. unfold schedule.
  destruct (H rnd {| draws := 0; scheduled := [] |}) as [new [E F]].
  rewrite E. exact F.
Qed.

Create HintDb schedule.
#[local] Hint Resolve emits_ret emits_random emits_trigger : schedule.

Section Bounds.

Variable template : Template.
Variable duration : Z.
Hypothesis tempo_pos : (0 < tempo template)%Z.

Local Notation "'bd'" := (beatDuration (inject_Z (tempo template))).
Local Notation "'tb'" :=
  (inject_Z (totalBeats duration (inject_Z (tempo template)))).

Lemma beatDuration_pos : 0 < bd.
Proof.
  unfold beatDuration. apply Qlt_shift_div_l.
  - change 0 with (inject_Z 0). rewrite <- Zlt_Qlt. exact tempo_pos.
  - rewrite Qmult_0_l. reflexivity.
Qed.

(** The beats that fit: [totalBeats * beatDuration <= duration]. *)
Lemma totalBeats_fit : tb * bd <= inject_Z duration.
Proof.
  pose proof beatDuration_pos as Hb.
  unfold totalBeats.
  pose proof (Qfloor_le (inject_Z duration / bd)) as Hf.
  apply Qmult_le_compat_r with (z := bd) in Hf; [|apply Qlt_le_weak, Hb].
  eapply Qle_trans; [exact Hf|].
  unfold Qdiv. rewrite <- Qmult_assoc, (Qmult_comm (/ bd)).
  rewrite Qmult_inv_r, Qmult_1_r; [apply Qle_refl|].
  intros E. rewrite E in Hb. discriminate.
Qed.

Lemma before_end (x : Q) : x < tb -> x * bd < inject_Z duration.
Proof.
  intros H. eapply Qlt_le_trans; [|apply totalBeats_fit].
  apply Qmult_lt_compat_r; [apply beatDuration_pos | exact H].
Qed.

Lemma beat_nonneg (x : Q) : 0 <= x -> 0 <= x * bd.
Proof.
  intros H. apply Qmult_le_0_compat; [exact H|].
  apply Qlt_le_weak, beatDuration_pos.
Qed.

Lemma in_time_before (e : Event) :
  0 <= time e -> time e < inject_Z duration -> in_time template duration e.
Proof.
  intros H0 H1. unfold in_time. repeat split; auto.
  pose proof beatDuration_pos. qlra.
Qed.

Lemma toneScript_in_time :
  emits (in_time template duration) (toneScript template duration).
Proof.
  pose proof beatDuration_pos as Hb.
  unfold toneScript. cbv zeta.
  apply emits_bind; [apply emits_for_each; intros i Hi | intros _].
  { (* kick *)
    apply for_indices_spec in Hi.
    destruct (i mod 2 =? 0)%nat; auto with schedule.
    apply emits_trigger, in_time_before; cbn [time].
    - apply beat_nonneg, num_nonneg.
    - apply before_end, Hi. }
  apply emits_bind; [apply emits_for_each; intros i Hi | intros _].
  { (* hi-hat *)
    apply for_indices_spec in Hi.
    apply emits_bind; auto with schedule. intros v.
    apply emits_trigger, in_time_before; cbn [time].
    - pose proof (beat_nonneg _ (num_nonneg i)). qlra.
    - assert (H2 : Js.num i / 2 < tb) by qlra.
      apply before_end in H2. qlra. }
  apply emits_bind; [apply emits_for_each; intros i Hi | intros _].
  { (* bass *)
    apply for_indices_spec in Hi.
    apply emits_trigger, in_time_before; cbn [time].
    - pose proof (beat_nonneg _ (num_nonneg i)). qlra.
    - assert (H2 : Js.num i * 4 < tb) by qlra.
      apply before_end in H2. qlra. }
  (* chord and melody *)
  apply emits_for_each; intros i Hi.
  apply for_indices_spec in Hi.
  assert (H8 : Js.num i * 8 < tb) by qlra.
  apply before_end in H8.
  pose proof (beat_nonneg _ (num_nonneg i)) as H0.
  apply emits_bind.
  - apply emits_trigger, in_time_before; cbn [time]; qlra.
  - intros _. apply emits_for_each. intros j Hj.
    apply for_indices_spec in Hj.
    apply emits_bind; auto with schedule. intros r.
    apply emits_bind; auto with schedule. intros v.
    apply emits_trigger. unfold in_time.
    pose proof (beat_nonneg _ (num_nonneg j)) as Hj0.
    assert (Hj3 : Js.num j <= 3).
    { destruct j as [|[|[|[|j]]]]; try (vm_compute; discriminate).
      exfalso. apply (num_lt (S (S (S (S j)))) 4) in Hj. lia. }
    apply Qmult_le_compat_r with (z := bd) in Hj3; [|apply Qlt_le_weak, Hb].
    repeat split; cbn [time melodyNote instrument pitch]; try qlra;
      try discriminate.
Qed.

End Bounds.

(** *** The events of one instrument *)

Lemma adds_eq {A : Type} (i : Instrument) (K K' : list Event) (m : Script A) :
  adds i K m -> K = K' -> adds i K' m.
Proof. intros H <-. exact H. Qed.

Lemma adds_ret {A : Type} (i : Instrument) (a : A) : adds i [] (ret a).
Proof. intros rnd s. simpl. now rewrite app_nil_r. Qed.

Lemma adds_random (i : Instrument) : adds i [] Math_random.
Proof. intros rnd s. simpl. now rewrite app_nil_r. Qed.

Lemma adds_trigger (i : Instrument) (e : Event) :
  adds i (if layer i e then [e] else []) (triggerAttackRelease e).
Proof. intros rnd s. simpl. rewrite filter_app. reflexivity. Qed.

Lemma adds_bind {A B : Type} (i : Instrument) (K1 K2 : list Event)
    (m : Script A) (k : A -> Script B) :
  adds i K1 m -> (forall a, adds i K2 (k a)) -> adds i (K1 ++ K2) (bind m k).
Proof.
  intros Hm Hk rnd s. unfold bind. specialize (Hm rnd s).
  destruct (m rnd s) as [a s1]. simpl in Hm.
  rewrite (Hk a rnd s1), Hm, app_assoc. reflexivity.
Qed.

Lemma adds_for_each (i : Instrument) (K : nat -> list Event) (l : list nat)
    (body : nat -> Script unit) :
  (forall x, adds i (K x) (body x)) -> adds i (flat_map K l) (for_each l body).
Proof.
  intros H. induction l as [|x l IH]; simpl.
  - apply adds_ret.
  - apply adds_bind; [apply H | intros _; exact IH].
Qed.

Lemma flat_map_nil {A B : Type} (l : list A) :
  flat_map (fun _ : A => @nil B) l = [].
Proof. induction l; simpl; auto. Qed.

Lemma flat_map_filter {A B : Type} (p : A -> bool) (f : A -> B) (l : list A) :
  flat_map (fun x => if p x then [f x] else []) l = map f (filter p l).
Proof.
  induction l as [|x l IH]; simpl; [reflexivity|].
  destruct (p x); simpl; now rewrite IH.
Qed.

(** The kicks of the script are those of its first loop. *)
Lemma toneScript_kicks (template : Template) (duration : Z) :
  adds kick
    (map (kickOn (inject_Z (tempo template)))
         (filter evenBeat
            (seq 0 (Z.to_nat (totalBeats duration (inject_Z (tempo template)))))))
    (toneScript template duration).
Proof.
  unfold toneScript. cbv zeta. rewrite !for_indices_Z.
  eapply adds_eq.
  - apply adds_bind; [apply adds_for_each; intros i | intros _].
    { instantiate (1 := fun i => if evenBeat i
                                 then [kickOn (inject_Z (tempo template)) i] else []).
      unfold evenBeat. destruct (i mod 2 =? 0)%nat.
      - apply (adds_trigger kick).
      - apply adds_ret. }
    apply adds_bind; [apply adds_for_each; intros i | intros _].
    { instantiate (1 := fun _ => []).
      apply (adds_bind kick [] []); [apply adds_random | intros v].
      apply (adds_trigger kick). }
    apply adds_bind; [apply adds_for_each; intros i | intros _].
    { instantiate (1 := fun _ => []). apply (adds_trigger kick). }
    apply adds_for_each; intros i.
    instantiate (1 := fun _ => []).
    apply (adds_bind kick [] []); [apply (adds_trigger kick) | intros _].
    eapply adds_eq; [apply adds_for_each; intros j|].
    + instantiate (1 := fun _ => []).
      apply (adds_bind kick [] []); [apply adds_random | intros r].
      apply (adds_bind kick [] []); [apply adds_random | intros v].
      apply (adds_trigger kick).
    + apply flat_map_nil.
  - rewrite !flat_map_nil, !app_nil_r. apply flat_map_filter.
Qed.

Lemma evenBeat_count (n : nat) :
  List.length (filter evenBeat (seq 0 n)) = ((n + 1) / 2)%nat.
Proof.
  induction n as [|n IH]; [reflexivity|].
  rewrite seq_S, filter_app, length_app, IH.
  change (filter evenBeat [(0 + n)%nat]) with (if evenBeat n then [n] else []).
  pose proof (Nat.div_mod_eq n 2) as D0.
  pose proof (Nat.div_mod_eq (n + 1) 2) as D1.
  pose proof (Nat.div_mod_eq (S n + 1) 2) as D2.
  pose proof (Nat.mod_upper_bound n 2 ltac:(discriminate)) as B0.
  pose proof (Nat.mod_upper_bound (n + 1) 2 ltac:(discriminate)) as B1.
  pose proof (Nat.mod_upper_bound (S n + 1) 2 ltac:(discriminate)) as B2.
  destruct (evenBeat n) eqn:E; unfold evenBeat in E;
    [apply Nat.eqb_eq in E | apply Nat.eqb_neq in E]; simpl List.length; lia.
Qed.

End ScheduleFacts.

(** ** Paths and the file system *)

Section PathFacts.

Lemma path_eqb_spec (a b : Path.t) : reflect (a = b) (Path.eqb a b).
Proof.
  revert b. induction a as [|x a IH]; intros [|y b]; simpl;
    try (constructor; congruence).
  destruct (String.eqb_spec x y) as [->|Hne]; simpl.
  - destruct (IH b) as [->|Hne]; constructor; congruence.
  - constructor. congruence.
Qed.

Lemma path_eqb_refl (a : Path.t) : Path.eqb a a = true.
Proof. destruct (path_eqb_spec a a); congruence. Qed.

Lemma path_eqb_neq (a b : Path.t) : a <> b -> Path.eqb a b = false.
Proof. destruct (path_eqb_spec a b); congruence. Qed.

Lemma is_prefix_app (a b : Path.t) : Path.is_prefix a (a ++ b) = true.
Proof.
  induction a as [|x a IH]; simpl; [reflexivity|].
  rewrite String.eqb_refl. exact IH.
Qed.

Lemma is_prefix_refl (a : Path.t) : Path.is_prefix a a = true.
Proof. rewrite <- (app_nil_r a) at 2. apply is_prefix_app. Qed.

Lemma is_prefix_sibling (dir rest : Path.t) (a b : string) :
  a <> b -> Path.is_prefix (dir ++ [a]) (dir ++ b :: rest) = false.
Proof.
  intros Hne. induction dir as [|x dir IH]; simpl.
  - destruct (String.eqb_spec a b); [contradiction | reflexivity].
  - rewrite String.eqb_refl. exact IH.
Qed.

Lemma inside_child (dir : Path.t) (name : string) :
  Path.inside dir (dir ++ [name]) = true.
Proof.
  unfold Path.inside. rewrite is_prefix_app. simpl.
  rewrite path_eqb_neq; [reflexivity|].
  intros E. apply (f_equal (@List.length string)) in E.
  rewrite length_app in E. simpl in E. lia.
Qed.

Lemma child_neq (dir : Path.t) (a b : string) :
  a <> b -> dir ++ [a] <> dir ++ [b].
Proof. intros H E. apply app_inv_head in E. congruence. Qed.

Lemma child_inj (dir : Path.t) (a b : string) :
  dir ++ [a] = dir ++ [b] -> a = b.
Proof. intros E. apply app_inv_head in E. now injection E. Qed.

Lemma child_neq_self (dir : Path.t) (a : string) : dir ++ [a] <> dir.
Proof.
  intros E. apply (f_equal (@List.length string)) in E.
  rewrite length_app in E. simpl in E. lia.
Qed.

Lemma split_no_sep (l : list ascii) :
  existsb Path.is_sep l = false -> Path.split l = [l].
Proof.
  induction l as [|c l IH]; simpl; [reflexivity|].
  destruct (Path.is_sep c); simpl; [discriminate|].
  intros H. rewrite (IH H). reflexivity.
Qed.

(** Joining a proper name to a directory appends it. *)
Lemma join_name (dir : Path.t) (name : string) :
  Path.proper_name name = true -> Path.join dir name = dir ++ [name].
Proof.
  unfold Path.proper_name, Path.join. intros H.
  repeat (apply andb_prop in H; destruct H as [H ?]).
  apply negb_true_iff in H. rewrite (split_no_sep _ H). simpl.
  rewrite string_of_list_ascii_of_string. unfold Path.enter.
  repeat match goal with
         | H : negb ?b = true |- _ => apply negb_true_iff in H; rewrite H
         end.
  reflexivity.
Qed.

Lemma dirname_child (dir : Path.t) (name : string) :
  Path.dirname (dir ++ [name]) = dir.
Proof. apply removelast_last. Qed.

Lemma take_name_no_sep (l : list ascii) :
  existsb Path.is_sep (Path.take_name l) = false.
Proof.
  induction l as [|c l IH]; simpl; [reflexivity|].
  destruct (Path.is_sep c) eqn:E; simpl; [reflexivity|].
  rewrite E. exact IH.
Qed.

Lemma existsb_rev_false {A : Type} (f : A -> bool) (l : list A) :
  existsb f l = false -> existsb f (rev l) = false.
Proof.
  intros H. destruct (existsb f (rev l)) eqn:E; [|reflexivity].
  apply existsb_exists in E. destruct E as [x [Hin Hx]].
  apply in_rev in Hin.
  assert (existsb f l = true) by (apply existsb_exists; eauto).
  congruence.
Qed.

(** [basename] returns a single component. *)
Lemma basename_no_sep (p : string) :
  existsb Path.is_sep (list_ascii_of_string (Path.basename p)) = false.
Proof.
  unfold Path.basename. rewrite list_ascii_of_string_of_list_ascii.
  apply existsb_rev_false, take_name_no_sep.
Qed.

Lemma list_ascii_of_string_app (a b : string) :
  list_ascii_of_string (a ++ b)
  = list_ascii_of_string a ++ list_ascii_of_string b.
Proof. induction a as [|c a IH]; simpl; [reflexivity|]. now rewrite IH. Qed.

Lemma append_assoc_string (a b c : string) :
  ((a ++ b) ++ c = a ++ (b ++ c))%string.
Proof. induction a as [|x a IH]; simpl; [reflexivity|]. now rewrite IH. Qed.

Lemma length_append (a b : string) :
  String.length (a ++ b) = (String.length a + String.length b)%nat.
Proof. induction a as [|c a IH]; simpl; [reflexivity|]. now rewrite IH. Qed.

(** A name with an extension added is a proper name as soon as neither
    holds a separator. *)
Lemma proper_name_ext (name ext : string) :
  existsb Path.is_sep (list_ascii_of_string name) = false ->
  existsb Path.is_sep (list_ascii_of_string ext) = false ->
  (3 <= String.length ext)%nat ->
  Path.proper_name (name ++ ext) = true.
Proof.
  intros H He Hl. unfold Path.proper_name.
  rewrite list_ascii_of_string_app, existsb_app, H, He. simpl.
  assert (L : (3 <= String.length (name ++ ext))%nat).
  { rewrite length_append. lia. }
  repeat match goal with
         | |- context [String.eqb ?a ?b] =>
             destruct (String.eqb_spec a b) as [E|_];
             [rewrite E in L; simpl in L; lia|]
         end.
  reflexivity.
Qed.

Lemma proper_name_mp4 (name : string) :
  existsb Path.is_sep (list_ascii_of_string name) = false ->
  Path.proper_name (name ++ ".mp4") = true.
Proof.
  intros H. apply proper_name_ext; [exact H | reflexivity | simpl; lia].
Qed.

Lemma append_inv_head (p a b : string) : (p ++ a = p ++ b)%string -> a = b.
Proof.
  induction p as [|c p IH]; simpl; intros H; [exact H|].
  injection H as H. auto.
Qed.

Lemma append_inv_tail (a b e : string) : (a ++ e = b ++ e)%string -> a = b.
Proof.
  intros H. apply (f_equal list_ascii_of_string) in H.
  rewrite !list_ascii_of_string_app in H. apply app_inv_tail in H.
  rewrite <- (string_of_list_ascii_of_string a),
          <- (string_of_list_ascii_of_string b), H.
  reflexivity.
Qed.

End PathFacts.

(** ** Frame file names *)

Section FrameNames.

Lemma frameNumber_zero (s : string) :
  Io.frameNumber (String "0" s) = Io.frameNumber s.
Proof.
  unfold Io.frameNumber. simpl.
  destruct (NilEmpty.uint_of_string s); reflexivity.
Qed.

Lemma frameNumber_zeros (k : nat) (s : string) :
  Io.frameNumber (string_of_list_ascii (repeat "0"%char k) ++ s)
  = Io.frameNumber s.
Proof.
  induction k as [|k IH]; simpl; [reflexivity|].
  rewrite frameNumber_zero. exact IH.
Qed.

(** Padding does not change the number read back. *)
Lemma frameNumber_padStart (width n : nat) :
  Io.frameNumber (Io.padStart width n) = n.
Proof.
  unfold Io.padStart. rewrite frameNumber_zeros.
  unfold Io.frameNumber. rewrite NilEmpty.usu.
  apply DecimalNat.Unsigned.of_to.
Qed.

Lemma frameFile_inj (prefix : string) (a b : nat) :
  VisualGenerator.frameFile prefix a = VisualGenerator.frameFile prefix b ->
  a = b.
Proof.
  unfold VisualGenerator.frameFile. intros H.
  apply append_inv_head, append_inv_tail in H.
  apply (f_equal Io.frameNumber) in H.
  now rewrite !frameNumber_padStart in H.
Qed.

Lemma digits_no_sep (d : Decimal.uint) :
  existsb Path.is_sep (list_ascii_of_string (NilEmpty.string_of_uint d)) = false.
Proof. induction d; simpl; auto. Qed.

Lemma padStart_no_sep (width n : nat) :
  existsb Path.is_sep (list_ascii_of_string (Io.padStart width n)) = false.
Proof.
  unfold Io.padStart.
  rewrite list_ascii_of_string_app, existsb_app, digits_no_sep,
    list_ascii_of_string_of_list_ascii, orb_false_r.
  induction (width - _)%nat; simpl; auto.
Qed.

(** A frame file is an entry of the frames directory. *)
Lemma join_frameFile (dir : Path.t) (prefix : string) (n : nat) :
  existsb Path.is_sep (list_ascii_of_string prefix) = false ->
  Path.join dir (VisualGenerator.frameFile prefix n)
  = dir ++ [VisualGenerator.frameFile prefix n].
Proof.
  intros H. apply join_name. unfold VisualGenerator.frameFile.
  rewrite <- append_assoc_string.
  apply proper_name_ext; [|reflexivity|simpl; lia].
  rewrite list_ascii_of_string_app, existsb_app, H. apply padStart_no_sep.
Qed.

End FrameNames.

Section FsFacts.

Import Io.

Lemma entry_remove (p q : Path.t) (fs : Files) :
  entry p (remove q fs) = if Path.eqb q p then None else entry p fs.
Proof.
  unfold remove. induction fs as [|[r n] fs IH]; simpl.
  - destruct (Path.eqb q p); reflexivity.
  - destruct (path_eqb_spec r q) as [->|Hrq]; simpl.
    + rewrite IH. destruct (Path.eqb q p); reflexivity.
    + rewrite IH. destruct (path_eqb_spec r p) as [->|Hrp].
      * rewrite path_eqb_neq by congruence. reflexivity.
      * reflexivity.
Qed.

Lemma entry_write (p q : Path.t) (n : Node) (fs : Files) :
  entry p (write q n fs) = if Path.eqb q p then Some n else entry p fs.
Proof.
  unfold write. simpl. rewrite entry_remove.
  destruct (Path.eqb q p); reflexivity.
Qed.

Lemma entry_rm (p q : Path.t) (fs : Files) :
  entry p (filter (fun e => negb (Path.is_prefix q (fst e))) fs)
  = if Path.is_prefix q p then None else entry p fs.
Proof.
  induction fs as [|[r n] fs IH]; simpl.
  - destruct (Path.is_prefix q p); reflexivity.
  - destruct (Path.is_prefix q r) eqn:Eqr; simpl.
    + rewrite IH. destruct (path_eqb_spec r p) as [->|Hrp].
      * rewrite Eqr. reflexivity.
      * reflexivity.
    + rewrite IH. destruct (path_eqb_spec r p) as [->|Hrp].
      * rewrite Eqr. reflexivity.
      * reflexivity.
Qed.

Lemma lookup_write_same (p : Path.t) (n : Node) (fs : Files) :
  p <> [] -> lookup p (write p n fs) = Some n.
Proof.
  intros Hp. destruct p as [|x p]; [congruence|].
  unfold lookup. rewrite entry_write, path_eqb_refl. reflexivity.
Qed.

Lemma lookup_write_other (p q : Path.t) (n : Node) (fs : Files) :
  q <> p -> lookup p (write q n fs) = lookup p fs.
Proof.
  intros Hne. destruct p as [|x p]; [reflexivity|].
  unfold lookup. rewrite entry_write, path_eqb_neq by assumption. reflexivity.
Qed.

Lemma lookup_remove_same (p : Path.t) (fs : Files) :
  p <> [] -> lookup p (remove p fs) = None.
Proof.
  intros Hp. destruct p as [|x p]; [congruence|].
  unfold lookup. rewrite entry_remove, path_eqb_refl. reflexivity.
Qed.

Lemma lookup_remove_other (p q : Path.t) (fs : Files) :
  q <> p -> lookup p (remove q fs) = lookup p fs.
Proof.
  intros Hne. destruct p as [|x p]; [reflexivity|].
  unfold lookup. rewrite entry_remove, path_eqb_neq by assumption. reflexivity.
Qed.

Lemma lookup_rm_under (p q : Path.t) (fs : Files) :
  p <> [] -> Path.is_prefix q p = true ->
  lookup p (filter (fun e => negb (Path.is_prefix q (fst e))) fs) = None.
Proof.
  intros Hp Hpre. destruct p as [|x p]; [congruence|].
  unfold lookup. rewrite entry_rm, Hpre. reflexivity.
Qed.

Lemma lookup_rm_other (p q : Path.t) (fs : Files) :
  Path.is_prefix q p = false ->
  lookup p (filter (fun e => negb (Path.is_prefix q (fst e))) fs) = lookup p fs.
Proof.
  intros Hpre. destruct p as [|x p]; [reflexivity|].
  unfold lookup. rewrite entry_rm, Hpre. reflexivity.
Qed.

Lemma lookup_mkdir_other (p q : Path.t) (fs : Files) :
  q <> p -> lookup p (mkdir fs q) = lookup p fs.
Proof.
  intros Hne. unfold mkdir. destruct (exists_ q fs); [reflexivity|].
  destruct p as [|x p]; [reflexivity|].
  unfold lookup. simpl. rewrite path_eqb_neq by assumption. reflexivity.
Qed.

Lemma lookup_mkdir_same (q : Path.t) (fs : Files) :
  lookup q (mkdir fs q)
  = match lookup q fs with Some n => Some n | None => Some Directory end.
Proof.
  unfold mkdir, exists_. destruct (lookup q fs) eqn:E; [exact E|].
  destruct q as [|x q]; [discriminate|].
  unfold lookup. simpl. rewrite String.eqb_refl, path_eqb_refl. reflexivity.
Qed.

Lemma exists_mkdir_mono (p q : Path.t) (fs : Files) :
  exists_ p fs = true -> exists_ p (mkdir fs q) = true.
Proof.
  unfold exists_. intros H. destruct (path_eqb_spec q p) as [->|Hne].
  - rewrite lookup_mkdir_same. destruct (lookup p fs); [reflexivity|discriminate].
  - rewrite lookup_mkdir_other by assumption. exact H.
Qed.

Lemma exists_mkdir_same (q : Path.t) (fs : Files) :
  exists_ q (mkdir fs q) = true.
Proof.
  unfold exists_. rewrite lookup_mkdir_same. destruct (lookup q fs); reflexivity.
Qed.

Lemma exists_mkdirs_mono (p : Path.t) (l : list Path.t) (fs : Files) :
  exists_ p fs = true -> exists_ p (fold_left mkdir l fs) = true.
Proof.
  revert fs. induction l as [|q l IH]; intros fs H; simpl; [exact H|].
  apply IH, exists_mkdir_mono, H.
Qed.

Lemma exists_mkdirs_in (p : Path.t) (l : list Path.t) (fs : Files) :
  In p l -> exists_ p (fold_left mkdir l fs) = true.
Proof.
  revert fs. induction l as [|q l IH]; intros fs H; simpl; [destruct H|].
  destruct H as [->|H].
  - apply exists_mkdirs_mono, exists_mkdir_same.
  - apply IH, H.
Qed.

Lemma lookup_mkdirs_other (p : Path.t) (l : list Path.t) (fs : Files) :
  ~ In p l -> lookup p (fold_left mkdir l fs) = lookup p fs.
Proof.
  revert fs. induction l as [|q l IH]; intros fs H; simpl; [reflexivity|].
  rewrite IH by (intros Hin; apply H; now right).
  apply lookup_mkdir_other. intros E. apply H. now left.
Qed.

Lemma ancestors_self (p : Path.t) : p <> [] -> In p (ancestors p).
Proof.
  intros Hp. unfold ancestors. apply in_map_iff.
  exists (List.length p). split; [apply firstn_all|].
  apply in_seq. destruct p; [congruence|]. simpl. lia.
Qed.

Lemma ancestors_length (p q : Path.t) :
  In q (ancestors p) -> (List.length q <= List.length p)%nat.
Proof.
  unfold ancestors. intros H. apply in_map_iff in H.
  destruct H as [k [<- _]]. rewrite length_firstn. lia.
Qed.

Lemma exists_write_mono (p q : Path.t) (n : Node) (fs : Files) :
  exists_ p fs = true -> exists_ p (write q n fs) = true.
Proof.
  unfold exists_. intros H. destruct (path_eqb_spec q p) as [->|Hne].
  - destruct p as [|x p]; [reflexivity|].
    rewrite lookup_write_same by discriminate. reflexivity.
  - rewrite lookup_write_other by assumption. exact H.
Qed.

Lemma exists_write_same (p : Path.t) (n : Node) (fs : Files) :
  exists_ p (write p n fs) = true.
Proof.
  unfold exists_. destruct p as [|x p]; [reflexivity|].
  rewrite lookup_write_same by discriminate. reflexivity.
Qed.

End FsFacts.

(** ** Reasoning about runs *)

Section IoLogic.

Import Io.
Local Open Scope io_scope.

Lemma bind_return {A B : Type} (m : IO A) (k : A -> IO B) env w a w1 :
  m env w = (Return a, w1) -> bind m k env w = k a env w1.
Proof. intros H. unfold bind. rewrite H. reflexivity. Qed.

Lemma bind_throw {A B : Type} (m : IO A) (k : A -> IO B) env w e w1 :
  m env w = (Throw e, w1) -> bind m k env w = (Throw e, w1).
Proof. intros H. unfold bind. rewrite H. reflexivity. Qed.

Lemma bind_return_inv {A B : Type} (m : IO A) (k : A -> IO B) env w b w2 :
  bind m k env w = (Return b, w2) ->
  exists a w1, m env w = (Return a, w1) /\ k a env w1 = (Return b, w2).
Proof.
  unfold bind. destruct (m env w) as [[a|e] w1]; intros H.
  - eauto.
  - discriminate.
Qed.

(** A handler that only rethrows changes nothing. *)
Lemma try_catch_rethrow {A : Type} (m : IO A) :
  forall env w, try_catch m (fun e => throw e) env w = m env w.
Proof.
  intros env w. unfold try_catch, throw.
  destruct (m env w) as [[a|e] w1]; reflexivity.
Qed.

Lemma try_catch_throw_inv {A : Type} (m : IO A) (h : Error -> IO A) env w e w2 :
  try_catch m h env w = (Throw e, w2) ->
  exists e0 w1, m env w = (Throw e0, w1) /\ h e0 env w1 = (Throw e, w2).
Proof.
  unfold try_catch. destruct (m env w) as [[a|e0] w1]; intros H.
  - discriminate.
  - eauto.
Qed.

(** *** Invariants *)

Section Preserves.

Variable I : World -> Prop.

Lemma preserves_ret {A : Type} (a : A) : preserves I (ret a).
Proof. intros env w H. exact H. Qed.

Lemma preserves_throw {A : Type} (e : Error) : preserves I (@throw A e).
Proof. intros env w H. exact H. Qed.

Lemma preserves_bind {A B : Type} (m : IO A) (k : A -> IO B) :
  preserves I m -> (forall a, preserves I (k a)) -> preserves I (bind m k).
Proof.
  intros Hm Hk env w H. unfold bind. specialize (Hm env w H).
  destruct (m env w) as [[a|e] w1]; simpl in *.
  - apply Hk, Hm.
  - exact Hm.
Qed.

Lemma preserves_try_catch {A : Type} (m : IO A) (h : Error -> IO A) :
  preserves I m -> (forall e, preserves I (h e)) -> preserves I (try_catch m h).
Proof.
  intros Hm Hh env w H. unfold try_catch. specialize (Hm env w H).
  destruct (m env w) as [[a|e] w1]; simpl in *.
  - exact Hm.
  - apply Hh, Hm.
Qed.

Lemma preserves_for_each {X : Type} (l : list X) (body : X -> IO unit) :
  (forall x, preserves I (body x)) -> preserves I (for_each l body).
Proof.
  intros H. induction l as [|x l IH]; simpl.
  - apply preserves_ret.
  - apply preserves_bind; [apply H | intros _; exact IH].
Qed.

Lemma preserves_when (b : bool) (m : IO unit) :
  preserves I m -> preserves I (when b m).
Proof. intros H. destruct b; [exact H | apply preserves_ret]. Qed.

Lemma preserves_existsSync (p : Path.t) : preserves I (existsSync p).
Proof. intros env w H. exact H. Qed.

Lemma preserves_readdirSync (p : Path.t) : preserves I (readdirSync p).
Proof. intros env w H. exact H. Qed.

Lemma preserves_statSync (p : Path.t) : preserves I (statSync p).
Proof.
  intros env w H. unfold statSync. destruct (exists_ p (files w)); exact H.
Qed.

Lemma preserves_Date_now : preserves I Date_now.
Proof. intros env w H. exact H. Qed.

End Preserves.

(** Nothing but [mkdirSync] makes a directory. *)
Section NotDir.

Variable p : Path.t.

Lemma not_dir_nonroot (w : World) : not_dir p w -> p <> [].
Proof. intros H E. subst. apply H. reflexivity. Qed.

Lemma not_dir_write_files (q : Path.t) (n : Node) (w : World) :
  n <> Directory -> not_dir p w ->
  not_dir p {| files := write q n (files w); draws := draws w |}.
Proof.
  intros Hn H. pose proof (not_dir_nonroot w H) as Hp.
  unfold not_dir in *. simpl.
  destruct (path_eqb_spec q p) as [->|Hne].
  - rewrite lookup_write_same by assumption. congruence.
  - rewrite lookup_write_other by assumption. exact H.
Qed.

Lemma not_dir_writeFileSync (q : Path.t) (n : Node) :
  n <> Directory -> preserves (not_dir p) (writeFileSync q n).
Proof. intros Hn env w H. apply not_dir_write_files; assumption. Qed.

Lemma not_dir_unlinkSync (q : Path.t) : preserves (not_dir p) (unlinkSync q).
Proof.
  intros env w H. pose proof (not_dir_nonroot w H) as Hp.
  unfold unlinkSync. destruct (lookup q (files w)) as [[| |]|]; try exact H;
    unfold not_dir in *; simpl;
    (destruct (path_eqb_spec q p) as [->|Hne];
     [rewrite lookup_remove_same by assumption; discriminate
     |rewrite lookup_remove_other by assumption; exact H]).
Qed.

Lemma not_dir_rmSync (q : Path.t) : preserves (not_dir p) (rmSync q).
Proof.
  intros env w H. pose proof (not_dir_nonroot w H) as Hp.
  unfold not_dir in *. simpl.
  destruct (Path.is_prefix q p) eqn:E.
  - rewrite lookup_rm_under by assumption. discriminate.
  - rewrite lookup_rm_other by assumption. exact H.
Qed.

Lemma not_dir_runFfmpeg {A : Type} (job : Job) (q : Path.t)
    (on_end : IO A) (on_error : Error -> IO A) :
  preserves (not_dir p) on_end ->
  (forall e, preserves (not_dir p) (on_error e)) ->
  preserves (not_dir p) (runFfmpeg job q on_end on_error).
Proof.
  intros Hend Herr env w H. unfold runFfmpeg.
  assert (Hw : not_dir p {| files := write q Data (files w); draws := draws w |})
    by (apply not_dir_write_files; [discriminate | exact H]).
  destruct (ffmpeg env job) as [|[|]].
  - apply Hend, Hw.
  - apply Herr, Hw.
  - apply Herr, H.
Qed.

Lemma not_dir_mkdirSync (q : Path.t) :
  (List.length q < List.length p)%nat -> preserves (not_dir p) (mkdirSync q).
Proof.
  intros Hlen env w H. unfold not_dir in *. simpl.
  rewrite lookup_mkdirs_other; [exact H|].
  intros Hin. apply ancestors_length in Hin. lia.
Qed.

End NotDir.

(** What is there stays there unless it is unlinked or removed. *)
Section ExistsIn.

Variable p : Path.t.

Lemma exists_in_writeFileSync (q : Path.t) (n : Node) :
  preserves (exists_in p) (writeFileSync q n).
Proof. intros env w H. apply exists_write_mono, H. Qed.

Lemma exists_in_mkdirSync (q : Path.t) : preserves (exists_in p) (mkdirSync q).
Proof. intros env w H. apply exists_mkdirs_mono, H. Qed.

Lemma exists_in_unlinkSync (q : Path.t) :
  q <> p -> preserves (exists_in p) (unlinkSync q).
Proof.
  intros Hne env w H. unfold unlinkSync.
  destruct (lookup q (files w)) as [[| |]|]; try exact H;
    unfold exists_in, exists_ in *; simpl;
    rewrite lookup_remove_other by assumption; exact H.
Qed.

Lemma exists_in_execNode (q : Path.t) : preserves (exists_in p) (execNode q).
Proof.
  intros env w H. unfold execNode.
  destruct (node_writes env), (node_exec env); try exact H;
    exact (exists_in_writeFileSync q Data env w H).
Qed.

Lemma exists_in_rmSync (q : Path.t) :
  Path.is_prefix q p = false -> preserves (exists_in p) (rmSync q).
Proof.
  intros Hpre env w H. unfold exists_in, exists_ in *. simpl.
  rewrite lookup_rm_other by assumption. exact H.
Qed.

Lemma exists_in_runFfmpeg {A : Type} (job : Job) (q : Path.t)
    (on_end : IO A) (on_error : Error -> IO A) :
  preserves (exists_in p) on_end ->
  (forall e, preserves (exists_in p) (on_error e)) ->
  preserves (exists_in p) (runFfmpeg job q on_end on_error).
Proof.
  intros Hend Herr env w H. unfold runFfmpeg.
  assert (Hw : exists_in p {| files := write q Data (files w); draws := draws w |})
    by (apply exists_write_mono, H).
  destruct (ffmpeg env job) as [|[|]].
  - apply Hend, Hw.
  - apply Herr, Hw.
  - apply Herr, H.
Qed.

Lemma exists_in_Math_random : preserves (exists_in p) Math_random.
Proof. intros env w H. exact H. Qed.

Lemma exists_in_writeCanvas kind frameNum (q : Path.t) image :
  preserves (exists_in p) (writeCanvas kind frameNum q image).
Proof.
  intros env w H. unfold writeCanvas. destruct (canvas env kind frameNum).
  - apply exists_in_writeFileSync, H.
  - exact H.
Qed.

End ExistsIn.

(** *** [ensureDir] *)

Lemma ensureDir_run (p : Path.t) env w :
  exists w', ensureDir p env w = (Return tt, w') /\
             exists_in p w' /\ draws w' = draws w /\
             (forall q, exists_in q w -> exists_in q w') /\
             (forall q, (List.length p < List.length q)%nat ->
                        not_dir q w -> not_dir q w').
Proof.
  unfold ensureDir, bind, existsSync, when.
  destruct (exists_ p (files w)) eqn:E; simpl.
  - exists w. repeat split; auto.
  - eexists. split; [reflexivity|]. repeat split.
    + unfold exists_in. simpl. destruct p as [|x p]; [reflexivity|].
      apply exists_mkdirs_in, ancestors_self. discriminate.
    + intros q H. apply (exists_in_mkdirSync q p env w H).
    + intros q Hlen H. apply (not_dir_mkdirSync q p Hlen env w H).
Qed.

(** *** Removing the segments *)

Lemma unlinkIfExists_run (p : Path.t) env w :
  not_dir p w ->
  exists w', VideoRenderer.unlinkIfExists p env w = (Return tt, w') /\
             missing_in p w' /\
             (forall q, missing_in q w -> missing_in q w') /\
             (forall q, not_dir q w -> not_dir q w').
Proof.
  intros H. pose proof (not_dir_nonroot p w H) as Hp.
  unfold VideoRenderer.unlinkIfExists, bind, existsSync, when, exists_.
  destruct (lookup p (files w)) as [n|] eqn:E; simpl.
  - unfold unlinkSync. rewrite E.
    destruct n; [exfalso; apply H; exact E| |];
      (eexists; split; [reflexivity|]; repeat split;
       [ unfold missing_in, exists_; simpl;
         rewrite lookup_remove_same by assumption; reflexivity
       | intros q Hq; unfold missing_in, exists_ in *; simpl;
         destruct (path_eqb_spec p q) as [<-|Hne];
         [ rewrite lookup_remove_same by assumption; reflexivity
         | rewrite lookup_remove_other by assumption; exact Hq ]
       | intros q Hq; apply (not_dir_unlinkSync q p env w) in Hq;
         unfold unlinkSync in Hq; rewrite E in Hq; exact Hq ]).
  - exists w. repeat split; auto.
    unfold missing_in, exists_. rewrite E. reflexivity.
Qed.

Lemma rmIfExists_run (t : Path.t) env w :
  t <> [] ->
  exists w',
    bind (existsSync t) (fun present => when present (rmSync t)) env w
    = (Return tt, w') /\
    missing_in t w' /\ (forall q, missing_in q w -> missing_in q w').
Proof.
  intros Ht. unfold bind, existsSync, when.
  destruct (exists_ t (files w)) eqn:E; simpl.
  - eexists. split; [reflexivity|]. split.
    + unfold missing_in, exists_. simpl.
      rewrite lookup_rm_under; auto using is_prefix_refl.
    + intros q Hq. unfold missing_in, exists_ in *. simpl.
      destruct q as [|x q]; [discriminate|].
      destruct (Path.is_prefix t (x :: q)) eqn:Ep.
      * rewrite lookup_rm_under; [reflexivity | discriminate | exact Ep].
      * rewrite lookup_rm_other by assumption. exact Hq.
  - exists w. repeat split; auto.
Qed.

Lemma removeSegments_run (a b c t : Path.t) env w :
  not_dir a w -> not_dir b w -> not_dir c w -> t <> [] ->
  exists w',
    VideoRenderer.removeSegments a b c t env w = (Return tt, w') /\
    missing_in a w' /\ missing_in b w' /\ missing_in c w' /\ missing_in t w'.
Proof.
  intros Ha Hb Hc Ht. unfold VideoRenderer.removeSegments.
  destruct (unlinkIfExists_run a env w Ha) as [w1 [E1 [Ma [K1 N1]]]].
  rewrite (bind_return _ _ _ _ _ _ E1).
  destruct (unlinkIfExists_run b env w1 (N1 _ Hb)) as [w2 [E2 [Mb [K2 N2]]]].
  rewrite (bind_return _ _ _ _ _ _ E2).
  destruct (unlinkIfExists_run c env w2 (N2 _ (N1 _ Hc))) as [w3 [E3 [Mc [K3 N3]]]].
  rewrite (bind_return _ _ _ _ _ _ E3).
  destruct (rmIfExists_run t env w3 Ht) as [w4 [E4 [Mt K4]]].
  exists w4. split; [exact E4|]. repeat split; auto.
Qed.

End IoLogic.

Create HintDb preserve.
#[local] Hint Resolve preserves_ret preserves_throw preserves_existsSync
  preserves_readdirSync preserves_statSync preserves_Date_now preserves_when
  not_dir_unlinkSync not_dir_rmSync
  exists_in_writeFileSync exists_in_mkdirSync exists_in_execNode
  exists_in_Math_random exists_in_writeCanvas : preserve.

(** [preserve] splits a program along its binds and handlers and closes the
    leaves with the facts above. *)
Ltac preserve :=
  repeat first
    [ apply preserves_bind; [|intros ?]
    | apply preserves_try_catch; [|intros ?]
    | apply preserves_when
    | apply preserves_for_each; intros ?
    | apply not_dir_runFfmpeg; [|intros ?]
    | apply exists_in_runFfmpeg; [|intros ?]
    | solve [auto with preserve] ].

(** ** The scheduler and the registry: the stated properties *)

Section SchedulerClaims.

Import MusicGenerator.

Lemma late_note_spec (duration : Z) (l : list Event) :
  existsb (late_note duration) l = true ->
  exists e, In e l /\ melodyNote e = true /\ inject_Z duration < time e.
Proof.
  intros H. apply existsb_exists in H. destruct H as [e [Hin He]].
  exists e. unfold late_note in He. apply andb_prop in He. destruct He as [Hm Ht].
  repeat split; auto.
  apply Qnot_le_lt. intros Hle. apply Qle_bool_iff in Hle.
  rewrite Hle in Ht. discriminate.
Qed.

(** C1, at both ends of techno's range: with any random source,
    [schedule techno 180] holds a melody note that starts after second 180
    and [schedule techno 300] one that starts after second 300, so not every
    timestamp of the four layers is below the duration. *)
Theorem techno_melody_note_after_the_end (rnd : nat -> Q) :
  (min (duration techno) = 180 /\ max (duration techno) = 300)%Z /\
  (exists e, In e (schedule rnd techno 180) /\
             melodyNote e = true /\ inject_Z 180 < time e) /\
  (exists e, In e (schedule rnd techno 300) /\
             melodyNote e = true /\ inject_Z 300 < time e).
Proof.
  split; [split; reflexivity|].
  split; apply late_note_spec; vm_compute; reflexivity.
Qed.

(** X1: every layer but the melody notes keeps to [0, duration): for a template
    with a positive tempo and any duration, each scheduled event starts at a
    time [>= 0], each kick, hi-hat, bass and chord event before [duration],
    and each melody note before [duration] plus six beats. *)
Theorem schedule_in_time (rnd : nat -> Q) (template : Template) (duration : Z) :
  (0 < tempo template)%Z ->
  Forall (in_time template duration) (schedule rnd template duration).
Proof.
  intros H. apply emits_schedule, toneScript_in_time, H.
Qed.

Lemma schedule_in_time_witness :
  Forall (in_time electronic 10) (schedule (fun _ => 1 # 2) electronic 10).
Proof. apply (schedule_in_time (fun _ => 1 # 2) electronic 10). reflexivity. Defined.

(** *** The pulse layer of the 10-second electronic run *)

(** X2: the pulse layer of any schedule: one kick on each even-indexed beat
    below [totalBeats], in order, that is [(totalBeats + 1) / 2] kicks,
    whatever the random source. *)
Theorem pulse_layer_on_even_beats (rnd : nat -> Q) (template : Template)
    (duration : Z) :
  let tempo := inject_Z (tempo template) in
  let beats := Z.to_nat (totalBeats duration tempo) in
  pulseLayer rnd template duration
    = map (kickOn tempo) (filter evenBeat (seq 0 beats)) /\
  List.length (pulseLayer rnd template duration) = ((beats + 1) / 2)%nat.
Proof.
  intros tempo beats.
  assert (E : pulseLayer rnd template duration
              = map (kickOn tempo) (filter evenBeat (seq 0 beats))).
  { unfold pulseLayer, schedule.
    rewrite (toneScript_kicks template duration rnd). reflexivity. }
  split; [exact E|]. rewrite E, length_map. apply evenBeat_count.
Qed.

(** C4, as the code has it: with tempo 128 and 10 seconds there are
    [floor(10 / (60/128)) = 21] beats, and the kick sounds on each
    even-indexed beat 0, 2, ..., 20: that is 11 events, the half of 21
    rounded up. *)
Theorem electronic_pulse_layer (rnd : nat -> Q) :
  tempo electronic = 128%Z /\
  totalBeats 10 128 = Qfloor (10 / (60 / 128)) /\
  totalBeats 10 128 = 21%Z /\
  List.length (pulseLayer rnd electronic 10) = 11%nat /\
  Z.of_nat (List.length (pulseLayer rnd electronic 10)) = Qceiling (21 / 2) /\
  Forall2 (fun e k => time e == Js.num (2 * k) * (60 / 128) /\ (2 * k < 21)%nat)
          (pulseLayer rnd electronic 10) (seq 0 11).
Proof.
  split; [reflexivity|]. split; [reflexivity|]. split; [reflexivity|].
  split; [vm_compute; reflexivity|].
  split; [vm_compute; reflexivity|].
  unfold pulseLayer.
  set (l := filter (layer kick) (schedule rnd electronic 10)).
  vm_compute in l. subst l.
  repeat (constructor; [split; [reflexivity | simpl; lia]|]). constructor.
Qed.

(** C4 as stated fails: the count is 11, which is neither [21 / 2] nor its
    integer part 10. *)
Lemma electronic_pulse_count_not_half :
  let n := List.length (pulseLayer (fun _ => 0) electronic 10) in
  n = 11%nat /\
  ~ Js.num n == inject_Z (Qfloor (10 / (60 / 128))) / 2 /\
  n <> Z.to_nat (Qfloor (10 / (60 / 128)) / 2).
Proof. vm_compute. split; [reflexivity | split; discriminate]. Qed.

(** *** The duration draw *)

Section Draw.

Variable template : Template.

Local Notation "'lo'" := (min (duration template)).
Local Notation "'hi'" := (max (duration template)).

Hypothesis lo_hi : (0 <= lo <= hi)%Z.
Hypothesis hi_small : (hi < 2 ^ 53)%Z.






End Draw.


(** The model of binary64 against the binary64 arithmetic of the machine:
    on each pair of numbers below, among them a tie, subnormal results and
    the largest draws, the product and the sum that the machine computes
    are the ones [Double.mul] and [Double.add] give. *)
Lemma rounding_agrees_with_the_machine :
  forallb (fun ab : float * float =>
             let (a, b) := ab in
             Qeq_bool (Double.value (Prim2SF (a * b)%float))
                      (Double.mul (Double.value (Prim2SF a))
                                  (Double.value (Prim2SF b)))
             && Qeq_bool (Double.value (Prim2SF (a + b)%float))
                         (Double.add (Double.value (Prim2SF a))
                                     (Double.value (Prim2SF b))))
          [(0x1.ffffffffffffep-1, 120); (0x1.fffffffffffffp-1, 120);
           (0x1.dfffffffffffep+6, 180); (0x1.dffffffffffffp+6, 180);
           (0x1.999999999999ap-4, 120); (0x1.5555555555555p-2, 0x1.921fb54442d18p+1);
           (0x1p-1074, 0x1.8p-1); (0x1p-1074, 0x1p-1); (0x1.8p-1073, 0x1p-1);
           (0x1p-1022, 0x1.fffffffffffffp-1); (0x1.0000000000001p+0, 0x1p-53);
           (0x1.fffffffffffffp+52, 0x1p-1); (-0x1.999999999999ap-4, 0x1.8p+1)]%float
  = true.
Proof. vm_compute. reflexivity. Qed.

(** The sum [r * 120 + 180] at the largest draws, computed by the machine,
    is 300. *)
Lemma largest_draws_in_binary64 :
  Qeq_bool (Double.value (Prim2SF (0x1.ffffffffffffep-1 * (300 - 180) + 180)%float))
           300 = true /\
  Qeq_bool (Double.value (Prim2SF (0x1.fffffffffffffp-1 * (300 - 180) + 180)%float))
           300 = true.
Proof. vm_compute. split; reflexivity. Qed.



(** *** Unregistered genre names *)

(** C5, as the code has it: a genre name that is no key of the registry
    (and no name inherited from [Object.prototype]) resolves to the
    [electronic] entry in the visual lookup and in the musical lookup
    alike; the two registries hold the same keys. *)
Theorem unregistered_genre_falls_back_in_both (genre : string) :
  ~ In genre (Js.keys genreTemplates) ->
  ~ In genre Js.object_prototype ->
  VisualGenerator._getVisualStyle genre = Js.Own VisualGenerator.electronic /\
  lookupTemplate genre = Js.Own electronic /\
  Js.keys VisualGenerator.styles = Js.keys genreTemplates.
Proof.
  intros Hk Hp. unfold VisualGenerator._getVisualStyle, lookupTemplate.
  rewrite (get_undefined genreTemplates genre Hk Hp).
  rewrite (get_undefined VisualGenerator.styles genre Hk Hp).
  repeat split.
Qed.

Lemma unregistered_genre_falls_back_in_both_witness :
  VisualGenerator._getVisualStyle "jazz" = Js.Own VisualGenerator.electronic /\
  lookupTemplate "jazz" = Js.Own electronic /\
  Js.keys VisualGenerator.styles = Js.keys genreTemplates.
Proof.
  apply (unregistered_genre_falls_back_in_both "jazz").
  - simpl. intros H. repeat (destruct H as [H|H]; [discriminate|]). exact H.
  - simpl. intros H. repeat (destruct H as [H|H]; [discriminate|]). exact H.
Defined.

(** C5 as stated fails: the musical lookup of the unregistered name [jazz]
    does fall back to [electronic], and the visual lookup of the
    unregistered name [constructor] finds the inherited member, not
    [electronic]'s style. *)
Lemma fallback_is_not_asymmetric :
  (~ In "jazz"%string (Js.keys genreTemplates) /\
   lookupTemplate "jazz" = Js.Own electronic) /\
  (~ In "constructor"%string (Js.keys VisualGenerator.styles) /\
   VisualGenerator._getVisualStyle "constructor" = Js.Inherited "constructor").
Proof.
  repeat split;
    try (simpl; intros H; repeat (destruct H as [H|H]; [discriminate|]); exact H).
Qed.

End SchedulerClaims.

(** ** One request: cleanup and output location *)

Section PipelineClaims.

Import Io.
Local Open Scope io_scope.
Local Open Scope string_scope.
Local Open Scope list_scope.

(** The segment renders and the concatenation make no directory. *)
Lemma render_body_not_dir (p : Path.t) im vm om audio out a b c t :
  preserves (not_dir p)
    (VideoRenderer.renderIntro im audio a ;;
     VideoRenderer.renderMain vm audio b ;;
     VideoRenderer.renderOutro om c ;;
     VideoRenderer.concatenateVideos [a; b; c] out ;;
     VideoRenderer.removeSegments a b c t ;;
     statSync out ;;
     ret out).
Proof.
  unfold VideoRenderer.renderIntro, VideoRenderer.renderMain,
    VideoRenderer.renderOutro, VideoRenderer.concatenateVideos,
    VideoRenderer.removeSegments, VideoRenderer.unlinkIfExists.
  preserve; apply not_dir_writeFileSync; discriminate.
Qed.

(** When [renderComplete] throws, the three segment files and the
    [temp_segments] directory are gone. *)
Lemma renderComplete_cleans_up im vm om audio out env w e w' :
  let tempDir := Path.dirname out ++ ["temp_segments"] in
  not_dir (tempDir ++ ["intro.mp4"]) w ->
  not_dir (tempDir ++ ["main.mp4"]) w ->
  not_dir (tempDir ++ ["outro.mp4"]) w ->
  VideoRenderer.renderComplete im vm om audio out env w = (Throw e, w') ->
  missing_in (tempDir ++ ["intro.mp4"]) w' /\
  missing_in (tempDir ++ ["main.mp4"]) w' /\
  missing_in (tempDir ++ ["outro.mp4"]) w' /\
  missing_in tempDir w'.
Proof.
  intros tempDir Ha Hb Hc. unfold VideoRenderer.renderComplete.
  rewrite !join_name by reflexivity. fold tempDir.
  destruct (ensureDir_run tempDir env w) as [w1 [E1 [_ [_ [_ N1]]]]].
  rewrite (bind_return _ _ _ _ _ _ E1). intros H.
  apply try_catch_throw_inv in H. destruct H as [e0 [w2 [Hbody Hhandler]]].
  assert (Hlen : forall x, (List.length tempDir < List.length (tempDir ++ [x]))%nat).
  { intros x. rewrite length_app. simpl. lia. }
  assert (N2 : forall x, not_dir (tempDir ++ [x]) w -> not_dir (tempDir ++ [x]) w2).
  { intros x Hx.
    pose proof (render_body_not_dir (tempDir ++ [x]) im vm om audio out
                  (tempDir ++ ["intro.mp4"]) (tempDir ++ ["main.mp4"])
                  (tempDir ++ ["outro.mp4"]) tempDir env w1
                  (N1 _ (Hlen x) Hx)) as P.
    rewrite Hbody in P. exact P. }
  destruct (removeSegments_run (tempDir ++ ["intro.mp4"]) (tempDir ++ ["main.mp4"])
              (tempDir ++ ["outro.mp4"]) tempDir env w2
              (N2 _ Ha) (N2 _ Hb) (N2 _ Hc)) as [w3 [E3 M3]].
  { unfold tempDir. intros E. apply app_eq_nil in E. destruct E; discriminate. }
  rewrite (bind_return _ _ _ _ _ _ E3) in Hhandler.
  unfold throw in Hhandler. inversion Hhandler; subst. exact M3.
Qed.

(** A failed music stage throws, and leaves in place whatever it did not
    write itself. *)
Lemma generateMusic_fails (genre : string) (audioPath : Path.t) env w :
  node_exec env = false ->
  exists e w', MusicGenerator.generateMusic genre audioPath env w = (Throw e, w').
Proof.
  intros Hx. unfold MusicGenerator.generateMusic.
  unfold bind at 1, Math_random.
  destruct (MusicGenerator.lookupTemplate genre) as [template|name|];
    try (eexists; eexists; reflexivity).
  unfold bind at 1, writeFileSync, on_files.
  unfold try_catch, bind at 1, execNode. rewrite Hx.
  destruct (node_writes env).
  all: unfold bind at 1, existsSync; unfold bind, when, throw.
  all:
    match goal with |- context [if ?b then _ else _] => destruct b end;
    [ match goal with |- context [unlinkSync ?p ?e ?x] =>
        destruct (unlinkSync p e x) as [[u|err] w3] end;
      eexists; eexists; reflexivity
    | eexists; eexists; reflexivity ].
Qed.

Lemma generateMusic_keeps (p : Path.t) (genre : string) (dir : Path.t) :
  dir ++ ["temp_music_script.js"] <> p ->
  preserves (exists_in p) (MusicGenerator.generateMusic genre (dir ++ ["audio.wav"])).
Proof.
  intros Hne. unfold MusicGenerator.generateMusic.
  rewrite dirname_child, join_name by reflexivity.
  apply preserves_bind; [auto with preserve | intros r].
  destruct (MusicGenerator.lookupTemplate genre); auto with preserve.
  preserve; apply exists_in_unlinkSync; exact Hne.
Qed.

(** The directories of a request are all there once they have been made. *)
Lemma ensureDirs_run (l : list Path.t) env w :
  exists w',
    for_each l ensureDir env w = (Return tt, w') /\
    (forall p, In p l -> exists_in p w') /\
    (forall q, exists_in q w -> exists_in q w').
Proof.
  revert w. induction l as [|p l IH]; intros w; simpl.
  - exists w. repeat split; auto. intros p [].
  - destruct (ensureDir_run p env w) as [w1 [E1 [X1 [_ [K1 _]]]]].
    rewrite (bind_return _ _ _ _ _ _ E1).
    destruct (IH w1) as [w2 [E2 [X2 K2]]].
    exists w2. split; [exact E2|]. split.
    + intros q [<-|Hq]; auto.
    + auto.
Qed.

(** [generate] with a failing music stage: the error reaches the caller
    with the working directory and its three image directories in place. *)
Lemma generate_music_failure this genre outputName env w :
  node_exec env = false ->
  let name := MusicVideoGenerator.sanitizedName genre outputName (now env) in
  let projectDir := MusicVideoGenerator.projectDir this name in
  exists e w',
    MusicVideoGenerator.generate this genre outputName env w = (Throw e, w') /\
    exists_in projectDir w' /\ exists_in (projectDir ++ ["frames"]) w' /\
    exists_in (projectDir ++ ["intro"]) w' /\
    exists_in (projectDir ++ ["outro"]) w'.
Proof.
  intros Hx name projectDir. unfold MusicVideoGenerator.generate.
  unfold bind at 1, Date_now. fold name. fold projectDir.
  rewrite !join_name by reflexivity.
  destruct (ensureDirs_run [projectDir; projectDir ++ ["frames"];
                            projectDir ++ ["intro"]; projectDir ++ ["outro"]]
              env w) as [w4 [E4 [X4 _]]].
  rewrite (bind_return _ _ _ _ _ _ E4).
  rewrite try_catch_rethrow.
  unfold MusicVideoGenerator.pipeline.
  destruct (generateMusic_fails genre (projectDir ++ ["audio.wav"]) env w4 Hx)
    as [e [w5 E5]].
  rewrite (bind_throw _ _ _ _ _ _ E5).
  exists e, w5. split; [reflexivity|].
  assert (K5 : forall p, projectDir ++ ["temp_music_script.js"] <> p ->
                         exists_in p w4 -> exists_in p w5).
  { intros p Hne Hp.
    pose proof (generateMusic_keeps p genre projectDir Hne env w4 Hp) as P.
    rewrite E5 in P. exact P. }
  repeat split; apply K5;
    try (apply child_neq; discriminate); try apply child_neq_self;
    apply X4; simpl; auto.
Qed.

(** *** No stage removes the working directory *)

Lemma ensureDir_keeps (p dir : Path.t) : preserves (exists_in p) (ensureDir dir).
Proof. unfold ensureDir. preserve. Qed.

Lemma generateIntro_keeps (p : Path.t) this genre dir seconds :
  preserves (exists_in p) (VisualGenerator.generateIntro this genre dir seconds).
Proof.
  unfold VisualGenerator.generateIntro, VisualGenerator._generateIntroFrame.
  preserve.
Qed.

Lemma generateOutro_keeps (p : Path.t) this genre dir seconds :
  preserves (exists_in p) (VisualGenerator.generateOutro this genre dir seconds).
Proof.
  unfold VisualGenerator.generateOutro, VisualGenerator._generateOutroFrame.
  preserve.
Qed.

Lemma generateVisuals_keeps (p : Path.t) this md dir :
  preserves (exists_in p) (VisualGenerator.generateVisuals this md dir).
Proof.
  unfold VisualGenerator.generateVisuals, VisualGenerator._generateFrame.
  destruct (VisualGenerator._getVisualStyle (MusicGenerator.md_genre md));
    preserve.
Qed.

(** [renderComplete] only removes the segment files, the concat list and
    what lies under [temp_segments]. *)
Lemma renderComplete_keeps (p : Path.t) im vm om audio out :
  Path.is_prefix (Path.dirname out ++ ["temp_segments"]) p = false ->
  Path.dirname out ++ ["concat_list.txt"] <> p ->
  preserves (exists_in p) (VideoRenderer.renderComplete im vm om audio out).
Proof.
  intros Hpre Hlist.
  assert (Hseg : forall x, (Path.dirname out ++ ["temp_segments"]) ++ [x] <> p).
  { intros x E. rewrite <- E, is_prefix_app in Hpre. discriminate. }
  unfold VideoRenderer.renderComplete, VideoRenderer.renderIntro,
    VideoRenderer.renderMain, VideoRenderer.renderOutro,
    VideoRenderer.concatenateVideos, VideoRenderer.removeSegments,
    VideoRenderer.unlinkIfExists.
  rewrite !join_name by reflexivity.
  preserve;
    first [ apply ensureDir_keeps
          | apply exists_in_unlinkSync; first [apply Hseg | exact Hlist]
          | apply exists_in_rmSync; exact Hpre ].
Qed.

Lemma stages_keep (p : Path.t) vg genre (pd outputDir : Path.t) (mp4 : string) :
  pd ++ ["temp_music_script.js"] <> p ->
  Path.is_prefix (outputDir ++ ["temp_segments"]) p = false ->
  outputDir ++ ["concat_list.txt"] <> p ->
  preserves (exists_in p)
    (MusicVideoGenerator.stages vg genre (pd ++ ["frames"]) (pd ++ ["intro"])
       (pd ++ ["outro"]) (pd ++ ["audio.wav"]) (outputDir ++ [mp4])).
Proof.
  intros Hscript Hpre Hlist. unfold MusicVideoGenerator.stages.
  apply preserves_bind; [apply generateMusic_keeps, Hscript | intros mm].
  apply preserves_bind; [apply generateIntro_keeps | intros im].
  apply preserves_bind; [apply generateVisuals_keeps | intros vm].
  apply preserves_bind; [apply generateOutro_keeps | intros om].
  apply renderComplete_keeps; rewrite dirname_child; assumption.
Qed.

(** The [try] block is the five stages followed by the final cleanup. *)
Lemma pipeline_stages vg genre pd fd id od audio video env w :
  MusicVideoGenerator.pipeline vg genre pd fd id od audio video env w
  = bind (MusicVideoGenerator.stages vg genre fd id od audio video)
         (fun _ => bind (MusicVideoGenerator._cleanupTempFiles pd)
                        (fun _ => ret video)) env w.
Proof.
  unfold MusicVideoGenerator.pipeline, MusicVideoGenerator.stages, bind.
  repeat match goal with
         | |- context [match ?m env ?v with _ => _ end] =>
             lazymatch m with
             | MusicVideoGenerator._cleanupTempFiles _ => fail
             | _ => destruct (m env v) as [[?|?] ?]; try reflexivity
             end
         end.
Qed.

(** Whichever of the five stages fails, [generate] rethrows with the
    working directory and its three image directories still on disk. *)
Lemma generate_failure_keeps_working_directory this genre outputName env w e w' :
  let name := MusicVideoGenerator.sanitizedName genre outputName (now env) in
  let outputDir := MusicVideoGenerator.outputDir this in
  let pd := outputDir ++ [name] in
  let started :=
    snd (for_each [pd; pd ++ ["frames"]; pd ++ ["intro"]; pd ++ ["outro"]]
                  ensureDir env w) in
  Path.proper_name name = true ->
  name <> "temp_segments" -> name <> "concat_list.txt" ->
  MusicVideoGenerator.generate this genre outputName env w = (Throw e, w') ->
  (exists video w2,
      MusicVideoGenerator.stages VisualGenerator.constructor genre
        (pd ++ ["frames"]) (pd ++ ["intro"]) (pd ++ ["outro"])
        (pd ++ ["audio.wav"]) (MusicVideoGenerator.videoPath this name)
        env started = (Return video, w2)) \/
  (exists_in pd w' /\ exists_in (pd ++ ["frames"]) w' /\
   exists_in (pd ++ ["intro"]) w' /\ exists_in (pd ++ ["outro"]) w').
Proof.
  intros name outputDir pd started Hproper Htemp Hlist.
  unfold MusicVideoGenerator.generate.
  unfold bind at 1, Date_now. fold name.
  unfold MusicVideoGenerator.projectDir. fold outputDir.
  rewrite (join_name outputDir name Hproper). fold pd.
  rewrite !join_name by reflexivity.
  destruct (ensureDirs_run [pd; pd ++ ["frames"]; pd ++ ["intro"]; pd ++ ["outro"]]
              env w) as [w1 [E1 [X1 _]]].
  assert (Hstarted : started = w1) by exact (f_equal snd E1).
  rewrite (bind_return _ _ _ _ _ _ E1), try_catch_rethrow, pipeline_stages.
  rewrite Hstarted. clear Hstarted started.
  assert (Hvideo : MusicVideoGenerator.videoPath this name
                   = outputDir ++ [(name ++ ".mp4")%string]).
  { unfold MusicVideoGenerator.videoPath. fold outputDir.
    apply join_name, proper_name_mp4.
    unfold Path.proper_name in Hproper.
    repeat (apply andb_prop in Hproper; destruct Hproper as [Hproper _]).
    apply negb_true_iff in Hproper. exact Hproper. }
  rewrite Hvideo.
  destruct (MusicVideoGenerator.stages VisualGenerator.constructor genre
              (pd ++ ["frames"]) (pd ++ ["intro"]) (pd ++ ["outro"])
              (pd ++ ["audio.wav"]) (outputDir ++ [(name ++ ".mp4")%string])
              env w1) as [[video|e0] w2] eqn:S.
  - intros _. left. exists video, w2. reflexivity.
  - rewrite (bind_throw _ _ _ _ _ _ S). intros H. inversion H; subst. right.
    assert (K : forall p, pd ++ ["temp_music_script.js"] <> p ->
                  Path.is_prefix (outputDir ++ ["temp_segments"]) p = false ->
                  outputDir ++ ["concat_list.txt"] <> p ->
                  exists_in p w1 -> exists_in p w').
    { intros p H1 H2 H3 Hp.
      pose proof (stages_keep p VisualGenerator.constructor genre pd outputDir
                    (name ++ ".mp4")%string H1 H2 H3 env w1 Hp) as Q.
      rewrite S in Q. exact Q. }
    assert (Hlen : forall x y, outputDir ++ [x] <> pd ++ [y]).
    { intros x y E. apply (f_equal (@List.length string)) in E.
      unfold pd in E. rewrite !length_app in E. simpl in E. lia. }
    repeat split; apply K;
      try (apply X1; simpl; auto);
      try apply child_neq_self;
      try (apply child_neq; discriminate);
      try apply Hlen;
      try (apply child_neq; congruence);
      try (unfold pd; rewrite <- app_assoc; simpl);
      apply is_prefix_sibling; congruence.
Qed.

(** C2, as the code has it: when a segment render or the concatenation
    fails, [renderComplete] has removed the three segment files and the
    [temp_segments] directory before the error leaves it (given that none
    of the three paths was a directory beforehand).  [generate] itself
    removes nothing on failure: its handler rethrows in the world the failure
    left, so whichever of the five stages fails (music, intro frames, main
    frames, outro frames, render), the working directory and its [frames],
    [intro] and [outro] directories are still there when the error reaches
    the caller; a failing music stage is such a failure. *)
Theorem cleanup_on_failure this genre outputName im vm om audio out env w :
  let tempDir := Path.dirname out ++ ["temp_segments"] in
  let name := MusicVideoGenerator.sanitizedName genre outputName (now env) in
  let pd := MusicVideoGenerator.outputDir this ++ [name] in
  let started :=
    snd (for_each [pd; pd ++ ["frames"]; pd ++ ["intro"]; pd ++ ["outro"]]
                  ensureDir env w) in
  (forall e w',
      not_dir (tempDir ++ ["intro.mp4"]) w ->
      not_dir (tempDir ++ ["main.mp4"]) w ->
      not_dir (tempDir ++ ["outro.mp4"]) w ->
      VideoRenderer.renderComplete im vm om audio out env w = (Throw e, w') ->
      missing_in (tempDir ++ ["intro.mp4"]) w' /\
      missing_in (tempDir ++ ["main.mp4"]) w' /\
      missing_in (tempDir ++ ["outro.mp4"]) w' /\
      missing_in tempDir w') /\
  (forall e w',
      Path.proper_name name = true ->
      name <> "temp_segments" -> name <> "concat_list.txt" ->
      MusicVideoGenerator.generate this genre outputName env w = (Throw e, w') ->
      (exists video w2,
          MusicVideoGenerator.stages VisualGenerator.constructor genre
            (pd ++ ["frames"]) (pd ++ ["intro"]) (pd ++ ["outro"])
            (pd ++ ["audio.wav"]) (MusicVideoGenerator.videoPath this name)
            env started = (Return video, w2)) \/
      (exists_in pd w' /\ exists_in (pd ++ ["frames"]) w' /\
       exists_in (pd ++ ["intro"]) w' /\ exists_in (pd ++ ["outro"]) w')) /\
  (node_exec env = false ->
   exists e w',
     MusicVideoGenerator.generate this genre outputName env w = (Throw e, w') /\
     exists_in (MusicVideoGenerator.projectDir this name) w' /\
     exists_in (MusicVideoGenerator.projectDir this name ++ ["frames"]) w' /\
     exists_in (MusicVideoGenerator.projectDir this name ++ ["intro"]) w' /\
     exists_in (MusicVideoGenerator.projectDir this name ++ ["outro"]) w').
Proof.
  intros tempDir name pd started. split; [|split].
  - intros e w'. apply renderComplete_cleans_up.
  - intros e w'. apply generate_failure_keeps_working_directory.
  - intros Hx. apply generate_music_failure, Hx.
Qed.

Lemma cleanup_on_failure_witness :
  let out := ["srv"; "app"; "output"; "test_video.mp4"] in
  let tempDir := ["srv"; "app"; "output"; "temp_segments"] in
  let pd := ["srv"; "app"; "output"; "test_video"] in
  let w' :=
    snd (VideoRenderer.renderComplete
           (Scenario.card 90 ["intro"]) (Scenario.card 300 ["frames"])
           (Scenario.card 90 ["outro"]) ["audio.wav"] out
           Scenario.intro_render_fails Scenario.empty_disk) in
  let r :=
    MusicVideoGenerator.generate Scenario.this "electronic" (Some "test_video")
      Scenario.intro_frames_fail Scenario.empty_disk in
  (missing_in (tempDir ++ ["intro.mp4"]) w' /\
   missing_in (tempDir ++ ["main.mp4"]) w' /\
   missing_in (tempDir ++ ["outro.mp4"]) w' /\
   missing_in tempDir w') /\
  (fst r = Throw CanvasError /\
   exists_in pd (snd r) /\ exists_in (pd ++ ["frames"]) (snd r) /\
   exists_in (pd ++ ["intro"]) (snd r) /\ exists_in (pd ++ ["outro"]) (snd r)) /\
  exists e w'',
    MusicVideoGenerator.generate Scenario.this "electronic" (Some "test_video")
      Scenario.music_fails Scenario.empty_disk = (Throw e, w'') /\
    exists_in pd w''.
Proof.
  intros out tempDir pd w' r. split; [|split].
  - clear r.
    apply (proj1 (cleanup_on_failure Scenario.this "electronic" (Some "test_video")
                    (Scenario.card 90 ["intro"]) (Scenario.card 300 ["frames"])
                    (Scenario.card 90 ["outro"]) ["audio.wav"] out
                    Scenario.intro_render_fails Scenario.empty_disk)
             (FfmpegError EncodeIntro) w');
      try (vm_compute; discriminate).
    vm_compute. reflexivity.
  - pose proof (proj1 (proj2 (cleanup_on_failure Scenario.this "electronic"
                                (Some "test_video")
                                (Scenario.card 90 ["intro"])
                                (Scenario.card 300 ["frames"])
                                (Scenario.card 90 ["outro"]) ["audio.wav"] out
                                Scenario.intro_frames_fail Scenario.empty_disk))
                  CanvasError (snd r) eq_refl) as H.
    assert (N1 : "test_video"%string <> "temp_segments"%string)
      by (intros E; inversion E).
    assert (N2 : "test_video"%string <> "concat_list.txt"%string)
      by (intros E; inversion E).
    specialize (H N1 N2). clear N1 N2.
    assert (Er : r = (Throw CanvasError, snd r)) by (vm_compute; reflexivity).
    split; [exact (f_equal fst Er)|].
    destruct (H Er) as [[video [w2 S]] | X]; clear H Er.
    + exfalso. vm_compute in S. inversion S.
    + exact X.
  - clear r.
    destruct (proj2 (proj2 (cleanup_on_failure Scenario.this "electronic"
                              (Some "test_video")
                              (Scenario.card 90 ["intro"])
                              (Scenario.card 300 ["frames"])
                              (Scenario.card 90 ["outro"]) ["audio.wav"] out
                              Scenario.music_fails Scenario.empty_disk)) eq_refl)
      as [e [w'' [E [X _]]]].
    exists e, w''. split; [exact E | exact X].
Defined.

(** C2 as stated fails: with the music stage failing, [generate] throws
    and the working directory, its three image directories included, is
    still on disk. *)
Lemma working_directory_left_behind :
  let r := MusicVideoGenerator.generate Scenario.this "electronic"
             (Some "test_video") Scenario.music_fails Scenario.empty_disk in
  fst r = Throw ExecError /\
  exists_ ["srv"; "app"; "output"; "test_video"] (files (snd r)) = true /\
  exists_ ["srv"; "app"; "output"; "test_video"; "frames"] (files (snd r)) = true /\
  exists_ ["srv"; "app"; "output"; "test_video"; "intro"] (files (snd r)) = true /\
  exists_ ["srv"; "app"; "output"; "test_video"; "outro"] (files (snd r)) = true.
Proof. vm_compute. repeat split. Qed.

(** *** Where the output goes *)

Lemma pipeline_returns_videoPath vg genre pd fd id od audio video env w p w' :
  MusicVideoGenerator.pipeline vg genre pd fd id od audio video env w
    = (Return p, w') ->
  p = video.
Proof.
  unfold MusicVideoGenerator.pipeline. intros H.
  repeat (apply bind_return_inv in H; destruct H as [? [? [_ H]]]).
  unfold ret in H. congruence.
Qed.

Lemma generate_returns_videoPath this genre outputName env w p w' :
  MusicVideoGenerator.generate this genre outputName env w = (Return p, w') ->
  p = MusicVideoGenerator.videoPath this
        (MusicVideoGenerator.sanitizedName genre outputName (now env)).
Proof.
  unfold MusicVideoGenerator.generate. intros H.
  apply bind_return_inv in H. destruct H as [ts [w1 [Hts H]]].
  unfold Date_now in Hts. inversion Hts; subst.
  apply bind_return_inv in H. destruct H as [? [w2 [_ H]]].
  rewrite try_catch_rethrow in H.
  apply pipeline_returns_videoPath in H. exact H.
Qed.

(** Where the output goes for an [outputName] that is not empty: the name
    used is its basename; the final artifact is at
    [join(outputDir, basename(outputName) + ".mp4")], a file directly
    inside the output directory, and [generate] returns that path when it
    returns; the working directory is [join(outputDir, basename)], inside
    the output directory when the basename is a proper name.  With no
    [outputName], or an empty one, the name is
    [music_video_<genre>_<timestamp>]. *)
Lemma output_location this genre (outputName : string) timestamp :
  outputName <> "" ->
  let name := MusicVideoGenerator.sanitizedName genre (Some outputName) timestamp in
  let outputDir := MusicVideoGenerator.outputDir this in
  name = Path.basename outputName /\
  MusicVideoGenerator.videoPath this name
    = Path.join outputDir (Path.basename outputName ++ ".mp4") /\
  MusicVideoGenerator.videoPath this name
    = outputDir ++ [(Path.basename outputName ++ ".mp4")%string] /\
  Path.inside outputDir (MusicVideoGenerator.videoPath this name) = true /\
  (forall env w p w',
      now env = timestamp ->
      MusicVideoGenerator.generate this genre (Some outputName) env w
        = (Return p, w') ->
      p = MusicVideoGenerator.videoPath this name) /\
  (Path.proper_name (Path.basename outputName) = true ->
   MusicVideoGenerator.projectDir this name
     = outputDir ++ [Path.basename outputName] /\
   Path.inside outputDir (MusicVideoGenerator.projectDir this name) = true) /\
  MusicVideoGenerator.sanitizedName genre None timestamp
    = ("music_video_" ++ genre ++ "_"
         ++ MusicVideoGenerator.string_of_Z timestamp)%string /\
  MusicVideoGenerator.sanitizedName genre (Some "") timestamp
    = MusicVideoGenerator.sanitizedName genre None timestamp.
Proof.
  intros Hne name outputDir.
  assert (Hname : name = Path.basename outputName).
  { unfold name, MusicVideoGenerator.sanitizedName.
    destruct outputName; [congruence | reflexivity]. }
  assert (Hvideo : MusicVideoGenerator.videoPath this name
                   = outputDir ++ [(Path.basename outputName ++ ".mp4")%string]).
  { unfold MusicVideoGenerator.videoPath. rewrite Hname. fold outputDir.
    apply join_name, proper_name_mp4, basename_no_sep. }
  split; [exact Hname|].
  split; [unfold MusicVideoGenerator.videoPath; rewrite Hname; reflexivity|].
  split; [exact Hvideo|].
  split; [rewrite Hvideo; apply inside_child|].
  split.
  { intros env w p w' Hnow H. apply generate_returns_videoPath in H.
    rewrite Hnow in H. exact H. }
  split.
  { intros Hproper. unfold MusicVideoGenerator.projectDir. rewrite Hname.
    fold outputDir. rewrite (join_name _ _ Hproper).
    split; [reflexivity | apply inside_child]. }
  split; reflexivity.
Qed.

Lemma output_location_witness :
  MusicVideoGenerator.videoPath Scenario.this
    (MusicVideoGenerator.sanitizedName "pop" (Some "../../etc/my_pop_video") 0)
  = ["srv"; "app"; "output"; "my_pop_video.mp4"].
Proof.
  apply (output_location Scenario.this "pop" "../../etc/my_pop_video" 0).
  discriminate.
Defined.

(** C10: the claim holds of the final artifact and fails of the working
    directory.  [path.basename("..")] is [".."], so the name that the code
    means to be sanitised ("Sanitize outputName to prevent path traversal
    attacks") is [..] for the output names [..] and [x/..]: the working
    directory [join(outputDir, "..")] is the parent of the output directory,
    here the directory [/srv/app] the generator is installed in, and a
    request, even one whose music stage fails, makes [frames], [intro] and
    [outro] there and writes and removes [/srv/app/temp_music_script.js],
    all outside the output directory. *)
Theorem parent_component_escapes_output_dir :
  let outputDir := MusicVideoGenerator.outputDir Scenario.this in
  let name := MusicVideoGenerator.sanitizedName "electronic" (Some "..") 0 in
  let run :=
    MusicVideoGenerator.generate Scenario.this "electronic" (Some "..")
      Scenario.music_fails Scenario.empty_disk in
  outputDir = ["srv"; "app"; "output"] /\
  name = ".." /\
  MusicVideoGenerator.sanitizedName "electronic" (Some "x/..") 0 = ".." /\
  MusicVideoGenerator.projectDir Scenario.this name = ["srv"; "app"] /\
  Path.inside outputDir (MusicVideoGenerator.projectDir Scenario.this name)
  = false /\
  fst run = Throw ExecError /\
  lookup ["srv"; "app"; "frames"] (files (snd run)) = Some Directory /\
  lookup ["srv"; "app"; "intro"] (files (snd run)) = Some Directory /\
  lookup ["srv"; "app"; "outro"] (files (snd run)) = Some Directory /\
  Path.inside outputDir ["srv"; "app"; "frames"] = false /\
  lookup outputDir (files (snd run)) = None.
Proof. vm_compute. repeat split. Qed.

End PipelineClaims.

(** ** Frames: counts, fades and the main scene *)

Section VisualClaims.

Import Io.
Local Open Scope io_scope.
Local Open Scope string_scope.
Local Open Scope list_scope.

(** A loop whose every round returns and writes its own file returns, with
    all those files on disk and nothing else lost. *)
Lemma for_each_writes {X : Type} (env : Env) (path : X -> Path.t)
    (body : X -> IO unit) (l : list X) :
  (forall x w, In x l ->
     exists w', body x env w = (Return tt, w') /\ exists_in (path x) w' /\
                (forall q, exists_in q w -> exists_in q w')) ->
  forall w, exists w',
    for_each l body env w = (Return tt, w') /\
    (forall x, In x l -> exists_in (path x) w') /\
    (forall q, exists_in q w -> exists_in q w').
Proof.
  induction l as [|x l IH]; intros H w; simpl.
  - exists w. repeat split; auto. intros x [].
  - destruct (H x w (or_introl eq_refl)) as [w1 [E1 [X1 K1]]].
    rewrite (bind_return _ _ _ _ _ _ E1).
    destruct (IH (fun y v Hy => H y v (or_intror Hy)) w1) as [w2 [E2 [X2 K2]]].
    exists w2. split; [exact E2|]. split.
    + intros y [<-|Hy]; auto.
    + auto.
Qed.

Lemma writeCanvas_run kind frameNum (p : Path.t) image env w :
  canvas env kind frameNum = true ->
  writeCanvas kind frameNum p image env w
  = (Return tt, {| files := write p (Picture image) (files w); draws := draws w |}).
Proof. intros H. unfold writeCanvas. rewrite H. reflexivity. Qed.

Lemma writeCanvas_writes kind frameNum (p : Path.t) image env w :
  canvas env kind frameNum = true ->
  exists w', writeCanvas kind frameNum p image env w = (Return tt, w') /\
             exists_in p w' /\ (forall q, exists_in q w -> exists_in q w').
Proof.
  intros H. rewrite (writeCanvas_run _ _ _ _ _ _ H).
  eexists. split; [reflexivity|]. split.
  - apply exists_write_same.
  - intros q Hq. apply exists_write_mono, Hq.
Qed.

(** A loop that writes one picture per round, each to a path of its own,
    leaves every one of them on disk, takes nothing from the random source
    and touches no other path. *)
Lemma for_each_pictures (env : Env) (path : nat -> Path.t)
    (img : nat -> Canvas.Image) (body : nat -> IO unit) (l : list nat) :
  NoDup l ->
  (forall x y, path x = path y -> x = y) ->
  (forall x, path x <> []) ->
  (forall x w, In x l ->
     body x env w
     = (Return tt, {| files := write (path x) (Picture (img x)) (files w);
                      draws := draws w |})) ->
  forall w, exists w',
    for_each l body env w = (Return tt, w') /\
    draws w' = draws w /\
    (forall x, In x l -> lookup (path x) (files w') = Some (Picture (img x))) /\
    (forall q, (forall x, In x l -> path x <> q) ->
               lookup q (files w') = lookup q (files w)).
Proof.
  intros Hnd Hinj Hne. induction l as [|x l IH]; intros Hbody w; simpl.
  - exists w. repeat split; auto. intros x [].
  - inversion Hnd as [|? ? Hx Hnd']; subst.
    rewrite (bind_return _ _ _ _ _ _ (Hbody x w (or_introl eq_refl))).
    destruct (IH Hnd' (fun y v Hy => Hbody y v (or_intror Hy))
                 {| files := write (path x) (Picture (img x)) (files w);
                    draws := draws w |})
      as [w' [E [D [Pics Frame]]]].
    exists w'. split; [exact E|]. split; [exact D|]. split.
    + intros y [<-|Hy]; [|apply Pics, Hy].
      rewrite Frame.
      * apply lookup_write_same, Hne.
      * intros z Hz Ezx. apply Hinj in Ezx. subst. contradiction.
    + intros q Hq. rewrite Frame by (intros z Hz; apply Hq; now right).
      apply lookup_write_other, Hq. now left.
Qed.

(** *** Frame counts *)

Lemma totalFrames_whole (this : VisualGenerator.t) (d : Z) :
  VisualGenerator.totalFrames this (inject_Z d) = (d * VisualGenerator.fps this)%Z.
Proof.
  unfold VisualGenerator.totalFrames.
  rewrite <- inject_Z_mult. apply Qfloor_Z.
Qed.

(** With the canvas working and a genre that resolves to a style,
    [generateVisuals] returns, reports [duration * fps] frames and has written the frame of
    every index below that count. *)
Lemma generateVisuals_run (this : VisualGenerator.t) md dir env w :
  (forall k, canvas env MainFrame k = true) ->
  ~ In (MusicGenerator.md_genre md) Js.object_prototype ->
  let n := (MusicGenerator.md_duration md * VisualGenerator.fps this)%Z in
  exists w',
    VisualGenerator.generateVisuals this md dir env w
    = (Return (VisualGenerator.metadata this n dir), w') /\
    forall k, (k < Z.to_nat n)%nat ->
              exists_in (Path.join dir (VisualGenerator.frameFile "frame_" k)) w'.
Proof.
  intros Hc Hg n. unfold VisualGenerator.generateVisuals.
  rewrite totalFrames_whole. fold n.
  destruct (ensureDir_run dir env w) as [w1 [E1 _]].
  rewrite (bind_return _ _ _ _ _ _ E1).
  unfold VisualGenerator._getVisualStyle.
  destruct (get_or_else_own VisualGenerator.styles _ "electronic" Hg)
    as [style Hs]; [simpl; auto|]. rewrite Hs.
  rewrite for_indices_Z.
  edestruct (for_each_writes env
               (fun k => Path.join dir (VisualGenerator.frameFile "frame_" k)))
    as [w2 [E2 [X2 _]]];
    [| rewrite (bind_return _ _ _ _ _ _ E2); exists w2; split; [reflexivity|] ].
  - intros k v _. cbn beta zeta. unfold VisualGenerator._generateFrame.
    apply writeCanvas_writes, Hc.
  - intros k Hk. apply X2, in_seq. lia.
Qed.

Lemma generateIntro_run (this : VisualGenerator.t) genre dir (seconds : Z) env w :
  (forall k, canvas env IntroFrame k = true) ->
  let n := (seconds * VisualGenerator.fps this)%Z in
  exists w',
    VisualGenerator.generateIntro this genre dir (inject_Z seconds) env w
    = (Return (VisualGenerator.metadata this n dir), w') /\
    forall k, (k < Z.to_nat n)%nat ->
              exists_in (Path.join dir (VisualGenerator.frameFile "intro_" k)) w'.
Proof.
  intros Hc n. unfold VisualGenerator.generateIntro.
  rewrite totalFrames_whole. fold n.
  destruct (ensureDir_run dir env w) as [w1 [E1 _]].
  rewrite (bind_return _ _ _ _ _ _ E1). rewrite for_indices_Z.
  edestruct (for_each_writes env
               (fun k => Path.join dir (VisualGenerator.frameFile "intro_" k)))
    as [w2 [E2 [X2 _]]];
    [| rewrite (bind_return _ _ _ _ _ _ E2); exists w2; split; [reflexivity|] ].
  - intros k v _. cbn beta zeta. unfold VisualGenerator._generateIntroFrame.
    apply writeCanvas_writes, Hc.
  - intros k Hk. apply X2, in_seq. lia.
Qed.

Lemma generateOutro_run (this : VisualGenerator.t) genre dir (seconds : Z) env w :
  (forall k, canvas env OutroFrame k = true) ->
  let n := (seconds * VisualGenerator.fps this)%Z in
  exists w',
    VisualGenerator.generateOutro this genre dir (inject_Z seconds) env w
    = (Return (VisualGenerator.metadata this n dir), w') /\
    forall k, (k < Z.to_nat n)%nat ->
              exists_in (Path.join dir (VisualGenerator.frameFile "outro_" k)) w'.
Proof.
  intros Hc n. unfold VisualGenerator.generateOutro.
  rewrite totalFrames_whole. fold n.
  destruct (ensureDir_run dir env w) as [w1 [E1 _]].
  rewrite (bind_return _ _ _ _ _ _ E1). rewrite for_indices_Z.
  edestruct (for_each_writes env
               (fun k => Path.join dir (VisualGenerator.frameFile "outro_" k)))
    as [w2 [E2 [X2 _]]];
    [| rewrite (bind_return _ _ _ _ _ _ E2); exists w2; split; [reflexivity|] ].
  - intros k v _. cbn beta zeta. unfold VisualGenerator._generateOutroFrame.
    apply writeCanvas_writes, Hc.
  - intros k Hk. apply X2, in_seq. lia.
Qed.

End VisualClaims.

(** ** The scene of a main frame *)

Section SceneClaims.

Import Io.
Local Open Scope string_scope.
Local Open Scope list_scope.

Lemma nth_error_map_seq {A : Type} (f : nat -> A) (n i : nat) :
  (i < n)%nat -> nth_error (map f (seq 0 n)) i = Some (f i).
Proof.
  intros H. apply map_nth_error. rewrite nth_error_seq.
  apply Nat.ltb_lt in H. rewrite H. reflexivity.
Qed.

Lemma drawVisualizer_length this beat intensity style :
  List.length (VisualGenerator._drawVisualizer this beat intensity style) = 64%nat.
Proof.
  unfold VisualGenerator._drawVisualizer.
  rewrite length_map, for_indices_nat. apply length_seq.
Qed.

(** The beat of frame 0 is 0 whatever the frame rate and the tempo. *)
Lemma beat_of_first_frame (fps tempo : Z) :
  Js.num 0 / inject_Z fps * (inject_Z tempo / 60) == 0.
Proof. unfold Js.num, Qdiv. simpl inject_Z. ring. Qed.

Lemma intensity_at_rest (beat : Q) :
  beat == 0 -> VisualGenerator.intensity beat = 0.5%R.
Proof.
  intros H. unfold VisualGenerator.intensity.
  rewrite (Qeq_eqR _ _ H), RMicromega.Q2R_0, Rmult_0_l, sin_0. rlra.
Qed.

(** C7: in the main frame [frameNum], with beat = (frameNum/fps)*(tempo/60)
    and intensity = sin(beat*pi)*0.5 + 0.5, bar i of the 64 bars has phase
    beat + (i/64)*4 and height (sin(phase*pi)*0.5 + 0.5) * waveAmplitude *
    intensity, and it is the rectangle drawn from that height; frame 0 has
    beat 0, intensity 0.5 and bar 0 at phase 0. *)
Theorem bar_heights (this : VisualGenerator.t) (tempo : Z) (frameNum : nat)
    (style : VisualGenerator.Style) (i : nat) :
  (i < 64)%nat ->
  let time := Js.num frameNum / inject_Z (VisualGenerator.fps this) in
  let beat := time * (inject_Z tempo / 60) in
  let intensity := (sin (Q2R beat * PI) * 0.5 + 0.5)%R in
  let phase := beat + (Js.num i / 64) * 4 in
  let height :=
    ((sin (Q2R phase * PI) * 0.5 + 0.5)
     * IZR (VisualGenerator.waveAmplitude style) * intensity)%R in
  VisualGenerator.intensity beat = intensity /\
  VisualGenerator.barPhase beat i = phase /\
  VisualGenerator.barHeight beat (VisualGenerator.intensity beat) style i = height /\
  (let barWidth := Q2R (inject_Z (VisualGenerator.width this) / 64) in
   let centerY := Q2R (inject_Z (VisualGenerator.height this) / 2) in
   let colors := VisualGenerator.colors style in
   let colorIndex :=
     Z.to_nat (Qfloor (Js.num i / 64 * Js.num (List.length colors))) in
   nth_error (VisualGenerator.frameScene this beat time style) (S i)
   = Some (Canvas.fillRect (nth_error colors colorIndex)
                           (Q2R (Js.num i) * barWidth)%R
                           (centerY - height * 2)%R
                           (barWidth - 2)%R (height * 2 * 2)%R)) /\
  (frameNum = 0%nat ->
   beat == 0 /\ VisualGenerator.intensity beat = 0.5%R /\
   (i = 0%nat -> VisualGenerator.barPhase beat i == 0)).
Proof.
  intros Hi time beat intensity phase height.
  split; [reflexivity|]. split; [reflexivity|]. split; [reflexivity|].
  split.
  - cbv zeta. unfold VisualGenerator.frameScene. cbn [nth_error].
    rewrite nth_error_app1 by (rewrite drawVisualizer_length; exact Hi).
    unfold VisualGenerator._drawVisualizer.
    rewrite for_indices_nat, (nth_error_map_seq _ 64 i Hi). reflexivity.
  - intros ->.
    assert (Hb : beat == 0) by apply beat_of_first_frame.
    split; [exact Hb|]. split; [apply intensity_at_rest, Hb|].
    intros ->. unfold VisualGenerator.barPhase. rewrite Hb.
    unfold Js.num, Qdiv. simpl inject_Z. ring.
Qed.

Lemma bar_heights_witness :
  VisualGenerator.intensity
    (Js.num 0 / inject_Z (VisualGenerator.fps VisualGenerator.constructor)
     * (inject_Z 128 / 60)) = 0.5%R.
Proof.
  apply (bar_heights VisualGenerator.constructor 128 0 VisualGenerator.electronic 0).
  - repeat constructor.
  - reflexivity.
Defined.

Lemma generateFrame_run (this : VisualGenerator.t) (frameNum : nat)
    (beat time : Q) (duration : Z) (style : VisualGenerator.Style)
    (dir : Path.t) env w :
  canvas env MainFrame frameNum = true ->
  VisualGenerator._generateFrame this frameNum beat time duration
    (Js.Own style) dir env w
  = (Return tt,
     {| files :=
          write (dir ++ [VisualGenerator.frameFile "frame_" frameNum])
                (Picture (Canvas.Scene (VisualGenerator.frameScene this beat time style)))
                (files w);
        draws := draws w |}).
Proof.
  intros H. unfold VisualGenerator._generateFrame.
  rewrite join_frameFile by reflexivity. apply writeCanvas_run, H.
Qed.

(** Every main frame of a run: [generateVisuals] returns, leaves the random
    source where it was, and the file of frame [k] holds the scene computed
    from [k], the frame rate, the tempo and the style. *)
Lemma generateVisuals_pictures (this : VisualGenerator.t)
    (md : MusicGenerator.Metadata) (style : VisualGenerator.Style)
    (dir : Path.t) env w :
  (forall k, canvas env MainFrame k = true) ->
  VisualGenerator._getVisualStyle (MusicGenerator.md_genre md) = Js.Own style ->
  let n := (MusicGenerator.md_duration md * VisualGenerator.fps this)%Z in
  exists w',
    VisualGenerator.generateVisuals this md dir env w
    = (Return (VisualGenerator.metadata this n dir), w') /\
    draws w' = draws w /\
    forall k, (k < Z.to_nat n)%nat ->
      let time := Js.num k / inject_Z (VisualGenerator.fps this) in
      let beat := time * (inject_Z (MusicGenerator.md_tempo md) / 60) in
      lookup (dir ++ [VisualGenerator.frameFile "frame_" k]) (files w')
      = Some (Picture (Canvas.Scene (VisualGenerator.frameScene this beat time style))).
Proof.
  intros Hc Hs n. unfold VisualGenerator.generateVisuals.
  rewrite totalFrames_whole. fold n. rewrite Hs, for_indices_Z.
  destruct (ensureDir_run dir env w) as [w1 [E1 [_ [D1 _]]]].
  rewrite (bind_return _ _ _ _ _ _ E1).
  match goal with
  | |- context [for_each ?l ?body] =>
      edestruct (for_each_pictures env
                   (fun k => dir ++ [VisualGenerator.frameFile "frame_" k])
                   (fun k =>
                      let time := Js.num k / inject_Z (VisualGenerator.fps this) in
                      let beat :=
                        time * (inject_Z (MusicGenerator.md_tempo md) / 60) in
                      Canvas.Scene
                        (VisualGenerator.frameScene this beat time style))
                   body l)
        as [w2 [E2 [D2 [Pics _]]]]
  end.
  - apply seq_NoDup.
  - intros x y E. apply child_inj, frameFile_inj in E. exact E.
  - intros x E. apply app_eq_nil in E. destruct E; discriminate.
  - intros k v _. cbv zeta. apply generateFrame_run, Hc.
  - rewrite (bind_return _ _ _ _ _ _ E2). exists w2.
    split; [reflexivity|]. split; [congruence|].
    intros k Hk. apply Pics, in_seq. lia.
Qed.

(** C6: the scene of a main frame is computed from the frame number, the
    frame rate, the tempo and the style alone (the duration is passed along
    and not read).  Two runs of [generateVisuals] on the same music metadata,
    whatever their random sources, clocks, collaborators and disks, both
    return, take no value from the random source, and leave in the file of
    every frame [k] the same picture: the background, the 64 bars, the
    particles and the rotating shapes of beat [(k/fps) * (tempo/60)]. *)
Theorem main_frames_are_a_function_of_their_arguments
    (this : VisualGenerator.t) (md : MusicGenerator.Metadata)
    (style : VisualGenerator.Style) (dir : Path.t)
    (env1 env2 : Env) (w1 w2 : World) :
  (forall k, canvas env1 MainFrame k = true) ->
  (forall k, canvas env2 MainFrame k = true) ->
  VisualGenerator._getVisualStyle (MusicGenerator.md_genre md) = Js.Own style ->
  let fps := VisualGenerator.fps this in
  let tempo := MusicGenerator.md_tempo md in
  let n := (MusicGenerator.md_duration md * fps)%Z in
  let picture (k : nat) :=
    let time := Js.num k / inject_Z fps in
    let beat := time * (inject_Z tempo / 60) in
    Picture
      (Canvas.Scene
         (Canvas.fillRect (Some (VisualGenerator.backgroundColor style)) 0 0
                          (IZR (VisualGenerator.width this))
                          (IZR (VisualGenerator.height this))
          :: VisualGenerator._drawVisualizer this beat
               (VisualGenerator.intensity beat) style
          ++ VisualGenerator._drawParticles this time beat style
          ++ VisualGenerator._drawGeometricPatterns this beat style)) in
  exists w1' w2',
    VisualGenerator.generateVisuals this md dir env1 w1
    = (Return (VisualGenerator.metadata this n dir), w1') /\
    VisualGenerator.generateVisuals this md dir env2 w2
    = (Return (VisualGenerator.metadata this n dir), w2') /\
    draws w1' = draws w1 /\ draws w2' = draws w2 /\
    forall k, (k < Z.to_nat n)%nat ->
      lookup (dir ++ [VisualGenerator.frameFile "frame_" k]) (files w1')
      = Some (picture k) /\
      lookup (dir ++ [VisualGenerator.frameFile "frame_" k]) (files w2')
      = Some (picture k).
Proof.
  intros H1 H2 Hs fps tempo n picture.
  destruct (generateVisuals_pictures this md style dir env1 w1 H1 Hs)
    as [w1' [E1 [D1 P1]]].
  destruct (generateVisuals_pictures this md style dir env2 w2 H2 Hs)
    as [w2' [E2 [D2 P2]]].
  exists w1', w2'. repeat split; auto.
Qed.

Lemma main_frames_are_a_function_of_their_arguments_witness :
  let md := {| MusicGenerator.md_tempo := 128; MusicGenerator.md_duration := 10;
               MusicGenerator.md_genre := "electronic";
               MusicGenerator.md_path := ["audio.wav"] |} in
  exists w1' w2',
    fst (VisualGenerator.generateVisuals VisualGenerator.constructor md
           ["frames"] Scenario.all_well Scenario.empty_disk)
    = Return (VisualGenerator.metadata VisualGenerator.constructor 300 ["frames"]) /\
    lookup ["frames"; "frame_000007.png"] (files w1')
    = lookup ["frames"; "frame_000007.png"] (files w2') /\
    lookup ["frames"; "frame_000007.png"] (files w1') <> None.
Proof.
  intros md.
  destruct (main_frames_are_a_function_of_their_arguments
              VisualGenerator.constructor md VisualGenerator.electronic
              ["frames"] Scenario.all_well Scenario.music_fails
              Scenario.empty_disk {| files := [(["stale"], Data)]; draws := 42 |}
              (fun _ => eq_refl) (fun _ => eq_refl) eq_refl)
    as [w1' [w2' [E1 [E2 [D1 [D2 P]]]]]].
  exists w1', w2'. split; [rewrite E1; reflexivity|].
  destruct (P 7%nat ltac:(vm_compute; lia)) as [P1 P2].
  change (VisualGenerator.frameFile "frame_" 7) with "frame_000007.png" in P1, P2.
  simpl app in P1, P2.
  split; [rewrite P1, P2; reflexivity | rewrite P1; discriminate].
Defined.

End SceneClaims.
(** ** The score of the generated script *)

Section Score.

Import MusicGenerator.

Lemma for_indices_seq (bound : Q) :
  Js.for_indices bound = seq 0 (List.length (Js.for_indices bound)).
Proof. unfold Js.for_indices. now rewrite length_seq. Qed.

Lemma flat_map_shift {B : Type} (f : nat -> list B) (a n : nat) :
  flat_map f (seq (S a) n) = flat_map (fun k => f (S k)) (seq a n).
Proof.
  revert a. induction n as [|n IH]; intros a; simpl; [reflexivity|].
  now rewrite IH.
Qed.

Lemma flat_map_single {A B : Type} (f : A -> B) (l : list A) :
  flat_map (fun x => [f x]) l = map f l.
Proof. induction l as [|x l IH]; simpl; [reflexivity|]. now rewrite IH. Qed.

(** A loop over [a, a + 1, ...] whose body makes [c] draws and appends
    [E rnd d i], [d] being the number of draws made before the body runs:
    round [k] finds [c * k] more draws made than the loop did. *)
Lemma for_each_seq (c : nat) (E : (nat -> Q) -> nat -> nat -> list Event)
    (body : nat -> Script unit) :
  (forall i rnd s,
      body i rnd s
      = (tt, {| draws := draws s + c;
                scheduled := scheduled s ++ E rnd (draws s) i |})) ->
  forall n a rnd s,
    for_each (seq a n) body rnd s
    = (tt, {| draws := draws s + c * n;
              scheduled :=
                scheduled s
                ++ flat_map (fun k => E rnd (draws s + c * k) (a + k))%nat
                            (seq 0 n) |}).
Proof.
  intros H. induction n as [|n IH]; intros a rnd s.
  - simpl. unfold ret. destruct s as [d l]. simpl.
    now rewrite Nat.mul_0_r, Nat.add_0_r, app_nil_r.
  - cbn [seq for_each]. unfold bind at 1. rewrite H, IH.
    cbn [draws scheduled flat_map].
    rewrite Nat.mul_0_r, !Nat.add_0_r, <- app_assoc, flat_map_shift.
    f_equal. f_equal; [lia|]. f_equal. f_equal.
    apply flat_map_ext. intros k.
    replace (draws s + c + c * k)%nat with (draws s + c * S k)%nat by lia.
    replace (S a + k)%nat with (a + S k)%nat by lia. reflexivity.
Qed.

(** The script, run from an empty transport, schedules the score and makes
    one draw for each hi-hat and eight for each round of the melody. *)
Lemma toneScript_score (rnd : nat -> Q) (template : Template) (duration : Z) :
  toneScript template duration rnd {| draws := 0; scheduled := [] |}
  = (tt, {| draws := eighths template duration + 8 * rounds template duration;
            scheduled := score rnd template duration |}).
Proof.
  unfold toneScript. cbv zeta.
  rewrite for_indices_Z.
  rewrite (for_indices_seq (_ * 2)), (for_indices_seq (_ / 4)),
    (for_indices_seq (_ / 8)).
  fold (eighths template duration) (bars template duration)
    (rounds template duration).
  unfold bind at 1.
  rewrite (for_each_seq 0
             (fun _ _ i => if evenBeat i
                           then [kickOn (inject_Z (tempo template)) i] else [])).
  2:{ intros i r s. unfold evenBeat. destruct s as [d l].
      destruct (i mod 2 =? 0)%nat; simpl;
        rewrite ?Nat.add_0_r, ?app_nil_r; reflexivity. }
  unfold bind at 1.
  rewrite (for_each_seq 1
             (fun r d i =>
                [{| instrument := hihat; pitch := Unpitched; noteLength := "16n";
                    time := Js.num i * beatDuration (inject_Z (tempo template)) / 2;
                    velocity := Some (r d * 0.3 + 0.1) |}])).
  2:{ intros i r s. destruct s as [d l]. unfold bind, Math_random. simpl.
      now rewrite Nat.add_1_r. }
  unfold bind at 1.
  rewrite (for_each_seq 0 (fun _ _ i => [bassOn template i])).
  2:{ intros i r s. destruct s as [d l]. simpl. now rewrite Nat.add_0_r. }
  rewrite (for_each_seq 8 (fun r d i => melodyRound template r d i)).
  2:{ intros i r s. destruct s as [d l]. unfold bind at 1. simpl fst. simpl snd.
      unfold triggerAttackRelease at 1. cbn iota beta.
      change (Js.for_indices 4) with (seq 0 4).
      rewrite (for_each_seq 2 (fun r d j => [melodyOn template r d i j])).
      - cbn [draws scheduled]. unfold melodyRound.
        rewrite <- app_assoc. simpl. reflexivity.
      - intros j r0 s0. destruct s0 as [d0 l0].
        unfold bind, Math_random, triggerAttackRelease, melodyOn.
        cbn [draws scheduled].
        replace (d0 + 2)%nat with (S (S d0)) by lia. reflexivity. }
  cbn [draws scheduled]. unfold score. cbv zeta.
  rewrite !Nat.mul_0_l, !Nat.mul_1_l, !Nat.add_0_r.
  f_equal. f_equal.
  change (@nil Event ++ ?l) with l. rewrite <- !app_assoc.
  rewrite flat_map_filter, !flat_map_single.
  apply f_equal2; [reflexivity|].
  apply f_equal2;
    [apply map_ext; intros k; unfold hihatOn; repeat f_equal; lia|].
  apply f_equal2; [reflexivity|].
  apply flat_map_ext; intros k; f_equal; lia.
Qed.

Lemma schedule_score (rnd : nat -> Q) (template : Template) (duration : Z) :
  schedule rnd template duration = score rnd template duration.
Proof. unfold schedule. now rewrite toneScript_score. Qed.

(** *** The number of rounds of each loop *)

Lemma Qceiling_double (z : Z) : Qceiling (inject_Z z * 2) = (2 * z)%Z.
Proof.
  change 2 with (inject_Z 2). rewrite <- inject_Z_mult, Qceiling_Z. lia.
Qed.

Lemma Qceiling_div (z : Z) (k : positive) :
  Qceiling (inject_Z z / inject_Z (Z.pos k)) = ((z + Z.pos k - 1) / Z.pos k)%Z.
Proof.
  unfold Qceiling, Qfloor, Qopp, Qdiv, Qmult, Qinv, inject_Z. simpl.
  rewrite Z.mul_1_r. Z.div_mod_to_equations. nia.
Qed.

Lemma ceiling_nat (z : Z) (k : positive) :
  Z.to_nat ((z + Z.pos k - 1) / Z.pos k)
  = ((Z.to_nat z + (Pos.to_nat k - 1)) / Pos.to_nat k)%nat.
Proof.
  apply Nat2Z.inj. rewrite Nat2Z.inj_div, Nat2Z.inj_add, Nat2Z.inj_sub by lia.
  rewrite positive_nat_Z.
  destruct (Z.le_gt_cases 0 z) as [H|H].
  - rewrite !Z2Nat.id by (try apply Z.div_pos; lia). f_equal. lia.
  - replace (Z.to_nat z) with 0%nat by lia.
    assert (Hq : ((z + Z.pos k - 1) / Z.pos k <= 0)%Z).
    { apply Z.lt_succ_r, Z.div_lt_upper_bound; lia. }
    replace (Z.to_nat ((z + Z.pos k - 1) / Z.pos k)) with 0%nat by lia.
    simpl Z.of_nat. rewrite Z.div_small; lia.
Qed.

Lemma eighths_beats (template : Template) (duration : Z) :
  eighths template duration
  = (2 * Z.to_nat (totalBeats duration (inject_Z (tempo template))))%nat.
Proof.
  unfold eighths, Js.for_indices. rewrite length_seq, Qceiling_double. lia.
Qed.

Lemma bars_beats (template : Template) (duration : Z) :
  bars template duration
  = ((Z.to_nat (totalBeats duration (inject_Z (tempo template))) + 3) / 4)%nat.
Proof.
  unfold bars, Js.for_indices. rewrite length_seq.
  change 4 with (inject_Z (Z.pos 4)). rewrite Qceiling_div.
  set (z := totalBeats duration (inject_Z (tempo template))).
  apply ceiling_nat.
Qed.

Lemma rounds_beats (template : Template) (duration : Z) :
  rounds template duration
  = ((Z.to_nat (totalBeats duration (inject_Z (tempo template))) + 7) / 8)%nat.
Proof.
  unfold rounds, Js.for_indices. rewrite length_seq.
  change 8 with (inject_Z (Z.pos 8)). rewrite Qceiling_div.
  set (z := totalBeats duration (inject_Z (tempo template))).
  apply ceiling_nat.
Qed.

Lemma filter_all {A : Type} (p : A -> bool) (l : list A) :
  Forall (fun x => p x = true) l -> filter p l = l.
Proof.
  induction 1 as [|x l Hx _ IH]; simpl; [reflexivity|]. now rewrite Hx, IH.
Qed.

Lemma filter_none {A : Type} (p : A -> bool) (l : list A) :
  Forall (fun x => p x = false) l -> filter p l = [].
Proof.
  induction 1 as [|x l Hx _ IH]; simpl; [reflexivity|]. now rewrite Hx.
Qed.

Lemma Forall_map_all {A B : Type} (P : B -> Prop) (f : A -> B) (l : list A) :
  (forall x, In x l -> P (f x)) -> Forall P (map f l).
Proof.
  intros H. apply Forall_forall. intros y Hy. apply in_map_iff in Hy.
  destruct Hy as [x [<- Hx]]. auto.
Qed.

Lemma Forall_flat_map_all {A B : Type} (P : B -> Prop) (f : A -> list B)
    (l : list A) :
  (forall x, In x l -> Forall P (f x)) -> Forall P (flat_map f l).
Proof.
  intros H. apply Forall_forall. intros y Hy. apply in_flat_map in Hy.
  destruct Hy as [x [Hx Hin]].
  specialize (H x Hx). rewrite Forall_forall in H. auto.
Qed.

Lemma filter_flat_map {A B : Type} (p : B -> bool) (f : A -> list B)
    (l : list A) :
  filter p (flat_map f l) = flat_map (fun x => filter p (f x)) l.
Proof.
  induction l as [|x l IH]; simpl; [reflexivity|].
  now rewrite filter_app, IH.
Qed.

Lemma length_flat_map_const {A B : Type} (f : A -> list B) (l : list A)
    (n : nat) :
  (forall x, List.length (f x) = n) ->
  List.length (flat_map f l) = (n * List.length l)%nat.
Proof.
  intros H. induction l as [|x l IH]; simpl; [lia|].
  rewrite length_app, H, IH. lia.
Qed.

(** X3: the schedule is the score.  The script schedules its events layer
    by layer: a kick on each even beat, a hi-hat on each eighth, a bass note
    every four beats cycling through [bassNotes], then for every eight beats
    a chord, cycling through [chords], followed by four melody notes two
    beats apart.  Hi-hat [i] takes draw [i] of the random source for its
    velocity; melody note [j] of round [i] takes draw
    [eighths + 8 * i + 2 * j] for its pitch and the next one for its
    velocity; the script makes [eighths + 8 * rounds] draws in all. *)
Theorem schedule_is_the_score (rnd : nat -> Q) (template : Template)
    (duration : Z) :
  schedule rnd template duration = score rnd template duration /\
  draws (snd (toneScript template duration rnd {| draws := 0; scheduled := [] |}))
  = (eighths template duration + 8 * rounds template duration)%nat.
Proof.
  split; [apply schedule_score|]. now rewrite toneScript_score.
Qed.

(** X4: the size of each layer, in terms of the number of beats
    [totalBeats = floor(duration / (60 / tempo))]: two hi-hats a beat, a
    bass note for every started group of four beats, a chord and four melody
    notes for every started group of eight. *)
Theorem layer_sizes (rnd : nat -> Q) (template : Template) (duration : Z) :
  let beats := Z.to_nat (totalBeats duration (inject_Z (tempo template))) in
  let events := schedule rnd template duration in
  List.length (filter (layer hihat) events) = (2 * beats)%nat /\
  List.length (filter (layer bass) events) = ((beats + 3) / 4)%nat /\
  List.length (filter (layer synth) events) = (5 * ((beats + 7) / 8))%nat /\
  List.length (filter melodyNote events) = (4 * ((beats + 7) / 8))%nat /\
  List.length events
  = ((beats + 1) / 2 + 2 * beats + (beats + 3) / 4 + 5 * ((beats + 7) / 8))%nat.
Proof.
  intros beats events. subst events. rewrite schedule_score. unfold score.
  cbv zeta. fold beats.
  rewrite !filter_app, !length_app, !length_map, !length_seq.
  rewrite (length_flat_map_const _ _ 5) by reflexivity.
  rewrite evenBeat_count, length_seq.
  pose proof (eighths_beats template duration) as E2.
  pose proof (bars_beats template duration) as E4.
  pose proof (rounds_beats template duration) as E8.
  fold beats in E2, E4, E8.
  assert (F : forall (p : Event -> bool) (b : bool) (l : list Event),
             Forall (fun e => p e = b) l ->
             List.length (filter p l)
             = if b then List.length l else 0%nat).
  { intros p [|] l H; [now rewrite filter_all | now rewrite filter_none]. }
  repeat split.
  - rewrite (F _ false), (F _ true), (F _ false), (F _ false);
      try (apply Forall_map_all; intros; reflexivity);
      try (apply Forall_flat_map_all; intros;
           repeat constructor).
    rewrite length_map, length_seq. lia.
  - rewrite (F _ false), (F _ false), (F _ true), (F _ false);
      try (apply Forall_map_all; intros; reflexivity);
      try (apply Forall_flat_map_all; intros;
           repeat constructor).
    rewrite length_map, length_seq. lia.
  - rewrite (F _ false), (F _ false), (F _ false), (F _ true);
      try (apply Forall_map_all; intros; reflexivity);
      try (apply Forall_flat_map_all; intros;
           repeat constructor).
    rewrite (length_flat_map_const _ _ 5), length_seq by reflexivity. lia.
  - rewrite (F _ false), (F _ false), (F _ false);
      try (apply Forall_map_all; intros; reflexivity).
    rewrite filter_flat_map.
    rewrite (length_flat_map_const _ _ 4), length_seq by reflexivity. lia.
  - lia.
Qed.

Section RandomSource.

Variable rnd : nat -> Q.
Hypothesis rnd_unit : forall k, 0 <= rnd k /\ rnd k < 1.

Lemma cycle_defined {A : Type} (l : list A) (i : nat) :
  l <> [] -> exists x, nth_error l (i mod List.length l) = Some x /\ In x l.
Proof.
  intros Hl.
  assert (Hlt : (i mod List.length l < List.length l)%nat).
  { apply Nat.mod_upper_bound. destruct l; [congruence | discriminate]. }
  apply nth_error_Some in Hlt.
  destruct (nth_error l (i mod List.length l)) as [x|] eqn:E; [|congruence].
  exists x. split; [reflexivity|]. eapply nth_error_In, E.
Qed.

(** [scale[Math.floor(Math.random() * scale.length)]] is an element of a
    non-empty [scale]. *)
Lemma pick_defined {A : Type} (l : list A) (d : nat) :
  l <> [] ->
  exists x, nth_error l (Z.to_nat (Qfloor (rnd d * Js.num (List.length l))))
            = Some x /\ In x l.
Proof.
  intros Hl. destruct (rnd_unit d) as [H0 H1].
  set (n := List.length l).
  assert (Hpos : (0 < n)%nat).
  { subst n. destruct l; [congruence | simpl; lia]. }
  assert (Hn : 0 < Js.num n).
  { change 0 with (Js.num 0). apply num_lt, Hpos. }
  assert (Hlt : (Z.to_nat (Qfloor (rnd d * Js.num n)) < n)%nat).
  { assert (Hx : rnd d * Js.num n < Js.num n).
    { rewrite <- (Qmult_1_l (Js.num n)) at 2.
      apply Qmult_lt_compat_r; assumption. }
    assert (Hf : (Qfloor (rnd d * Js.num n) < Z.of_nat n)%Z).
    { rewrite Zlt_Qlt. eapply Qle_lt_trans; [apply Qfloor_le | exact Hx]. }
    lia. }
  apply nth_error_Some in Hlt.
  destruct (nth_error l (Z.to_nat (Qfloor (rnd d * Js.num n)))) as [x|] eqn:E;
    [|congruence].
  exists x. split; [reflexivity|]. eapply nth_error_In, E.
Qed.

Lemma score_well_pitched (template : Template) (duration : Z) :
  scale template <> [] -> bassNotes template <> [] -> chords template <> [] ->
  Forall (well_pitched template) (score rnd template duration).
Proof.
  intros Hs Hb Hc. unfold score. cbv zeta.
  apply Forall_app; split; [|apply Forall_app; split; [|apply Forall_app; split]].
  - apply Forall_map_all. intros i _. reflexivity.
  - apply Forall_map_all. intros i _. exact I.
  - apply Forall_map_all. intros i _. unfold well_pitched, bassOn.
    cbn [instrument pitch].
    destruct (cycle_defined (bassNotes template) i Hb) as [x [-> Hx]]. exact Hx.
  - apply Forall_flat_map_all. intros i _. unfold melodyRound.
    constructor.
    + unfold well_pitched, chordOn. cbn [instrument pitch].
      destruct (cycle_defined (chords template) i Hc) as [x [-> Hx]]. exact Hx.
    + apply Forall_map_all. intros j _. unfold well_pitched, melodyOn.
      cbn [instrument pitch].
      destruct (pick_defined (scale template)
                  (eighths template duration + 8 * i + 2 * j) Hs)
        as [x [-> Hx]].
      exact Hx.
Qed.

Lemma score_well_voiced (template : Template) (duration : Z) :
  Forall well_voiced (score rnd template duration).
Proof.
  unfold score. cbv zeta.
  apply Forall_app; split; [|apply Forall_app; split; [|apply Forall_app; split]].
  - apply Forall_map_all. intros i _. exact I.
  - apply Forall_map_all. intros i _. unfold well_voiced, hihatOn.
    cbn [instrument pitch velocity].
    destruct (rnd_unit i). split; qlra.
  - apply Forall_map_all. intros i _. exact I.
  - apply Forall_flat_map_all. intros i _. unfold melodyRound.
    constructor; [exact I|].
    apply Forall_map_all. intros j _. unfold well_voiced, melodyOn.
    cbn [instrument pitch velocity].
    destruct (rnd_unit (S (eighths template duration + 8 * i + 2 * j))).
    split; qlra.
Qed.

End RandomSource.

(** X5: no event plays [undefined].  With the random source in [0, 1), as
    [Math.random()] is, and a template whose [scale], [bassNotes] and
    [chords] are not empty, every bass note is one of [bassNotes], every chord
    one of [chords] and every melody note one of [scale]. *)
Theorem every_pitch_is_defined (rnd : nat -> Q) (template : Template)
    (duration : Z) :
  (forall k, 0 <= rnd k /\ rnd k < 1) ->
  scale template <> [] -> bassNotes template <> [] -> chords template <> [] ->
  Forall (well_pitched template) (schedule rnd template duration).
Proof.
  intros Hr Hs Hb Hc. rewrite schedule_score.
  apply score_well_pitched; assumption.
Qed.

Lemma every_pitch_is_defined_witness :
  Forall (well_pitched techno) (schedule (fun _ => 1 # 2) techno 180).
Proof.
  apply (every_pitch_is_defined (fun _ => 1 # 2) techno 180);
    try discriminate.
  intros k. split; [discriminate | reflexivity].
Defined.

(** X6: the velocities.  With the random source in [0, 1), every hi-hat is
    given a velocity in [0.1, 0.4), every melody note one in [0.3, 0.6), and
    the kicks, bass notes and chords none. *)
Theorem velocities_in_range (rnd : nat -> Q) (template : Template)
    (duration : Z) :
  (forall k, 0 <= rnd k /\ rnd k < 1) ->
  Forall well_voiced (schedule rnd template duration).
Proof.
  intros Hr. rewrite schedule_score. apply score_well_voiced, Hr.
Qed.

Lemma velocities_in_range_witness :
  Forall well_voiced (schedule (fun k => Js.num k / Js.num (S k)) pop 240).
Proof.
  apply (velocities_in_range (fun k => Js.num k / Js.num (S k)) pop 240).
  intros k. unfold Js.num, Qdiv, Qmult, Qinv, Qle, Qlt, inject_Z. simpl.
  lia.
Defined.

End Score.
(** ** The WAV file written by the generated script *)

Section Wav.

Import Buffer WavWriter.
Local Open Scope writer_scope.

Lemma length_le_bytes (width : nat) (value : Z) :
  List.length (le_bytes width value) = width.
Proof. unfold le_bytes. now rewrite length_map, length_seq. Qed.

Lemma skipn_repeat_zero (n k : nat) :
  skipn n (repeat 0%Z k) = repeat 0%Z (k - n).
Proof.
  revert n. induction k as [|k IH]; intros [|n]; simpl; auto.
Qed.

Lemma set_at_filled (written bytes : list Z) (room : nat) :
  (List.length bytes <= room)%nat ->
  set_at (written ++ repeat 0%Z room) (List.length written) bytes
  = (written ++ bytes) ++ repeat 0%Z (room - List.length bytes).
Proof.
  intros H. unfold set_at.
  rewrite firstn_app, firstn_all, Nat.sub_diag, firstn_O, app_nil_r.
  rewrite skipn_app, (skipn_all2 written) by lia.
  replace (List.length written + List.length bytes - List.length written)%nat
    with (List.length bytes) by lia.
  rewrite skipn_repeat_zero, <- app_assoc. reflexivity.
Qed.

(** *** Steps *)

Lemma appends_put (op : nat -> Buffer.t -> Result Buffer.t) (bytes : list Z) :
  (forall offset buf,
      (offset + List.length bytes <= List.length buf)%nat ->
      op offset buf = Ok (set_at buf offset bytes)) ->
  appends bytes (put op (List.length bytes)).
Proof.
  intros H written room Hroom. unfold put, filled. cbn [buffer offset].
  rewrite H by (rewrite length_app, repeat_length; lia).
  rewrite set_at_filled by assumption. rewrite length_app. reflexivity.
Qed.

Lemma appends_write (s : string) :
  appends (octets s) (put (write s) (List.length (octets s))).
Proof.
  apply appends_put. intros offset buf H. unfold write.
  destruct (Nat.ltb_spec (List.length buf) offset) as [Hlt|_]; [lia|].
  rewrite firstn_all2 by lia. reflexivity.
Qed.

Lemma appends_writeIntLE (width : nat) (lo hi value : Z) :
  (lo <= value <= hi)%Z ->
  appends (le_bytes width value) (put (writeIntLE width lo hi value) width).
Proof.
  intros Hv.
  pose proof (appends_put (writeIntLE width lo hi value) (le_bytes width value))
    as Hput.
  rewrite length_le_bytes in Hput. apply Hput. clear Hput.
  intros offset buf H. unfold writeIntLE.
  destruct (Z.leb_spec lo value); [|lia].
  destruct (Z.leb_spec value hi); [|lia].
  destruct (Nat.leb_spec (offset + width) (List.length buf)); [|lia].
  reflexivity.
Qed.

Lemma clamp_range (x : Q) : -1 <= clamp x /\ clamp x <= 1.
Proof.
  unfold clamp. split; [apply Q.le_max_l|].
  apply Q.max_lub; [discriminate | apply Q.le_min_l].
Qed.

(** A clamped sample is stored as an integer between -32767 and 32767. *)
Lemma intSample_range (x : Q) :
  (-32767 <= Qfloor (clamp x * 32767) <= 32767)%Z.
Proof.
  destruct (clamp_range x) as [Hlo Hhi]. split.
  - rewrite <- (Qfloor_Z (-32767)). apply Qfloor_resp_le.
    change (inject_Z (-32767)) with (-1 * 32767). qlra.
  - apply Z.le_trans with (Qfloor (inject_Z 32767));
      [apply Qfloor_resp_le | rewrite Qfloor_Z; lia].
    change (inject_Z 32767) with (1 * 32767). qlra.
Qed.

Lemma appends_sample (x : option Q) :
  appends (sampleBytes x) (put (writeInt16LE (intSample x)) 2).
Proof.
  unfold sampleBytes, writeInt16LE, intSample. destruct x as [x|].
  - cbn [option_map]. apply appends_writeIntLE.
    pose proof (intSample_range x). lia.
  - cbn [option_map]. change [0; 0]%Z with (le_bytes 2 0).
    apply appends_writeIntLE. lia.
Qed.

Lemma appends_ret : appends [] (ret tt).
Proof.
  intros written room _. unfold ret, filled.
  now rewrite app_nil_r, Nat.sub_0_r.
Qed.

Lemma appends_bind (a b : list Z) (m : Writer unit) (k : Writer unit) :
  appends a m -> appends b k -> appends (a ++ b) (m ;; k).
Proof.
  intros Hm Hk written room H. rewrite length_app in H.
  unfold bind. rewrite Hm by lia. rewrite Hk by lia.
  rewrite app_assoc, length_app. do 3 f_equal. lia.
Qed.

Lemma appends_for_each (B : nat -> list Z) (l : list nat)
    (body : nat -> Writer unit) :
  (forall i, appends (B i) (body i)) ->
  appends (flat_map B l) (for_each l body).
Proof.
  intros H. induction l as [|i l IH]; simpl.
  - apply appends_ret.
  - apply appends_bind; [apply H | exact IH].
Qed.

(** One statement done: the rest runs on the longer prefix. *)
Lemma step {A : Type} (bytes : list Z) (m : Writer unit) (rest : Writer A)
    (written : list Z) (room : nat) :
  appends bytes m -> (List.length bytes <= room)%nat ->
  bind m (fun _ => rest) (filled written room)
  = rest (filled (written ++ bytes) (room - List.length bytes)).
Proof. intros Hm H. unfold bind. now rewrite Hm. Qed.

Lemma raises_put (width : nat) (lo hi value : Z) :
  ~ (lo <= value <= hi)%Z -> raises (put (writeIntLE width lo hi value) width).
Proof.
  intros Hv c. unfold put, writeIntLE.
  destruct (Z.leb_spec lo value); [|reflexivity].
  destruct (Z.leb_spec value hi); [lia | reflexivity].
Qed.

(** *** The whole file *)

Lemma length_sampleBytes (x : option Q) : List.length (sampleBytes x) = 2%nat.
Proof. unfold sampleBytes. destruct (intSample x); reflexivity. Qed.

Lemma length_frameBytes (audioData : list (list Q)) (i : nat) :
  List.length (frameBytes audioData i) = (List.length audioData * 2)%nat.
Proof.
  unfold frameBytes.
  rewrite (length_flat_map_const _ _ 2), length_seq by (intros; apply length_sampleBytes).
  lia.
Qed.

Lemma length_body (audioData : list (list Q)) :
  List.length (flat_map (frameBytes audioData) (seq 0 (frames audioData)))
  = dataSize audioData.
Proof.
  rewrite (length_flat_map_const _ _ (List.length audioData * 2)), length_seq
    by (intros; apply length_frameBytes).
  unfold dataSize. lia.
Qed.

Lemma appends_body (audioData : list (list Q)) :
  appends (flat_map (frameBytes audioData) (seq 0 (frames audioData)))
    (for_each (seq 0 (frames audioData)) (fun i =>
       for_each (seq 0 (List.length audioData)) (fun channel =>
         put (writeInt16LE (intSample (sampleAt audioData channel i))) 2))).
Proof.
  apply appends_for_each. intros i. unfold frameBytes.
  apply appends_for_each. intros channel. apply appends_sample.
Qed.

Lemma fits_spec (audioData : list (list Q)) (sampleRate : Z) :
  fits audioData sampleRate = true <->
  (Z.of_nat (44 + dataSize audioData) - 8 <= 4294967295 /\
   Z.of_nat (List.length audioData) <= 65535 /\
   0 <= sampleRate <= 4294967295 /\
   sampleRate * (Z.of_nat (List.length audioData) * 2) <= 4294967295 /\
   Z.of_nat (List.length audioData) * 2 <= 65535)%Z.
Proof.
  unfold fits. cbv zeta. rewrite !andb_true_iff, !Z.leb_le. tauto.
Qed.

Ltac header_step :=
  erewrite step;
  [ | first [ apply appends_write | apply appends_writeIntLE ]
    | rewrite ?length_le_bytes; simpl List.length ].

Lemma createWavBuffer_fits (audioData : list (list Q)) (sampleRate : Z) :
  audioData <> [] -> fits audioData sampleRate = true ->
  createWavBuffer audioData sampleRate = Ok (wavBytes audioData sampleRate).
Proof.
  intros Hne Hfits. apply fits_spec in Hfits.
  destruct Hfits as [H1 [H2 [H3 [H4 H5]]]].
  destruct audioData as [|first rest] eqn:E; [congruence|]. rewrite <- E in *.
  assert (HD : dataSize audioData
               = (List.length first * (List.length audioData * 2))%nat)
    by (rewrite E; reflexivity).
  assert (HF : frames audioData = List.length first) by (rewrite E; reflexivity).
  unfold createWavBuffer. rewrite E at 1. cbv zeta. rewrite <- HD, <- HF.
  change {| buffer := alloc (44 + dataSize audioData); offset := 0 |}
    with (filled [] (44 + dataSize audioData)).
  pose proof (appends_body audioData) as Hbody.
  pose proof (length_body audioData) as Hlen.
  set (body := flat_map (frameBytes audioData) (seq 0 (frames audioData))) in *.
  set (loops := for_each (seq 0 (frames audioData)) _) in *.
  do 13 (header_step; [|first [lia | nia]..]).
  rewrite !length_le_bytes.
  change (List.length (octets _)) with 4%nat.
  rewrite Hbody by (rewrite Hlen; lia).
  unfold filled. cbn [buffer]. rewrite Hlen.
  replace (44 + dataSize audioData - 4 - 4 - 4 - 4 - 4 - 2 - 2 - 4 - 4 - 2 - 2
           - 4 - 4 - dataSize audioData)%nat with 0%nat by lia.
  simpl repeat. rewrite app_nil_r. unfold wavBytes, header, fields.
  cbv zeta. cbn [List.concat]. rewrite <- !app_assoc. rewrite HD.
  replace (Z.of_nat (List.length audioData * 2))
    with (Z.of_nat (List.length audioData) * 2)%Z by lia.
  reflexivity.
Qed.

Lemma bind_raises {A B : Type} (m : Writer A) (k : A -> Writer B) (c : Cursor) :
  raises m -> bind m k c = Raise RangeError.
Proof. intros H. unfold bind. now rewrite H. Qed.

Lemma createWavBuffer_overflow (audioData : list (list Q)) (sampleRate : Z) :
  audioData <> [] -> fits audioData sampleRate = false ->
  createWavBuffer audioData sampleRate = Raise RangeError.
Proof.
  intros Hne Hfits.
  assert (Hnot : ~ fits audioData sampleRate = true) by congruence.
  rewrite fits_spec in Hnot. clear Hfits.
  destruct audioData as [|first rest] eqn:E; [congruence|]. rewrite <- E in *.
  assert (HD : dataSize audioData
               = (List.length first * (List.length audioData * 2))%nat)
    by (rewrite E; reflexivity).
  unfold createWavBuffer. rewrite E at 1. cbv zeta. rewrite <- HD.
  change {| buffer := alloc (44 + dataSize audioData); offset := 0 |}
    with (filled [] (44 + dataSize audioData)).
  set (loops := for_each (seq 0 (List.length first)) _).
  header_step; [|lia].
  destruct (Z.le_gt_cases (Z.of_nat (44 + dataSize audioData) - 8) 4294967295);
    [|rewrite bind_raises by (apply raises_put; lia); reflexivity].
  do 5 (header_step; [|lia..]).
  destruct (Z.le_gt_cases (Z.of_nat (List.length audioData)) 65535);
    [|rewrite bind_raises by (apply raises_put; lia); reflexivity].
  header_step; [|lia..].
  destruct (Z.le_gt_cases 0 sampleRate);
    [|rewrite bind_raises by (apply raises_put; lia); reflexivity].
  destruct (Z.le_gt_cases sampleRate 4294967295);
    [|rewrite bind_raises by (apply raises_put; lia); reflexivity].
  header_step; [|lia..].
  destruct (Z.le_gt_cases
              (sampleRate * (Z.of_nat (List.length audioData) * 2)) 4294967295);
    [|rewrite bind_raises by (apply raises_put; lia); reflexivity].
  header_step; [|lia..].
  destruct (Z.le_gt_cases (Z.of_nat (List.length audioData) * 2) 65535);
    [|rewrite bind_raises by (apply raises_put; lia); reflexivity].
  exfalso. apply Hnot. repeat split; assumption.
Qed.

Lemma length_header (audioData : list (list Q)) (sampleRate : Z) :
  List.length (header audioData sampleRate) = 44%nat.
Proof.
  unfold header, fields. cbv zeta. cbn [List.concat].
  rewrite !length_app, !length_le_bytes. reflexivity.
Qed.

Lemma length_wavBytes (audioData : list (list Q)) (sampleRate : Z) :
  List.length (wavBytes audioData sampleRate) = (44 + dataSize audioData)%nat.
Proof.
  unfold wavBytes. now rewrite length_app, length_header, length_body.
Qed.

(** The three ways [createWavBuffer] can end, and the size of what it
    returns. *)
Lemma createWavBuffer_cases (audioData : list (list Q)) (sampleRate : Z) :
  createWavBuffer audioData sampleRate
  = match audioData with
    | [] => Raise TypeError
    | _ :: _ =>
        if fits audioData sampleRate
        then Ok (wavBytes audioData sampleRate)
        else Raise RangeError
    end /\
  List.length (wavBytes audioData sampleRate)
  = (44 + List.length (hd [] audioData) * (List.length audioData * 2))%nat.
Proof.
  split; [|apply length_wavBytes].
  destruct audioData as [|first rest] eqn:E; [reflexivity|]. rewrite <- E.
  assert (Hne : audioData <> []) by (rewrite E; discriminate).
  destruct (fits audioData sampleRate) eqn:F.
  - apply createWavBuffer_fits; assumption.
  - apply createWavBuffer_overflow; assumption.
Qed.

Lemma createWavBuffer_inv (audioData : list (list Q)) (sampleRate : Z)
    (buf : Buffer.t) :
  createWavBuffer audioData sampleRate = Ok buf ->
  audioData <> [] /\ fits audioData sampleRate = true /\
  buf = wavBytes audioData sampleRate.
Proof.
  intros H. destruct (createWavBuffer_cases audioData sampleRate) as [E _].
  rewrite E in H. destruct audioData as [|first rest]; [discriminate|].
  destruct (fits (first :: rest) sampleRate); [|discriminate].
  injection H as <-. repeat split. discriminate.
Qed.

(** X7: what [createWavBuffer] returns.  Without a channel it throws a
    [TypeError] (it reads the length of the first one); when a header field
    does not fit its width (the sizes and rates in 32 bits, the channel count
    and the block size in 16) a write throws a [RangeError]; otherwise it
    returns the 44-octet header followed by the frames in order, each frame
    holding one 16-bit sample of every channel in turn, [44 + frames *
    channels * 2] octets in all, where [frames] is the length of the first
    channel. *)
Theorem createWavBuffer_result (audioData : list (list Q)) (sampleRate : Z) :
  createWavBuffer audioData sampleRate
  = match audioData with
    | [] => Raise TypeError
    | _ :: _ =>
        if fits audioData sampleRate
        then Ok (wavBytes audioData sampleRate)
        else Raise RangeError
    end /\
  List.length (wavBytes audioData sampleRate)
  = (44 + List.length (hd [] audioData) * (List.length audioData * 2))%nat.
Proof. apply createWavBuffer_cases. Qed.

(** *** Reading the file back *)

Lemma le_value_bytes (value : Z) (a width : nat) :
  le_value (map (fun k => Z.land (Z.shiftr value (8 * Z.of_nat k)) 255)
                (seq a width))
  = ((value / 256 ^ Z.of_nat a) mod 256 ^ Z.of_nat width)%Z.
Proof.
  revert a. induction width as [|width IH]; intros a.
  - simpl. now rewrite Z.mod_1_r.
  - cbn [seq map le_value]. rewrite IH.
    change 255%Z with (Z.ones 8).
    rewrite Z.land_ones, Z.shiftr_div_pow2 by lia.
    replace (2 ^ (8 * Z.of_nat a))%Z with (256 ^ Z.of_nat a)%Z
      by (change 256%Z with (2 ^ 8)%Z; rewrite <- Z.pow_mul_r by lia; reflexivity).
    replace (value / 256 ^ Z.of_nat (S a))%Z
      with (value / 256 ^ Z.of_nat a / 256)%Z.
    2:{ rewrite Nat2Z.inj_succ, Z.pow_succ_r by lia.
        rewrite Z.div_div by lia. f_equal. lia. }
    rewrite Nat2Z.inj_succ, Z.pow_succ_r by lia.
    change (2 ^ 8)%Z with 256%Z.
    rewrite Z.rem_mul_r by lia. reflexivity.
Qed.

(** An unsigned value that fits [width] octets is read back. *)
Lemma le_value_le_bytes (width : nat) (value : Z) :
  (0 <= value < 256 ^ Z.of_nat width)%Z ->
  le_value (le_bytes width value) = value.
Proof.
  intros H. unfold le_bytes. rewrite le_value_bytes.
  simpl (256 ^ Z.of_nat 0)%Z. rewrite Z.div_1_r. apply Z.mod_small, H.
Qed.

(** A 16-bit value stored in two's complement is read back with its sign. *)
Lemma int16_round_trip (value : Z) :
  (-32768 <= value <= 32767)%Z ->
  (let u := le_value (le_bytes 2 value) in
   if u <? 32768 then u else u - 65536)%Z = value.
Proof.
  intros H. cbv zeta. unfold le_bytes. rewrite le_value_bytes.
  simpl (256 ^ Z.of_nat 0)%Z. rewrite Z.div_1_r.
  change (256 ^ Z.of_nat 2)%Z with 65536%Z.
  destruct (Z.ltb_spec (value mod 65536) 32768);
    Z.div_mod_to_equations; lia.
Qed.

Lemma slice_skip (a l : list Z) (o w : nat) :
  slice (a ++ l) (List.length a + o) w = slice l o w.
Proof.
  unfold slice. rewrite length_app.
  replace (List.length a + o + w <=? List.length a + List.length l)%nat
    with (o + w <=? List.length l)%nat.
  2:{ destruct (Nat.leb_spec (o + w) (List.length l));
      destruct (Nat.leb_spec (List.length a + o + w)
                  (List.length a + List.length l)); auto; lia. }
  rewrite skipn_app, (skipn_all2 a) by lia.
  replace (List.length a + o - List.length a)%nat with o by lia. reflexivity.
Qed.

Lemma slice_app_l (a l : list Z) (o w : nat) :
  (o + w <= List.length a)%nat -> slice (a ++ l) o w = slice a o w.
Proof.
  intros H. unfold slice. rewrite length_app.
  destruct (Nat.leb_spec (o + w) (List.length a + List.length l)); [|lia].
  destruct (Nat.leb_spec (o + w) (List.length a)); [|lia].
  rewrite skipn_app, firstn_app, length_skipn.
  replace (w - (List.length a - o))%nat with 0%nat by lia.
  now rewrite firstn_O, app_nil_r.
Qed.

Lemma slice_all (a : list Z) : slice a 0 (List.length a) = Some a.
Proof.
  unfold slice. simpl. rewrite Nat.leb_refl, firstn_all. reflexivity.
Qed.

(** In a sequence of blocks of one width, block [j] starts at [j * width]. *)
Lemma slice_block {A : Type} (f : A -> list Z) (width : nat) (l : list A)
    (j : nat) (x : A) (o k : nat) :
  (forall y, List.length (f y) = width) ->
  nth_error l j = Some x -> (o + k <= width)%nat ->
  slice (flat_map f l) (j * width + o) k = slice (f x) o k.
Proof.
  intros Hw. revert j. induction l as [|y l IH]; intros [|j] Hj Hk;
    try discriminate; simpl in Hj.
  - injection Hj as ->. simpl. apply slice_app_l. rewrite Hw. exact Hk.
  - cbn [flat_map]. rewrite <- (Hw y) at 1.
    replace (S j * List.length (f y) + o)%nat
      with (List.length (f y) + (j * width + o))%nat by (rewrite Hw; lia).
    rewrite slice_skip. apply IH; assumption.
Qed.

(** Field [j] of a sequence of fields starts where the fields before it
    end. *)
Lemma slice_segment (segments : list (list Z)) (rest : list Z) (j : nat)
    (segment : list Z) (offset width : nat) :
  nth_error segments j = Some segment ->
  offset = List.length (List.concat (firstn j segments)) ->
  width = List.length segment ->
  slice (List.concat segments ++ rest) offset width = Some segment.
Proof.
  intros Hj -> ->. revert j Hj.
  induction segments as [|s segments IH]; intros [|j] Hj; try discriminate;
    simpl in Hj.
  - injection Hj as ->. cbn [firstn List.concat List.length].
    rewrite <- app_assoc, slice_app_l by lia. apply slice_all.
  - cbn [firstn List.concat]. rewrite length_app, <- app_assoc, slice_skip.
    apply IH, Hj.
Qed.

Lemma nth_error_seq (a n i : nat) :
  (i < n)%nat -> nth_error (seq a n) i = Some (a + i)%nat.
Proof.
  revert a i. induction n as [|n IH]; intros a [|i] H; simpl; try lia.
  - now rewrite Nat.add_0_r.
  - rewrite IH by lia. f_equal. lia.
Qed.

(** The two octets of sample [i] of channel [channel]. *)
Lemma sample_slice (audioData : list (list Q)) (sampleRate : Z) (i channel : nat) :
  (i < frames audioData)%nat -> (channel < List.length audioData)%nat ->
  slice (wavBytes audioData sampleRate)
        (44 + 2 * (i * List.length audioData + channel)) 2
  = Some (sampleBytes (sampleAt audioData channel i)).
Proof.
  intros Hi Hc. unfold wavBytes.
  rewrite <- (length_header audioData sampleRate) at 1. rewrite slice_skip.
  replace (2 * (i * List.length audioData + channel))%nat
    with (i * (List.length audioData * 2) + channel * 2)%nat by lia.
  rewrite (slice_block _ (List.length audioData * 2) _ i i);
    [ | apply length_frameBytes | apply (nth_error_seq 0), Hi | lia ].
  unfold frameBytes.
  replace (channel * 2)%nat with (channel * 2 + 0)%nat by lia.
  rewrite (slice_block _ 2 _ channel channel);
    [ | intros; apply length_sampleBytes | apply (nth_error_seq 0), Hc | lia ].
  pose proof (slice_all (sampleBytes (sampleAt audioData channel i))) as S.
  rewrite length_sampleBytes in S. exact S.
Qed.

Ltac read_field Hseg j :=
  rewrite (Hseg j _ _ _ eq_refl);
  [ | unfold fields; cbv zeta; cbn [firstn List.concat];
      rewrite ?length_app, ?length_le_bytes; reflexivity
    | rewrite ?length_le_bytes; reflexivity ].

(** X8: the header can be read back.  In the buffer [createWavBuffer]
    returns, the chunk tags are [RIFF], [WAVE], [fmt ] and [data]; the RIFF
    size is the length of the buffer less 8 and the data size its length less
    44; the format is PCM (1) with 16 bits a sample, and the channel count,
    the sample rate, the byte rate [sampleRate * channels * 2] and the block
    size [channels * 2] are the ones of the call. *)
Theorem wav_header_fields (audioData : list (list Q)) (sampleRate : Z)
    (buf : Buffer.t) :
  createWavBuffer audioData sampleRate = Ok buf ->
  let numChannels := Z.of_nat (List.length audioData) in
  let size := Z.of_nat (List.length buf) in
  readString buf 0 4 = Some "RIFF"%string /\
  readUIntLE 4 buf 4 = Some (size - 8)%Z /\
  readString buf 8 4 = Some "WAVE"%string /\
  readString buf 12 4 = Some "fmt "%string /\
  readUIntLE 4 buf 16 = Some 16%Z /\
  readUIntLE 2 buf 20 = Some 1%Z /\
  readUIntLE 2 buf 22 = Some numChannels /\
  readUIntLE 4 buf 24 = Some sampleRate /\
  readUIntLE 4 buf 28 = Some (sampleRate * numChannels * 2)%Z /\
  readUIntLE 2 buf 32 = Some (numChannels * 2)%Z /\
  readUIntLE 2 buf 34 = Some 16%Z /\
  readString buf 36 4 = Some "data"%string /\
  readUIntLE 4 buf 40 = Some (size - 44)%Z.
Proof.
  intros H. apply createWavBuffer_inv in H. destruct H as [_ [Hfits ->]].
  apply fits_spec in Hfits. destruct Hfits as [H1 [H2 [H3 [H4 H5]]]].
  cbv zeta. rewrite length_wavBytes.
  assert (Hseg : forall j segment offset width,
             nth_error (fields audioData sampleRate) j = Some segment ->
             offset = List.length
                        (List.concat (firstn j (fields audioData sampleRate))) ->
             width = List.length segment ->
             slice (wavBytes audioData sampleRate) offset width = Some segment).
  { intros. unfold wavBytes, header. eapply slice_segment; eassumption. }
  set (n := Z.of_nat (List.length audioData)) in *.
  set (D := dataSize audioData) in *.
  assert (Hn : (0 <= n)%Z) by (subst n; lia).
  assert (P4 : (256 ^ Z.of_nat 4 = 4294967296)%Z) by reflexivity.
  assert (P2 : (256 ^ Z.of_nat 2 = 65536)%Z) by reflexivity.
  unfold readUIntLE, readString.
  repeat split.
  - read_field Hseg 1%nat. cbn [option_map]. f_equal.
    apply (le_value_le_bytes 4). lia.
  - read_field Hseg 6%nat. cbn [option_map]. f_equal.
    apply (le_value_le_bytes 2). lia.
  - read_field Hseg 7%nat. cbn [option_map]. f_equal.
    apply (le_value_le_bytes 4). lia.
  - read_field Hseg 8%nat. cbn [option_map]. f_equal.
    replace (sampleRate * n * 2)%Z with (sampleRate * (n * 2))%Z by lia.
    apply (le_value_le_bytes 4). nia.
  - read_field Hseg 9%nat. cbn [option_map]. f_equal.
    apply (le_value_le_bytes 2). lia.
  - read_field Hseg 12%nat. cbn [option_map]. f_equal.
    replace (Z.of_nat (44 + D) - 44)%Z with (Z.of_nat D) by lia.
    apply (le_value_le_bytes 4). lia.
Qed.

Lemma wav_header_fields_witness :
  let buf := wavBytes [[1 # 2; -1; 3]; [0; -1 # 100000]] 44100 in
  readUIntLE 4 buf 4 = Some 48%Z /\ readUIntLE 2 buf 22 = Some 2%Z /\
  readUIntLE 4 buf 28 = Some 176400%Z /\ readUIntLE 4 buf 40 = Some 12%Z.
Proof.
  intros buf.
  assert (E : createWavBuffer [[1 # 2; -1; 3]; [0; -1 # 100000]] 44100 = Ok buf)
    by (vm_compute; reflexivity).
  pose proof (wav_header_fields _ _ _ E) as H. cbv zeta in H.
  repeat split; apply H.
Defined.

(** X9: the samples can be read back.  Sample [i] of channel [c] is stored
    at octet [44 + 2 * (i * channels + c)] as the 16-bit integer
    [floor(s * 32767)], [s] being the sample clamped to [-1, 1]: an integer
    between -32767 and 32767, at most [s * 32767] and less than one below it.
    Where a channel is shorter than the first one, a zero is stored. *)
Theorem samples_read_back (audioData : list (list Q)) (sampleRate : Z)
    (buf : Buffer.t) (i channel : nat) :
  createWavBuffer audioData sampleRate = Ok buf ->
  (i < List.length (hd [] audioData))%nat ->
  (channel < List.length audioData)%nat ->
  let position := (44 + 2 * (i * List.length audioData + channel))%nat in
  match sampleAt audioData channel i with
  | Some x =>
      let v := Qfloor (clamp x * 32767) in
      readInt16LE buf position = Some v /\
      (-32767 <= v <= 32767)%Z /\
      inject_Z v <= clamp x * 32767 /\ clamp x * 32767 < inject_Z v + 1
  | None => readInt16LE buf position = Some 0%Z
  end.
Proof.
  intros H Hi Hc position. apply createWavBuffer_inv in H.
  destruct H as [_ [_ ->]].
  unfold readInt16LE, readUIntLE. subst position.
  rewrite sample_slice by assumption. unfold sampleBytes, intSample.
  destruct (sampleAt audioData channel i) as [x|]; cbn [option_map].
  - pose proof (intSample_range x) as Hr. repeat split; try apply Hr.
    + f_equal. apply int16_round_trip. lia.
    + apply Qfloor_le.
    + pose proof (Qlt_floor (clamp x * 32767)) as Hlt.
      rewrite inject_Z_plus in Hlt. exact Hlt.
  - reflexivity.
Qed.

Lemma samples_read_back_witness :
  let audioData := [[1 # 2; -1; 3]; [0; -1 # 100000]] in
  let buf := wavBytes audioData 44100 in
  readInt16LE buf 48 = Some (-32767)%Z /\
  readInt16LE buf 50 = Some (-1)%Z /\
  readInt16LE buf 54 = Some 0%Z.
Proof.
  intros audioData buf.
  assert (E : createWavBuffer audioData 44100 = Ok buf)
    by (vm_compute; reflexivity).
  assert (H0 : (0 < 2)%nat) by lia.
  assert (H1 : (1 < 2)%nat) by lia.
  assert (H13 : (1 < 3)%nat) by lia.
  assert (H23 : (2 < 3)%nat) by lia.
  split; [|split].
  - exact (proj1 (samples_read_back audioData 44100 buf 1 0 E H13 H0)).
  - exact (proj1 (samples_read_back audioData 44100 buf 1 1 E H13 H1)).
  - exact (samples_read_back audioData 44100 buf 2 1 E H23 H1).
Defined.

(** X10: how long a stereo file at 44.1 kHz can be.  For two channels of
    [seconds * 44100] samples the writer returns a buffer of
    [44 + seconds * 176400] octets as long as [seconds <= 24347]; from 24348
    seconds on the RIFF size no longer fits 32 bits and the writer throws a
    [RangeError]. *)
Theorem stereo_duration_limit (left right : list Q) (seconds : Z) :
  Z.of_nat (List.length left) = (seconds * 44100)%Z ->
  Z.of_nat (List.length right) = (seconds * 44100)%Z ->
  createWavBuffer [left; right] 44100
  = (if (seconds <=? 24347)%Z
     then Ok (wavBytes [left; right] 44100)
     else Raise RangeError) /\
  Z.of_nat (List.length (wavBytes [left; right] 44100))
  = (44 + seconds * 176400)%Z.
Proof.
  intros Hl Hr.
  destruct (createWavBuffer_cases [left; right] 44100) as [E L].
  rewrite E, L. cbn [hd List.length]. split; [|lia].
  destruct (Z.leb_spec seconds 24347) as [H|H].
  - replace (fits [left; right] 44100) with true; [reflexivity|].
    symmetry. apply fits_spec. unfold dataSize, frames.
    cbn [hd List.length]. lia.
  - destruct (fits [left; right] 44100) eqn:F; [|reflexivity].
    apply fits_spec in F. unfold dataSize, frames in F.
    cbn [hd List.length] in F. lia.
Qed.

(** One second of stereo sound: 44100 frames, 176444 octets. *)
Lemma stereo_duration_limit_witness :
  let left := repeat (1 # 2) (Z.to_nat 44100) in
  let right := repeat (- (1 # 4)) (Z.to_nat 44100) in
  createWavBuffer [left; right] 44100 = Ok (wavBytes [left; right] 44100) /\
  Z.of_nat (List.length (wavBytes [left; right] 44100)) = 176444%Z.
Proof.
  intros left right.
  apply (stereo_duration_limit left right 1); vm_compute; reflexivity.
Defined.

End Wav.
(** ** What a request does to the disk *)

Section DiskFacts.

Import Io Disk.
Local Open Scope io_scope.
Local Open Scope string_scope.
Local Open Scope list_scope.

Lemma preserves_and {A : Type} (I J : World -> Prop) (m : IO A) :
  preserves I m -> preserves J m -> preserves (fun w => I w /\ J w) m.
Proof. intros HI HJ env w [H1 H2]. split; [apply HI | apply HJ]; assumption. Qed.

(** *** Paths *)

Lemma is_prefix_spec (a b : Path.t) :
  Path.is_prefix a b = true <-> exists rest, b = a ++ rest.
Proof.
  revert b. induction a as [|x a IH]; intros b; simpl.
  - split; [intros _; exists b; reflexivity | reflexivity].
  - destruct b as [|y b]; [split; [discriminate | intros [r Hr]; discriminate]|].
    rewrite andb_true_iff, IH. split.
    + intros [Hxy [rest ->]]. apply String.eqb_eq in Hxy. subst.
      exists rest. reflexivity.
    + intros [rest Hr]. injection Hr as -> ->. split;
        [apply String.eqb_refl | exists rest; reflexivity].
Qed.

Lemma is_prefix_trans (a b c : Path.t) :
  Path.is_prefix a b = true -> Path.is_prefix b c = true ->
  Path.is_prefix a c = true.
Proof.
  rewrite !is_prefix_spec. intros [r1 ->] [r2 ->].
  exists (r1 ++ r2). now rewrite app_assoc.
Qed.

(** Outside a directory is outside all it holds. *)
Lemma outside_below (dir rest p : Path.t) :
  Path.is_prefix dir p = false -> Path.is_prefix (dir ++ rest) p = false.
Proof.
  intros H. destruct (Path.is_prefix (dir ++ rest) p) eqn:E; [|reflexivity].
  rewrite <- H. symmetry.
  apply (is_prefix_trans dir (dir ++ rest) p); [apply is_prefix_app | exact E].
Qed.

Lemma outside_neq (dir rest p : Path.t) :
  Path.is_prefix dir p = false -> dir ++ rest <> p.
Proof. intros H E. subst. rewrite is_prefix_app in H. discriminate. Qed.

Lemma ancestors_prefix (p q : Path.t) :
  In p (ancestors q) -> Path.is_prefix p q = true.
Proof.
  unfold ancestors. intros H. apply in_map_iff in H. destruct H as [k [<- _]].
  apply is_prefix_spec. exists (skipn k q). symmetry. apply firstn_skipn.
Qed.

(** A prefix of a child is the child or a prefix of its parent. *)
Lemma prefix_of_child (p dir : Path.t) (name : string) :
  Path.is_prefix p (dir ++ [name]) = true ->
  p = dir ++ [name] \/ Path.is_prefix p dir = true.
Proof.
  rewrite !is_prefix_spec. intros [rest H].
  destruct rest as [|y rest0] using rev_ind.
  - left. rewrite app_nil_r in H. auto.
  - right. clear IHrest0. rename rest0 into rest', y into x. rewrite app_assoc in H. apply app_inj_tail in H. destruct H as [-> _].
    exists rest'. reflexivity.
Qed.

Lemma is_prefix_length (a b : Path.t) :
  Path.is_prefix a b = true -> (List.length a <= List.length b)%nat.
Proof.
  rewrite is_prefix_spec. intros [rest ->]. rewrite length_app. lia.
Qed.

Lemma is_prefix_antisym (a b : Path.t) :
  Path.is_prefix a b = true -> Path.is_prefix b a = true -> a = b.
Proof.
  intros Hab Hba. pose proof (is_prefix_length _ _ Hba) as L.
  apply is_prefix_spec in Hab. destruct Hab as [rest ->].
  rewrite length_app in L. destruct rest; [now rewrite app_nil_r|].
  simpl in L. lia.
Qed.

Lemma proper_frameFile (prefix : string) (n : nat) :
  existsb Path.is_sep (list_ascii_of_string prefix) = false ->
  Path.proper_name (VisualGenerator.frameFile prefix n) = true.
Proof.
  intros H. unfold VisualGenerator.frameFile. rewrite <- append_assoc_string.
  apply proper_name_ext; [|reflexivity|simpl; lia].
  rewrite list_ascii_of_string_app, existsb_app, H. apply padStart_no_sep.
Qed.

Lemma normal_app (a b : Path.t) : normal a -> normal b -> normal (a ++ b).
Proof. intros Ha Hb. apply Forall_app. split; assumption. Qed.

Lemma normal_firstn (k : nat) (p : Path.t) : normal p -> normal (firstn k p).
Proof.
  intros H. apply Forall_forall. intros s Hs.
  unfold normal in H. rewrite Forall_forall in H.
  apply H. rewrite <- (firstn_skipn k p). apply in_or_app. now left.
Qed.

(** *** Programs built from the four writes *)

Section Programs.

Variable I : World -> Prop.

Lemma preserves_for_each_in {X : Type} (l : list X) (body : X -> IO unit) :
  (forall x, In x l -> preserves I (body x)) -> preserves I (for_each l body).
Proof.
  induction l as [|x l IH]; intros H; simpl.
  - apply preserves_ret.
  - apply preserves_bind; [apply H; now left | intros _].
    apply IH. intros y Hy. apply H. now right.
Qed.

Lemma preserves_execNode (q : Path.t) :
  preserves I (writeFileSync q Data) -> preserves I (execNode q).
Proof.
  intros H env w Hw. unfold execNode.
  destruct (node_writes env), (node_exec env); try exact Hw;
    exact (H env w Hw).
Qed.

Lemma preserves_writeCanvas kind frameNum (q : Path.t) image :
  preserves I (writeFileSync q (Picture image)) ->
  preserves I (writeCanvas kind frameNum q image).
Proof.
  intros H env w Hw. unfold writeCanvas.
  destruct (canvas env kind frameNum); [|exact Hw]. apply H, Hw.
Qed.

Lemma preserves_runFfmpeg {A : Type} (job : Job) (q : Path.t)
    (on_end : IO A) (on_error : Error -> IO A) :
  preserves I (writeFileSync q Data) ->
  preserves I on_end -> (forall e, preserves I (on_error e)) ->
  preserves I (runFfmpeg job q on_end on_error).
Proof.
  intros Hw Hend Herr env w H. unfold runFfmpeg.
  pose proof (Hw env w H) as Hwritten. simpl in Hwritten.
  destruct (ffmpeg env job) as [|[|]].
  - apply Hend, Hwritten.
  - apply Herr, Hwritten.
  - apply Herr, H.
Qed.

End Programs.

(** *** What is at a path *)

Lemma lookup_mkdirs_some (p : Path.t) (l : list Path.t) (fs : Files) (n : Node) :
  lookup p fs = Some n -> lookup p (fold_left mkdir l fs) = Some n.
Proof.
  revert fs. induction l as [|q l IH]; intros fs H; simpl; [exact H|].
  apply IH. destruct (path_eqb_spec q p) as [->|Hne].
  - rewrite lookup_mkdir_same, H. reflexivity.
  - rewrite lookup_mkdir_other by assumption. exact H.
Qed.

Section Holds.

Variable p : Path.t.
Variable v : option Node.

Lemma holds_writeFileSync (q : Path.t) (n : Node) :
  q <> p -> preserves (holds p v) (writeFileSync q n).
Proof.
  intros Hne env w H. unfold holds in *. simpl.
  rewrite lookup_write_other by assumption. exact H.
Qed.

Lemma holds_mkdirSync (q : Path.t) :
  Path.is_prefix p q = false \/ v <> None ->
  preserves (holds p v) (mkdirSync q).
Proof.
  intros Hc env w H. unfold holds in *. simpl. destruct Hc as [Hc|Hc].
  - rewrite lookup_mkdirs_other; [exact H|].
    intros Hin. apply ancestors_prefix in Hin. congruence.
  - destruct v as [n|]; [|congruence]. apply lookup_mkdirs_some, H.
Qed.

Lemma holds_unlinkSync (q : Path.t) :
  q <> p -> preserves (holds p v) (unlinkSync q).
Proof.
  intros Hne env w H. unfold unlinkSync.
  destruct (lookup q (files w)) as [[| |]|]; try exact H;
    unfold holds in *; simpl;
    rewrite lookup_remove_other by assumption; exact H.
Qed.

Lemma holds_rmSync (q : Path.t) :
  Path.is_prefix q p = false -> preserves (holds p v) (rmSync q).
Proof.
  intros Hpre env w H. unfold holds in *. simpl.
  rewrite lookup_rm_other by assumption. exact H.
Qed.

Lemma holds_Math_random : preserves (holds p v) Math_random.
Proof. intros env w H. exact H. Qed.

End Holds.

(** *** Entries made of names *)

Lemma normal_files_filter (f : Path.t * Node -> bool) (w : World) :
  normal_files w ->
  normal_files {| files := filter f (files w); draws := draws w |}.
Proof.
  unfold normal_files. simpl. rewrite !Forall_forall.
  intros H e He. apply filter_In in He. apply H, He.
Qed.

Lemma normal_writeFileSync (q : Path.t) (n : Node) :
  normal q -> preserves normal_files (writeFileSync q n).
Proof.
  intros Hq env w H. unfold normal_files in *. simpl. unfold write.
  constructor; [exact Hq|]. apply (normal_files_filter _ w H).
Qed.

Lemma normal_mkdirs (l : list Path.t) (fs : Files) :
  Forall normal l -> Forall (fun e => normal (fst e)) fs ->
  Forall (fun e => normal (fst e)) (fold_left mkdir l fs).
Proof.
  revert fs. induction l as [|q l IH]; intros fs Hl H; simpl; [exact H|].
  inversion Hl; subst. apply IH; [assumption|].
  unfold mkdir. destruct (exists_ q fs); [exact H|]. constructor; assumption.
Qed.

Lemma normal_mkdirSync (q : Path.t) :
  normal q -> preserves normal_files (mkdirSync q).
Proof.
  intros Hq env w H. unfold normal_files in *. simpl.
  apply normal_mkdirs; [|exact H]. unfold ancestors.
  apply Forall_forall. intros a Ha. apply in_map_iff in Ha.
  destruct Ha as [k [<- _]]. apply normal_firstn, Hq.
Qed.

Lemma normal_unlinkSync (q : Path.t) : preserves normal_files (unlinkSync q).
Proof.
  intros env w H. unfold unlinkSync.
  destruct (lookup q (files w)) as [[| |]|]; try exact H;
    apply (normal_files_filter _ w H).
Qed.

Lemma normal_rmSync (q : Path.t) : preserves normal_files (rmSync q).
Proof. intros env w H. apply (normal_files_filter _ w H). Qed.

Lemma normal_Math_random : preserves normal_files Math_random.
Proof. intros env w H. exact H. Qed.

(** The names [readdirSync] lists on a disk made of names are names. *)
Lemma readdir_names (dir : Path.t) env w :
  normal_files w ->
  exists names,
    readdirSync dir env w = (Return names, w) /\
    Forall (fun s => Path.proper_name s = true) names.
Proof.
  intros H. eexists. split; [reflexivity|].
  apply Forall_forall. intros s Hs. apply in_map_iff in Hs.
  destruct Hs as [[q n] [<- Hq]]. apply filter_In in Hq.
  destruct Hq as [Hin Hchild]. simpl in *.
  unfold normal_files in H. rewrite Forall_forall in H.
  specialize (H _ Hin). simpl in H.
  unfold is_child in Hchild. apply andb_prop in Hchild.
  destruct Hchild as [_ Hne]. destruct (path_eqb_spec q []) as [->|Hq]; [discriminate|].
  destruct (exists_last Hq) as [q' [x ->]]. rewrite last_last.
  apply Forall_app in H. destruct H as [_ Hx]. inversion Hx. assumption.
Qed.

(** On a disk made of names, what follows [readdirSync] is run on names. *)
Lemma preserves_readdir {B : Type} (I : World -> Prop) (dir : Path.t)
    (k : list string -> IO B) :
  (forall names, Forall (fun s => Path.proper_name s = true) names ->
                 preserves (fun w => normal_files w /\ I w) (k names)) ->
  preserves (fun w => normal_files w /\ I w) (bind (readdirSync dir) k).
Proof.
  intros H env w [HN HI]. unfold bind.
  destruct (readdir_names dir env w HN) as [names [-> Hnames]].
  apply H; [exact Hnames | split; assumption].
Qed.

(** *** No path listed twice *)

Lemma entry_none (p : Path.t) (fs : Files) :
  entry p fs = None <-> ~ In p (map fst fs).
Proof.
  induction fs as [|[q n] fs IH]; simpl.
  - tauto.
  - destruct (path_eqb_spec q p) as [->|Hne].
    + split; [discriminate | intros H; exfalso; apply H; now left].
    + rewrite IH. split; [intros H [E|E]; auto | intros H E; apply H; now right].
Qed.

Lemma entry_in (p : Path.t) (n : Node) (fs : Files) :
  In (p, n) fs -> exists n', entry p fs = Some n'.
Proof.
  intros H. destruct (entry p fs) as [n'|] eqn:E; [eauto|].
  apply entry_none in E. exfalso. apply E.
  apply in_map_iff. exists (p, n). auto.
Qed.

Lemma NoDup_keys_filter (f : Path.t * Node -> bool) (fs : Files) :
  NoDup (map fst fs) -> NoDup (map fst (filter f fs)).
Proof.
  induction fs as [|[q n] fs IH]; simpl; intros H; [constructor|].
  inversion H as [|? ? Hq Hnd]; subst.
  destruct (f (q, n)); simpl; [|auto].
  constructor; [|auto]. intros Hin. apply Hq.
  apply in_map_iff in Hin. destruct Hin as [[q' n'] [E Hin]]. simpl in E. subst.
  apply filter_In in Hin. apply in_map_iff. exists (q, n'). tauto.
Qed.

Lemma distinct_filter (f : Path.t * Node -> bool) (w : World) :
  distinct w -> distinct {| files := filter f (files w); draws := draws w |}.
Proof. apply NoDup_keys_filter. Qed.

Lemma distinct_writeFileSync (q : Path.t) (n : Node) :
  preserves distinct (writeFileSync q n).
Proof.
  intros env w H. unfold distinct in *. simpl. unfold write, remove. simpl.
  constructor; [|apply NoDup_keys_filter, H].
  intros Hin. apply in_map_iff in Hin. destruct Hin as [[q' n'] [E Hin]].
  simpl in E. subst. apply filter_In in Hin. destruct Hin as [_ Hin].
  simpl in Hin. rewrite path_eqb_refl in Hin. discriminate.
Qed.

Lemma distinct_mkdirs (l : list Path.t) (fs : Files) :
  NoDup (map fst fs) -> NoDup (map fst (fold_left mkdir l fs)).
Proof.
  revert fs. induction l as [|q l IH]; intros fs H; simpl; [exact H|].
  apply IH. unfold mkdir, exists_, lookup.
  destruct q as [|x q]; [exact H|].
  destruct (entry (x :: q) fs) eqn:E; [exact H|].
  simpl. constructor; [apply entry_none, E | exact H].
Qed.

Lemma distinct_mkdirSync (q : Path.t) : preserves distinct (mkdirSync q).
Proof. intros env w H. apply distinct_mkdirs, H. Qed.

Lemma distinct_unlinkSync (q : Path.t) : preserves distinct (unlinkSync q).
Proof.
  intros env w H. unfold unlinkSync.
  destruct (lookup q (files w)) as [[| |]|]; try exact H;
    apply (distinct_filter _ w H).
Qed.

Lemma distinct_rmSync (q : Path.t) : preserves distinct (rmSync q).
Proof. intros env w H. apply (distinct_filter _ w H). Qed.

Lemma distinct_Math_random : preserves distinct Math_random.
Proof. intros env w H. exact H. Qed.

(** *** Nothing lost, nothing found *)

Lemma missing_unlinkSync (p q : Path.t) : preserves (missing_in p) (unlinkSync q).
Proof.
  intros env w H. unfold unlinkSync.
  destruct (lookup q (files w)) as [[| |]|]; try exact H;
    unfold missing_in, exists_ in *; simpl;
    (destruct p as [|x p]; [discriminate|]);
    unfold lookup in *; rewrite entry_remove;
    destruct (Path.eqb q (x :: p)); auto.
Qed.

Lemma missing_rmSync (p q : Path.t) : preserves (missing_in p) (rmSync q).
Proof.
  intros env w H. unfold missing_in, exists_ in *. simpl.
  destruct p as [|x p]; [discriminate|].
  unfold lookup in *. rewrite entry_rm.
  destruct (Path.is_prefix q (x :: p)); auto.
Qed.

(** *** The working directory holds what a request puts there *)

Section Tidy.

Variable dir : Path.t.

Lemma tidy_writeFileSync (q : Path.t) (n : Node) :
  (Path.is_prefix dir q = true -> expected dir q n) ->
  preserves (tidy dir) (writeFileSync q n).
Proof.
  intros Hq env w H q' n' Hpre Hl. simpl in Hl.
  destruct (path_eqb_spec q q') as [->|Hne].
  - destruct q' as [|x q']; [|rewrite lookup_write_same in Hl by discriminate].
    + simpl in Hl. injection Hl as <-.
      destruct dir; [|discriminate].
      specialize (H [] Directory eq_refl eq_refl). exact H.
    + injection Hl as <-. auto.
  - rewrite lookup_write_other in Hl by assumption. eauto.
Qed.

Lemma lookup_mkdirs_cases (q : Path.t) (l : list Path.t) (fs : Files) :
  lookup q (fold_left mkdir l fs) = lookup q fs \/
  (In q l /\ lookup q (fold_left mkdir l fs) = Some Directory).
Proof.
  revert fs. induction l as [|a l IH]; intros fs; simpl; [now left|].
  destruct (IH (mkdir fs a)) as [E|[Hin E]].
  - destruct (path_eqb_spec a q) as [->|Hne].
    + destruct (lookup q fs) eqn:L.
      * left. rewrite E, lookup_mkdir_same, L. reflexivity.
      * right. split; [now left|]. rewrite E, lookup_mkdir_same, L. reflexivity.
    + left. rewrite E. apply lookup_mkdir_other, Hne.
  - right. split; [now right | exact E].
Qed.

Lemma tidy_mkdirSync (q : Path.t) :
  (forall a, In a (ancestors q) -> Path.is_prefix dir a = true ->
             expected dir a Directory) ->
  preserves (tidy dir) (mkdirSync q).
Proof.
  intros Hq env w H q' n' Hpre Hl. simpl in Hl.
  destruct (lookup_mkdirs_cases q' (ancestors q) (files w)) as [E|[Hin E]].
  - rewrite E in Hl. eauto.
  - rewrite E in Hl. injection Hl as <-. auto.
Qed.

Lemma tidy_filter (f : Path.t * Node -> bool) (w : World) :
  (forall q, lookup q (filter f (files w)) = lookup q (files w) \/
             lookup q (filter f (files w)) = None) ->
  tidy dir w -> tidy dir {| files := filter f (files w); draws := draws w |}.
Proof.
  intros Hf H q n Hpre Hl. simpl in Hl.
  destruct (Hf q) as [E|E]; rewrite E in Hl; [eauto | discriminate].
Qed.

Lemma tidy_unlinkSync (q : Path.t) : preserves (tidy dir) (unlinkSync q).
Proof.
  intros env w H. unfold unlinkSync.
  destruct (lookup q (files w)) as [[| |]|]; try exact H;
    (apply tidy_filter; [|exact H]; intros q';
     destruct q' as [|x q']; [now left|];
     unfold lookup; fold (remove q (files w)); rewrite entry_remove;
     destruct (Path.eqb q (x :: q')); auto).
Qed.

Lemma tidy_rmSync (q : Path.t) : preserves (tidy dir) (rmSync q).
Proof.
  intros env w H. apply tidy_filter; [|exact H]. intros q'.
  destruct q' as [|x q']; [now left|].
  unfold lookup. rewrite entry_rm.
  destruct (Path.is_prefix q (x :: q')); auto.
Qed.

Lemma tidy_Math_random : preserves (tidy dir) Math_random.
Proof. intros env w H. exact H. Qed.

End Tidy.

(** *** Runs that return *)

Lemma try_catch_return {A : Type} (m : IO A) (h : Error -> IO A) env w a w' :
  m env w = (Return a, w') -> try_catch m h env w = (Return a, w').
Proof. intros H. unfold try_catch. now rewrite H. Qed.

Lemma runFfmpeg_done {A : Type} (job : Job) (q : Path.t) (on_end : IO A)
    (on_error : Error -> IO A) env w :
  ffmpeg env job = Done ->
  runFfmpeg job q on_end on_error env w
  = on_end env {| files := write q Data (files w); draws := draws w |}.
Proof. intros H. unfold runFfmpeg. now rewrite H. Qed.

(** The writes leave the random source alone. *)
Section Draws.

Variable k : nat.

Lemma draws_on_files (f : Files -> Files) :
  preserves (fun w => draws w = k) (on_files f).
Proof. intros env w H. exact H. Qed.

Lemma draws_unlinkSync (q : Path.t) :
  preserves (fun w => draws w = k) (unlinkSync q).
Proof.
  intros env w H. unfold unlinkSync.
  destruct (lookup q (files w)) as [[| |]|]; exact H.
Qed.

End Draws.

(** *** Emptying a directory *)

Lemma child_path (dir q : Path.t) :
  is_child dir q = true -> q = dir ++ [last q EmptyString].
Proof.
  unfold is_child. intros H. apply andb_prop in H. destruct H as [Hd Hq].
  destruct (path_eqb_spec (removelast q) dir) as [<-|]; [|discriminate].
  destruct (path_eqb_spec q []) as [|Hne]; [discriminate|].
  apply app_removelast_last, Hne.
Qed.

Lemma lookup_in (q : Path.t) (n : Node) (fs : Files) :
  In (q, n) fs -> exists n', lookup q fs = Some n'.
Proof.
  intros H. destruct q as [|x q]; [exists Directory; reflexivity|].
  apply (entry_in _ _ _ H).
Qed.

(** What [readdirSync] lists on a well-formed disk: names, each once, each
    the name of something that is there. *)
Lemma readdir_children (dir : Path.t) env w :
  well_formed w ->
  exists names,
    readdirSync dir env w = (Return names, w) /\
    NoDup names /\
    Forall (fun s => Path.proper_name s = true) names /\
    (forall f, In f names -> exists n, lookup (dir ++ [f]) (files w) = Some n).
Proof.
  intros [Hd Hn]. destruct (readdir_names dir env w Hn) as [names [E Hp]].
  exists names. split; [exact E|]. split; [|split; [exact Hp|]].
  - unfold readdirSync in E. injection E as <-. clear Hp Hn.
    unfold distinct in Hd. induction (files w) as [|[q n] fs IH]; simpl.
    + constructor.
    + simpl in Hd. inversion Hd as [|? ? Hq Hnd]; subst.
      destruct (is_child dir q) eqn:C; simpl; [|auto].
      constructor; [|auto]. intros Hin. apply Hq.
      apply in_map_iff in Hin. destruct Hin as [[q' n'] [El Hin]].
      apply filter_In in Hin. destruct Hin as [Hin C']. simpl in *.
      apply child_path in C. apply child_path in C'.
      apply in_map_iff. exists (q', n'). split; [|exact Hin]. simpl.
      rewrite C, C', El. reflexivity.
  - unfold readdirSync in E. injection E as <-. intros f Hf.
    apply in_map_iff in Hf. destruct Hf as [[q n] [<- Hin]].
    apply filter_In in Hin. destruct Hin as [Hin C]. simpl in *.
    apply child_path in C. rewrite <- C. apply (lookup_in _ _ _ Hin).
Qed.

(** [if (fs.existsSync(q)) fs.unlinkSync(q)] on what is not a directory. *)
Lemma unlinkIfExists_exact (q : Path.t) env w :
  not_dir q w ->
  exists w',
    VideoRenderer.unlinkIfExists q env w = (Return tt, w') /\
    draws w' = draws w /\
    lookup q (files w') = None /\
    (forall p, q <> p -> lookup p (files w') = lookup p (files w)).
Proof.
  intros H. pose proof (not_dir_nonroot q w H) as Hq.
  unfold VideoRenderer.unlinkIfExists, bind, existsSync, when, exists_.
  destruct (lookup q (files w)) as [n|] eqn:E.
  - unfold unlinkSync. rewrite E.
    destruct n; [exfalso; apply H; exact E| |];
      (eexists; split; [reflexivity|]; split; [reflexivity|]; split;
       [ simpl; apply lookup_remove_same, Hq
       | intros p Hp; simpl; apply lookup_remove_other, Hp ]).
  - exists w. repeat split; auto.
Qed.

(** Unlinking each of a list of distinct files, all there and none a
    directory, removes them and nothing else. *)
Lemma unlink_all (dir : Path.t) (l : list string) env w :
  NoDup l -> Forall (fun s => Path.proper_name s = true) l ->
  (forall f, In f l ->
     exists n, lookup (dir ++ [f]) (files w) = Some n /\ n <> Directory) ->
  exists w',
    for_each l (fun file => unlinkSync (Path.join dir file)) env w
    = (Return tt, w') /\
    draws w' = draws w /\
    (forall q, (forall f, In f l -> dir ++ [f] <> q) ->
               lookup q (files w') = lookup q (files w)).
Proof.
  revert w. induction l as [|f l IH]; intros w Hnd Hp Hl; simpl.
  - exists w. repeat split; auto.
  - inversion Hnd as [|? ? Hf Hnd']; subst. inversion Hp as [|? ? Hpf Hp']; subst.
    rewrite (join_name dir f Hpf).
    destruct (Hl f (or_introl eq_refl)) as [n [Ln Hn]].
    assert (E1 : unlinkSync (dir ++ [f]) env w
                 = (Return tt, {| files := remove (dir ++ [f]) (files w);
                                  draws := draws w |})).
    { unfold unlinkSync. rewrite Ln. destruct n; [congruence| |]; reflexivity. }
    rewrite (bind_return _ _ _ _ _ _ E1).
    destruct (IH {| files := remove (dir ++ [f]) (files w); draws := draws w |}
                Hnd' Hp') as [w' [E [D F]]].
    { intros g Hg. destruct (Hl g (or_intror Hg)) as [m [Lm Hm]].
      exists m. split; [|exact Hm]. simpl.
      rewrite lookup_remove_other; [exact Lm|].
      intros Efg. apply child_inj in Efg. subst. contradiction. }
    exists w'. split; [exact E|]. split; [exact D|].
    intros q Hq. rewrite F by (intros g Hg; apply Hq; now right).
    simpl. apply lookup_remove_other, Hq. now left.
Qed.

(** *** A directory among the files *)

Lemma entry_some_in (p : Path.t) (n : Node) (fs : Files) :
  entry p fs = Some n -> exists q, q = p /\ In (q, n) fs.
Proof.
  induction fs as [|[q m] fs IH]; simpl; [discriminate|].
  destruct (path_eqb_spec q p) as [->|Hne].
  - intros E. injection E as ->. exists p. auto.
  - intros E. destruct (IH E) as [q' [Eq Hin]]. exists q'. auto.
Qed.

(** What is directly below [dir] is listed by [readdirSync]. *)
Lemma readdir_lists (dir : Path.t) (f : string) (n : Node) env w :
  lookup (dir ++ [f]) (files w) = Some n ->
  exists names, readdirSync dir env w = (Return names, w) /\ In f names.
Proof.
  intros L. eexists. split; [reflexivity|].
  assert (Hne : dir ++ [f] <> [])
    by (intros E; apply app_eq_nil in E; destruct E; discriminate).
  destruct (dir ++ [f]) as [|x q] eqn:Eq; [congruence|]. simpl in L.
  apply entry_some_in in L. destruct L as [q' [-> Hin]]. rewrite <- Eq in *.
  apply in_map_iff. exists (dir ++ [f], n). split; [apply last_last|].
  apply filter_In. split; [exact Hin|]. simpl. unfold is_child.
  rewrite removelast_last, path_eqb_refl, path_eqb_neq by exact Hne.
  reflexivity.
Qed.

(** A directory among the names stops the loop: [unlinkSync] throws on
    it, if not before. *)
Lemma unlink_directory (dir : Path.t) (f : string) (l : list string) env w :
  In f l -> Forall (fun s => Path.proper_name s = true) l ->
  lookup (dir ++ [f]) (files w) = Some Directory ->
  exists w',
    for_each l (fun file => unlinkSync (Path.join dir file)) env w
    = (Throw FsError, w').
Proof.
  revert w. induction l as [|g l IH]; intros w Hin Hp L; [destruct Hin|].
  inversion Hp as [|? ? Hg Hp']; subst. simpl.
  rewrite (join_name dir g Hg). unfold bind at 1, unlinkSync at 1.
  destruct (lookup (dir ++ [g]) (files w)) as [[| |]|] eqn:Lg;
    try (eexists; reflexivity).
  - apply IH; [|exact Hp'|].
    + destruct Hin as [->|Hin]; [congruence | exact Hin].
    + simpl. rewrite lookup_remove_other; [exact L|].
      intros E. apply child_inj in E. subst. congruence.
  - apply IH; [|exact Hp'|].
    + destruct Hin as [->|Hin]; [congruence | exact Hin].
    + simpl. rewrite lookup_remove_other; [exact L|].
      intros E. apply child_inj in E. subst. congruence.
Qed.

End DiskFacts.

#[local] Hint Resolve holds_Math_random normal_Math_random normal_unlinkSync
  normal_rmSync distinct_writeFileSync distinct_mkdirSync distinct_unlinkSync
  distinct_rmSync distinct_Math_random missing_unlinkSync missing_rmSync
  tidy_unlinkSync tidy_rmSync tidy_Math_random draws_unlinkSync : preserve.

(** [keep] splits a program down to its writes. *)
Ltac keep :=
  repeat match goal with
    | |- Io.preserves _ (Io.bind (Io.readdirSync _) _) =>
        apply preserves_readdir; intros ? ?
    | |- Io.preserves _ (Io.bind _ _) => apply preserves_bind; [|intros ?]
    | |- Io.preserves _ (Io.try_catch _ _) =>
        apply preserves_try_catch; [|intros ?]
    | |- Io.preserves _ (Io.when _ _) => apply preserves_when
    | |- Io.preserves _ (Io.for_each _ _) =>
        apply preserves_for_each_in; intros ? ?
    | |- Io.preserves _ (Io.runFfmpeg _ _ _ _) =>
        apply preserves_runFfmpeg; [ | |intros ?]
    | |- Io.preserves _ (Io.execNode _) => apply preserves_execNode
    | |- Io.preserves _ (Io.writeCanvas _ _ _ _) => apply preserves_writeCanvas
    | |- Io.preserves _ (match ?x with Js.Own _ => _ | _ => _ end) =>
        destruct x
    | |- Io.preserves _ (Io.ret _) => apply preserves_ret
    | |- Io.preserves _ (Io.throw _) => apply preserves_throw
    | |- Io.preserves _ (Io.existsSync _) => apply preserves_existsSync
    | |- Io.preserves _ (Io.readdirSync _) => apply preserves_readdirSync
    | |- Io.preserves _ (Io.statSync _) => apply preserves_statSync
    end.
(** ** One request and the rest of the disk *)

Section Request.

Import Io Disk.
Local Open Scope io_scope.
Local Open Scope string_scope.
Local Open Scope list_scope.

Variable genre : string.
Variable out : Path.t.
Variable name : string.
Hypothesis name_proper : Path.proper_name name = true.

Local Notation "'pd'" := (out ++ [name]).
Local Notation "'tempDir'" := (out ++ ["temp_segments"]).
Local Notation "'concatList'" := (out ++ ["concat_list.txt"]).
Local Notation "'video'" := (out ++ [(name ++ ".mp4")%string]).

Lemma name_no_sep : existsb Path.is_sep (list_ascii_of_string name) = false.
Proof.
  pose proof name_proper as H. unfold Path.proper_name in H.
  repeat (apply andb_prop in H; destruct H as [H _]).
  apply negb_true_iff in H. exact H.
Qed.

Lemma mp4_proper : Path.proper_name (name ++ ".mp4") = true.
Proof. apply proper_name_mp4, name_no_sep. Qed.

(** The program of a request, down to its reads and writes. *)
Ltac open_request :=
  unfold request, MusicVideoGenerator.pipeline, MusicVideoGenerator._cleanupTempFiles,
    MusicGenerator.generateMusic,
    VisualGenerator.generateIntro, VisualGenerator.generateVisuals,
    VisualGenerator.generateOutro, VisualGenerator._generateIntroFrame,
    VisualGenerator._generateOutroFrame, VisualGenerator._generateFrame,
    VideoRenderer.renderComplete, VideoRenderer.renderIntro,
    VideoRenderer.renderMain, VideoRenderer.renderOutro,
    VideoRenderer.concatenateVideos, VideoRenderer.removeSegments,
    VideoRenderer.unlinkIfExists, ensureDir;
  cbv zeta; cbn [for_each];
  repeat (rewrite dirname_child || rewrite join_name by reflexivity).

(** The paths of a request are made of names. *)
Ltac names :=
  repeat apply normal_app; try assumption;
  repeat constructor;
  first [ exact name_proper | apply mp4_proper
        | apply proper_frameFile; reflexivity | reflexivity
        | match goal with
          | Hn : Forall _ ?l, Hi : In ?x ?l |- _ =>
              rewrite Forall_forall in Hn; apply Hn, Hi
          end ].

Section Elsewhere.

Variable p : Path.t.
Variable v : option Node.
Hypothesis out_normal : normal out.
Hypothesis outside_pd : Path.is_prefix pd p = false.
Hypothesis outside_tempDir : Path.is_prefix tempDir p = false.
Hypothesis not_concatList : concatList <> p.
Hypothesis not_video : video <> p.
Hypothesis above : Path.is_prefix p pd = false \/ v <> None.

Lemma mkdir_elsewhere (q : Path.t) :
  q = pd \/ q = tempDir \/ (exists d, q = pd ++ [d]) ->
  Path.is_prefix p q = false \/ v <> None.
Proof.
  intros Hq. destruct above as [Ha|Ha]; [left | right; exact Ha].
  destruct (Path.is_prefix p q) eqn:E; [exfalso | reflexivity].
  destruct Hq as [-> | [-> | [d ->]]].
  - congruence.
  - apply prefix_of_child in E. destruct E as [->|E].
    + rewrite is_prefix_refl in outside_tempDir. discriminate.
    + rewrite (is_prefix_trans p out pd E (is_prefix_app out [name])) in Ha.
      discriminate.
  - apply prefix_of_child in E. destruct E as [->|E].
    + rewrite is_prefix_app in outside_pd. discriminate.
    + congruence.
Qed.

Ltac outside :=
  first [ assumption | apply outside_below; assumption ].

Ltac elsewhere :=
  first [ exact not_concatList | exact not_video
        | apply outside_neq; outside ].

Lemma request_elsewhere :
  preserves (fun w => normal_files w /\ holds p v w) (request genre out name).
Proof.
  open_request. keep.
  all: rewrite ?join_frameFile by reflexivity.
  all: try match goal with
           | Hn : Forall _ ?l, Hi : In ?x ?l |- context [Path.join _ ?x] =>
               rewrite (join_name _ x)
                 by (rewrite Forall_forall in Hn; apply Hn, Hi)
           end.
  all: apply preserves_and.
  all: try solve [auto with preserve].
  all: try solve [apply normal_mkdirSync; names].
  all: try solve [apply normal_writeFileSync; names].
  all: try solve [apply holds_writeFileSync; elsewhere].
  all: try solve [apply holds_unlinkSync; elsewhere].
  all: try solve [apply holds_rmSync; outside].
  all: try solve [apply holds_mkdirSync, mkdir_elsewhere; eauto].
Qed.

End Elsewhere.

(** *** The working directory stays tidy *)

Section Bundle.

Hypothesis out_normal : normal out.
Hypothesis not_temp_segments : name <> "temp_segments".
Hypothesis not_concat_list : name <> "concat_list.txt".

Lemma mp4_neq : (name ++ ".mp4")%string <> name.
Proof.
  intros E. apply (f_equal String.length) in E.
  rewrite length_append in E. simpl in E. lia.
Qed.

(** The other three places of a request are not below its working
    directory. *)
Lemma beside (b : string) (rest : Path.t) :
  name <> b -> Path.is_prefix pd (out ++ b :: rest) = false.
Proof. apply is_prefix_sibling. Qed.

Lemma expected_dir (a q : Path.t) :
  q = pd \/ (exists d, In d workDirs /\ q = pd ++ [d]) \/ q = tempDir ->
  In a (ancestors q) -> Path.is_prefix pd a = true ->
  expected pd a Directory.
Proof.
  intros Hq Ha Hpre. apply ancestors_prefix in Ha.
  destruct Hq as [-> | [[d [Hd ->]] | ->]].
  - left. split; [|reflexivity]. apply is_prefix_antisym; assumption.
  - apply prefix_of_child in Ha. destruct Ha as [->|Ha].
    + right. left. exists d. auto.
    + left. split; [|reflexivity]. apply is_prefix_antisym; assumption.
  - exfalso. apply prefix_of_child in Ha. destruct Ha as [->|Ha].
    + rewrite (beside "temp_segments" []) in Hpre by assumption. discriminate.
    + apply is_prefix_length in Ha. apply is_prefix_length in Hpre.
      rewrite length_app in Hpre. simpl in Hpre. lia.
Qed.

Ltac below :=
  intros Hbelow;
  first
    [ exfalso; rewrite <- ?app_assoc in Hbelow; simpl app in Hbelow;
      first [ rewrite beside in Hbelow by assumption
            | rewrite beside in Hbelow by apply not_eq_sym, mp4_neq ];
      discriminate
    | right; right; right; right; split; [reflexivity | discriminate]
    | right; right; right; left; split; [reflexivity | discriminate]
    | right; right; left; rewrite <- app_assoc; simpl app;
      do 2 eexists; split; [|split; [reflexivity | discriminate]];
      simpl; tauto ].

Ltac tidy_leaves :=
  rewrite ?join_frameFile by reflexivity;
  try match goal with
      | Hn : Forall _ ?l, Hi : In ?x ?l |- context [Path.join _ ?x] =>
          rewrite (join_name _ x)
            by (rewrite Forall_forall in Hn; apply Hn, Hi)
      end;
  (apply preserves_and; [|apply preserves_and]);
  first
    [ solve [auto with preserve]
    | solve [apply normal_mkdirSync; names]
    | solve [apply normal_writeFileSync; names]
    | solve [apply tidy_writeFileSync; below]
    | apply tidy_mkdirSync; intros anc;
      match goal with
      | |- In anc (ancestors ?q) -> _ => apply (expected_dir anc q)
      end;
      first [ left; reflexivity | right; right; reflexivity
            | right; left; eexists; split; [|reflexivity]; simpl; tauto ] ].

Local Notation "'Tidy'" :=
  (fun w => normal_files w /\ (distinct w /\ tidy pd w)).

Lemma dirs_tidy :
  preserves Tidy
    (for_each [pd; pd ++ ["frames"]; pd ++ ["intro"]; pd ++ ["outro"]] ensureDir).
Proof. open_request. keep. all: tidy_leaves. Qed.

Lemma stages_tidy :
  preserves Tidy
    (MusicVideoGenerator.stages VisualGenerator.constructor genre
       (pd ++ ["frames"]) (pd ++ ["intro"]) (pd ++ ["outro"])
       (pd ++ ["audio.wav"]) video).
Proof.
  unfold MusicVideoGenerator.stages. open_request. keep. all: tidy_leaves.
Qed.

(** *** The final cleanup *)

Ltac by_length :=
  match goal with
  | E : _ = _ |- _ =>
      apply (f_equal (@List.length string)) in E;
      rewrite ?length_app in E; simpl in E; lia
  end.

Lemma expected_file (d f : string) (n : Node) :
  expected pd ((pd ++ [d]) ++ [f]) n -> n <> Directory.
Proof.
  intros [[E _]|[[d' [_ [E _]]]|[[d' [f' [_ [_ H]]]]|[[E _]|[E _]]]]];
    try by_length. exact H.
Qed.

Lemma expected_child (x : string) (n : Node) :
  expected pd (pd ++ [x]) n ->
  In x workDirs \/ x = "audio.wav" \/ x = "temp_music_script.js".
Proof.
  intros [[E _]|[[d' [Hd [E _]]]|[[d' [f' [_ [E _]]]]|[[E _]|[E _]]]]];
    try by_length.
  - apply child_inj in E. subst. now left.
  - apply child_inj in E. auto.
  - apply child_inj in E. auto.
Qed.

(** One image directory: its files are unlinked one by one, then the
    directory is removed. *)
Lemma clean_dir (d : string) env w :
  In d workDirs -> well_formed w -> tidy pd w -> exists_in (pd ++ [d]) w ->
  exists w',
    (present <- existsSync (pd ++ [d]) ;;
     when present
       (files <- readdirSync (pd ++ [d]) ;;
        for_each files (fun file => unlinkSync (Path.join (pd ++ [d]) file)) ;;
        rmSync (pd ++ [d]))) env w
    = (Return tt, w') /\
    draws w' = draws w /\
    vacant (pd ++ [d]) w' /\
    (forall q, Path.is_prefix (pd ++ [d]) q = false ->
               lookup q (files w') = lookup q (files w)).
Proof.
  intros Hd Hwf Ht Hx.
  unfold bind at 1, existsSync. rewrite Hx. cbn [when].
  destruct (readdir_children (pd ++ [d]) env w Hwf) as [names [E [Hnd [Hp Hl]]]].
  rewrite (bind_return _ _ _ _ _ _ E).
  destruct (unlink_all (pd ++ [d]) names env w Hnd Hp) as [w1 [E1 [D1 F1]]].
  { intros f Hf. destruct (Hl f Hf) as [n Ln]. exists n. split; [exact Ln|].
    apply (expected_file d f). apply Ht; [|exact Ln].
    rewrite <- app_assoc. apply is_prefix_app. }
  rewrite (bind_return _ _ _ _ _ _ E1).
  eexists. split; [reflexivity|]. split; [exact D1|]. split.
  - intros q Hq. simpl. destruct q as [|x q].
    + destruct out; discriminate.
    + apply lookup_rm_under; [discriminate | exact Hq].
  - intros q Hq. simpl. rewrite lookup_rm_other by exact Hq.
    apply F1. intros f _ Ef. subst. rewrite is_prefix_app in Hq. discriminate.
Qed.

Lemma expected_audio (n : Node) :
  expected pd (pd ++ ["audio.wav"]) n -> n <> Directory.
Proof.
  intros [[E _]|[[d' [Hd [E _]]]|[[d' [f' [_ [E _]]]]|[[_ H]|[E _]]]]];
    try by_length; try exact H.
  - apply child_inj in E. subst. simpl in Hd.
    repeat (destruct Hd as [Hd|Hd]; [discriminate|]). destruct Hd.
  - apply child_inj in E. discriminate.
Qed.

Lemma sibling_outside (a b : string) (rest : Path.t) :
  a <> b -> Path.is_prefix (pd ++ [a]) ((pd ++ [b]) ++ rest) = false.
Proof.
  intros H. rewrite <- (app_assoc pd [b] rest). apply is_prefix_sibling, H.
Qed.

Lemma step_tidy (d : string) :
  In d workDirs ->
  preserves Tidy
    (present <- existsSync (pd ++ [d]) ;;
     when present
       (files <- readdirSync (pd ++ [d]) ;;
        for_each files (fun file => unlinkSync (Path.join (pd ++ [d]) file)) ;;
        rmSync (pd ++ [d]))).
Proof. intros Hd. keep. all: tidy_leaves. Qed.

Lemma unlinkIfExists_tidy (q : Path.t) :
  preserves Tidy (VideoRenderer.unlinkIfExists q).
Proof. unfold VideoRenderer.unlinkIfExists. keep. all: tidy_leaves. Qed.

Lemma cleanup_run env w :
  normal_files w -> distinct w -> tidy pd w ->
  exists_in pd w ->
  (forall d, In d workDirs -> exists_in (pd ++ [d]) w) ->
  holds (pd ++ ["temp_music_script.js"]) None w ->
  exists w',
    MusicVideoGenerator._cleanupTempFiles pd env w = (Return tt, w') /\
    draws w' = draws w /\
    vacant pd w' /\
    (forall q, Path.is_prefix pd q = false ->
               lookup q (files w') = lookup q (files w)).
Proof.
  intros Hn Hd Ht Hpd Hdirs Hscript.
  unfold MusicVideoGenerator._cleanupTempFiles. cbv zeta. cbn [for_each].
  rewrite !join_name by reflexivity.
  (* frames *)
  destruct (clean_dir "frames" env w) as [w1 [E1 [D1 [V1 F1]]]];
    [simpl; tauto | split; assumption | exact Ht | apply Hdirs; simpl; tauto |].
  pose proof (step_tidy "frames" ltac:(simpl; tauto) env w
                (conj Hn (conj Hd Ht))) as T1.
  rewrite E1 in T1. simpl in T1. destruct T1 as [Hn1 [Hd1 Ht1]].
  (* intro *)
  destruct (clean_dir "intro" env w1) as [w2 [E2 [D2 [V2 F2]]]];
    [simpl; tauto | split; assumption | exact Ht1 | |].
  { unfold exists_in, exists_. rewrite F1 by (apply is_prefix_sibling; discriminate).
    apply Hdirs. simpl. tauto. }
  pose proof (step_tidy "intro" ltac:(simpl; tauto) env w1
                (conj Hn1 (conj Hd1 Ht1))) as T2.
  rewrite E2 in T2. simpl in T2. destruct T2 as [Hn2 [Hd2 Ht2]].
  (* outro *)
  destruct (clean_dir "outro" env w2) as [w3 [E3 [D3 [V3 F3]]]];
    [simpl; tauto | split; assumption | exact Ht2 | |].
  { unfold exists_in, exists_.
    rewrite F2, F1 by (apply is_prefix_sibling; discriminate).
    apply Hdirs. simpl. tauto. }
  pose proof (step_tidy "outro" ltac:(simpl; tauto) env w2
                (conj Hn2 (conj Hd2 Ht2))) as T3.
  rewrite E3 in T3. simpl in T3. destruct T3 as [Hn3 [Hd3 Ht3]].
  assert (F : forall q, (forall d, In d workDirs ->
                                   Path.is_prefix (pd ++ [d]) q = false) ->
                        lookup q (files w3) = lookup q (files w)).
  { intros q Hq. rewrite F3, F2, F1 by (apply Hq; simpl; tauto). reflexivity. }
  assert (V : forall d, In d workDirs -> vacant (pd ++ [d]) w3).
  { intros d Hin q Hq. apply is_prefix_spec in Hq. destruct Hq as [rest ->].
    simpl in Hin. destruct Hin as [<-|[<-|[<-|[]]]].
    - rewrite F3, F2 by (apply sibling_outside; discriminate).
      apply V1, is_prefix_app.
    - rewrite F3 by (apply sibling_outside; discriminate).
      apply V2, is_prefix_app.
    - apply V3, is_prefix_app. }
  match goal with
  | |- exists w', bind (bind ?a (fun _ => bind ?b (fun _ => bind ?c _))) _ env w = _ /\ _ =>
      assert (E123 : bind a (fun _ => bind b (fun _ => bind c (fun _ => ret tt)))
                       env w = (Return tt, w3))
  end.
  { rewrite (bind_return _ _ _ _ _ _ E1), (bind_return _ _ _ _ _ _ E2),
      (bind_return _ _ _ _ _ _ E3). reflexivity. }
  rewrite (bind_return _ _ _ _ _ _ E123). clear E123.
  (* the audio file *)
  destruct (unlinkIfExists_exact (pd ++ ["audio.wav"]) env w3)
    as [w4 [E4 [D4 [M4 F4]]]].
  { intros L. apply (expected_audio Directory); [|reflexivity].
    apply Ht3; [apply is_prefix_app | exact L]. }
  pose proof (unlinkIfExists_tidy (pd ++ ["audio.wav"]) env w3
                (conj Hn3 (conj Hd3 Ht3))) as T4.
  rewrite E4 in T4. simpl in T4. destruct T4 as [Hn4 [Hd4 Ht4]].
  rewrite (bind_return _ _ _ _ _ _ E4).
  (* the working directory itself *)
  assert (Hpd4 : exists_ pd (files w4) = true).
  { unfold exists_. rewrite F4 by (intros E; by_length).
    rewrite F; [exact Hpd|].
    intros d _. destruct (Path.is_prefix (pd ++ [d]) pd) eqn:P; [|reflexivity].
    apply is_prefix_length in P. rewrite length_app in P. simpl in P. lia. }
  unfold bind at 1, existsSync. rewrite Hpd4. cbn [when].
  destruct (readdir_children pd env w4 (conj Hd4 Hn4)) as [names [E5 [_ [_ Hl]]]].
  rewrite (bind_return _ _ _ _ _ _ E5).
  assert (Hnames : names = []).
  { destruct names as [|f names]; [reflexivity|exfalso].
    destruct (Hl f (or_introl eq_refl)) as [n Ln].
    pose proof (Ht4 _ _ (is_prefix_app pd [f]) Ln) as Hx.
    apply expected_child in Hx. destruct Hx as [Hx | [-> | ->]].
    - destruct (path_eqb_spec (pd ++ ["audio.wav"]) (pd ++ [f])) as [Ef|Ef].
      + apply child_inj in Ef. subst. simpl in Hx.
        repeat (destruct Hx as [Hx|Hx]; [discriminate|]). destruct Hx.
      + rewrite F4 in Ln by exact Ef.
        rewrite (V f Hx (pd ++ [f]) (is_prefix_refl _)) in Ln. discriminate.
    - rewrite M4 in Ln. discriminate.
    - rewrite F4 in Ln by (intros Ef; apply child_inj in Ef; discriminate).
      rewrite F in Ln.
      + unfold holds in Hscript. rewrite Hscript in Ln. discriminate.
      + intros d Hd'. apply is_prefix_sibling.
        intros ->. simpl in Hd'.
        repeat (destruct Hd' as [Hd'|Hd']; [discriminate|]). destruct Hd'. }
  subst names. cbn [List.length Nat.eqb when].
  eexists. split; [reflexivity|]. split; [simpl; congruence|]. split.
  - intros q Hq. simpl. destruct q as [|x q].
    + destruct out; discriminate.
    + apply lookup_rm_under; [discriminate | exact Hq].
  - intros q Hq. simpl. rewrite lookup_rm_other by exact Hq.
    rewrite F4 by (apply outside_neq, Hq).
    apply F. intros d _. apply outside_below, Hq.
Qed.

(** *** The stages when every collaborator works *)

Lemma last_char (a e : string) (c : ascii) :
  rev (list_ascii_of_string (a ++ e ++ String c EmptyString))
  = c :: rev (list_ascii_of_string (a ++ e)).
Proof.
  rewrite <- append_assoc_string, (list_ascii_of_string_app (a ++ e)).
  rewrite rev_app_distr. reflexivity.
Qed.

Lemma mp4_not_concat : (name ++ ".mp4")%string <> "concat_list.txt".
Proof.
  intros E. apply (f_equal (fun s => rev (list_ascii_of_string s))) in E.
  change ".mp4" with (".mp" ++ "4")%string in E.
  rewrite last_char in E. discriminate.
Qed.

Lemma mp4_not_temp : (name ++ ".mp4")%string <> "temp_segments".
Proof.
  intros E. apply (f_equal (fun s => rev (list_ascii_of_string s))) in E.
  change ".mp4" with (".mp" ++ "4")%string in E.
  rewrite last_char in E. discriminate.
Qed.

Lemma generateMusic_run env w :
  node_exec env = true -> ~ In genre Js.object_prototype ->
  exists md w',
    MusicGenerator.generateMusic genre (pd ++ ["audio.wav"]) env w
    = (Return md, w') /\
    MusicGenerator.md_genre md = genre /\
    draws w' = S (draws w) /\
    lookup (pd ++ ["temp_music_script.js"]) (files w') = None /\
    (forall q, pd ++ ["temp_music_script.js"] <> q -> pd ++ ["audio.wav"] <> q ->
               lookup q (files w') = lookup q (files w)).
Proof.
  intros Hx Hg. unfold MusicGenerator.generateMusic.
  rewrite dirname_child, join_name by reflexivity.
  unfold MusicGenerator.lookupTemplate.
  destruct (get_or_else_own MusicGenerator.genreTemplates genre "electronic" Hg)
    as [template ->]; [simpl; tauto|].
  unfold bind at 1, Math_random.
  unfold bind at 1, writeFileSync at 1, on_files. cbn [files draws].
  set (script := pd ++ ["temp_music_script.js"]).
  set (audio := pd ++ ["audio.wav"]).
  assert (Hne : audio <> script)
    by (intros E; apply child_inj in E; discriminate).
  assert (Hs : script <> [])
    by (unfold script; intros E; apply app_eq_nil in E; destruct E; discriminate).
  destruct (node_writes env) eqn:Hwr.
  - eexists. eexists. split.
    + apply try_catch_return.
      unfold bind at 1, execNode. rewrite Hx, Hwr. cbn [files draws].
      unfold bind at 1, unlinkSync.
      cbn [files].
      rewrite (lookup_write_other script audio) by exact Hne.
      rewrite lookup_write_same by exact Hs.
      reflexivity.
    + split; [reflexivity|]. split; [reflexivity|]. split.
      * cbn [files]. apply lookup_remove_same, Hs.
      * intros q Hq Ha. cbn [files].
        rewrite lookup_remove_other, !lookup_write_other by assumption.
        reflexivity.
  - eexists. eexists. split.
    + apply try_catch_return.
      unfold bind at 1, execNode. rewrite Hx, Hwr. cbn [files draws].
      unfold bind at 1, unlinkSync.
      cbn [files].
      rewrite lookup_write_same by exact Hs.
      reflexivity.
    + split; [reflexivity|]. split; [reflexivity|]. split.
      * cbn [files]. apply lookup_remove_same, Hs.
      * intros q Hq Ha. cbn [files].
        rewrite lookup_remove_other, !lookup_write_other by assumption.
        reflexivity.
Qed.

Section Frames.

Variable p : Path.t.
Variable v : option Node.
Variable dir : Path.t.
Hypothesis not_a_frame : forall f, dir ++ [f] <> p.
Hypothesis not_made : Path.is_prefix p dir = false \/ v <> None.

Ltac frame_leaves :=
  rewrite ?join_frameFile by reflexivity;
  first [ apply holds_mkdirSync, not_made
        | apply holds_writeFileSync, not_a_frame ].

Lemma generateIntro_holds seconds :
  preserves (holds p v)
    (VisualGenerator.generateIntro VisualGenerator.constructor genre dir seconds).
Proof. open_request. keep. all: frame_leaves. Qed.

Lemma generateOutro_holds seconds :
  preserves (holds p v)
    (VisualGenerator.generateOutro VisualGenerator.constructor genre dir seconds).
Proof. open_request. keep. all: frame_leaves. Qed.

Lemma generateVisuals_holds md :
  preserves (holds p v)
    (VisualGenerator.generateVisuals VisualGenerator.constructor md dir).
Proof. open_request. keep. all: frame_leaves. Qed.

End Frames.

Lemma frames_draws (k : nat) (dir : Path.t) seconds md :
  preserves (fun w => draws w = k)
    (VisualGenerator.generateIntro VisualGenerator.constructor genre dir seconds)
  /\
  preserves (fun w => draws w = k)
    (VisualGenerator.generateOutro VisualGenerator.constructor genre dir seconds)
  /\
  preserves (fun w => draws w = k)
    (VisualGenerator.generateVisuals VisualGenerator.constructor md dir).
Proof.
  repeat split; open_request; keep; apply draws_on_files.
Qed.

Lemma nonroot (dir : Path.t) (x : string) : dir ++ [x] <> [].
Proof. intros E. apply app_eq_nil in E. destruct E; discriminate. Qed.

Lemma level_neq (x y : string) : tempDir ++ [x] <> out ++ [y].
Proof. intros E. by_length. Qed.

Lemma renderComplete_run im vm om audio env w :
  (forall job, ffmpeg env job = Done) ->
  exists w',
    VideoRenderer.renderComplete im vm om audio video env w
    = (Return video, w') /\
    draws w' = draws w /\
    holds video (Some Data) w' /\
    vacant tempDir w' /\
    holds concatList None w' /\
    (forall q, Path.is_prefix tempDir q = false -> concatList <> q ->
               video <> q ->
               Path.is_prefix q tempDir = false \/ lookup q (files w) <> None ->
               lookup q (files w') = lookup q (files w)).
Proof.
  intros Hff. unfold VideoRenderer.renderComplete. cbv zeta.
  rewrite dirname_child. rewrite !join_name by reflexivity.
  set (a := tempDir ++ ["intro.mp4"]).
  set (b := tempDir ++ ["main.mp4"]).
  set (c := tempDir ++ ["outro.mp4"]).
  destruct (ensureDir_run tempDir env w) as [w1 [E1 [X1 [D1 _]]]].
  rewrite (bind_return _ _ _ _ _ _ E1).
  assert (F1 : forall q, Path.is_prefix q tempDir = false
                         \/ lookup q (files w) <> None ->
                         lookup q (files w1) = lookup q (files w)).
  { intros q Hq.
    pose proof (holds_mkdirSync q (lookup q (files w)) tempDir Hq) as P.
    assert (P' : preserves (holds q (lookup q (files w))) (ensureDir tempDir))
      by (unfold ensureDir; keep; exact P).
    specialize (P' env w eq_refl). rewrite E1 in P'. exact P'. }
  (* the three segments and the list *)
  set (wv := {| files := write video Data
                           (write concatList Data
                              (write c Data (write b Data
                                 (write a Data (files w1)))));
                draws := draws w1 |}).
  assert (Nab : a <> b) by (apply child_neq; discriminate).
  assert (Nac : a <> c) by (apply child_neq; discriminate).
  assert (Nbc : b <> c) by (apply child_neq; discriminate).
  assert (Nlv : concatList <> video)
    by (intros E; apply child_inj in E; symmetry in E; apply mp4_not_concat, E).
  assert (La : lookup a (files wv) = Some Data).
  { unfold wv. cbn [files].
    rewrite !lookup_write_other
      by first [ apply not_eq_sym, level_neq | apply not_eq_sym; assumption ].
    apply lookup_write_same, nonroot. }
  assert (Lb : lookup b (files wv) = Some Data).
  { unfold wv. cbn [files].
    rewrite !lookup_write_other
      by first [ apply not_eq_sym, level_neq | apply not_eq_sym; assumption ].
    apply lookup_write_same, nonroot. }
  assert (Lc : lookup c (files wv) = Some Data).
  { unfold wv. cbn [files].
    rewrite !lookup_write_other by apply not_eq_sym, level_neq.
    apply lookup_write_same, nonroot. }
  assert (Ll : lookup concatList (files wv) = Some Data).
  { unfold wv. cbn [files].
    rewrite lookup_write_other by (apply not_eq_sym; exact Nlv).
    apply lookup_write_same, nonroot. }
  assert (Lv : lookup video (files wv) = Some Data).
  { unfold wv. cbn [files]. apply lookup_write_same, nonroot. }
  assert (Lt : exists_ tempDir (files wv) = true).
  { unfold wv. cbn [files]. repeat apply exists_write_mono. exact X1. }
  assert (Fv : forall q, a <> q -> b <> q -> c <> q -> concatList <> q ->
                         video <> q ->
                         lookup q (files wv) = lookup q (files w1)).
  { intros q Ha Hb Hc Hl Hv. unfold wv. cbn [files].
    rewrite !lookup_write_other by assumption. reflexivity. }
  assert (Dv : draws wv = draws w1) by reflexivity.
  (* the list is unlinked, then the segments *)
  destruct (unlinkIfExists_exact concatList env wv) as [w6 [E6 [D6 [M6 F6]]]];
    [unfold not_dir; rewrite Ll; discriminate|].
  destruct (unlinkIfExists_exact a env w6) as [w7 [E7 [D7 [M7 F7]]]].
  { unfold not_dir. rewrite F6 by apply not_eq_sym, level_neq.
    rewrite La. discriminate. }
  destruct (unlinkIfExists_exact b env w7) as [w8 [E8 [D8 [M8 F8]]]].
  { unfold not_dir. rewrite F7 by exact Nab.
    rewrite F6 by apply not_eq_sym, level_neq. rewrite Lb. discriminate. }
  destruct (unlinkIfExists_exact c env w8) as [w9 [E9 [D9 [M9 F9]]]].
  { unfold not_dir. rewrite F8 by exact Nbc. rewrite F7 by exact Nac.
    rewrite F6 by apply not_eq_sym, level_neq. rewrite Lc. discriminate. }
  assert (F69 : forall q, concatList <> q -> a <> q -> b <> q -> c <> q ->
                          lookup q (files w9) = lookup q (files wv)).
  { intros q Hl Ha Hb Hc. rewrite F9, F8, F7, F6 by assumption. reflexivity. }
  assert (Ht9 : exists_ tempDir (files w9) = true).
  { unfold exists_. rewrite F69; [exact Lt | | | |];
      first [ apply child_neq_self
            | intros E; by_length
            | intros E; apply child_inj in E; discriminate ]. }
  set (w10 := {| files := filter (fun e => negb (Path.is_prefix tempDir (fst e)))
                                 (files w9);
                 draws := draws w9 |}).
  assert (Lv10 : lookup video (files w10) = Some Data).
  { unfold w10. cbn [files].
    rewrite lookup_rm_other
      by (apply is_prefix_sibling; apply not_eq_sym, mp4_not_temp).
    rewrite F69; [exact Lv | apply Nlv | | |]; apply level_neq. }
  exists w10. split.
  - apply try_catch_return.
    unfold VideoRenderer.renderIntro, VideoRenderer.renderMain,
      VideoRenderer.renderOutro, VideoRenderer.concatenateVideos. cbv zeta.
    rewrite dirname_child, join_name by reflexivity.
    unfold bind at 1. rewrite runFfmpeg_done by apply Hff. unfold ret at 1.
    unfold bind at 1. rewrite runFfmpeg_done by apply Hff. unfold ret at 1.
    unfold bind at 1. rewrite runFfmpeg_done by apply Hff. unfold ret at 1.
    unfold bind at 1. unfold bind at 1.
    unfold writeFileSync at 1, on_files. cbn [files draws].
    rewrite runFfmpeg_done by apply Hff. cbn [files draws]. fold wv.
    rewrite (bind_return _ _ _ _ _ _ E6). unfold ret at 1.
    unfold VideoRenderer.removeSegments.
    unfold bind at 1.
    rewrite (bind_return _ _ _ _ _ _ E7), (bind_return _ _ _ _ _ _ E8),
      (bind_return _ _ _ _ _ _ E9).
    unfold bind at 1, existsSync. rewrite Ht9. cbn [when].
    unfold rmSync, on_files. fold w10.
    unfold bind, statSync, exists_. rewrite Lv10. reflexivity.
  - split; [unfold w10; cbn [draws]; congruence|].
    split; [exact Lv10|]. split; [|split].
    + intros q Hq. unfold w10. cbn [files]. destruct q as [|x q].
      * destruct out; discriminate.
      * apply lookup_rm_under; [discriminate | exact Hq].
    + unfold holds, w10. cbn [files].
      rewrite lookup_rm_other by (apply is_prefix_sibling; discriminate).
      rewrite F9, F8, F7 by apply level_neq. exact M6.
    + intros q Ht Hl Hv Hq. unfold w10. cbn [files].
      rewrite lookup_rm_other by exact Ht.
      rewrite F69, Fv by first [assumption | apply outside_neq, Ht].
      apply F1, Hq.
Qed.

Lemma longer_outside (long short : Path.t) :
  (List.length short < List.length long)%nat ->
  Path.is_prefix long short = false.
Proof.
  intros H. destruct (Path.is_prefix long short) eqn:E; [|reflexivity].
  apply is_prefix_length in E. lia.
Qed.

Lemma stages_run env w :
  working env -> ~ In genre Js.object_prototype ->
  exists w',
    MusicVideoGenerator.stages VisualGenerator.constructor genre
      (pd ++ ["frames"]) (pd ++ ["intro"]) (pd ++ ["outro"])
      (pd ++ ["audio.wav"]) video env w
    = (Return video, w') /\
    draws w' = S (draws w) /\
    holds video (Some Data) w' /\
    vacant tempDir w' /\
    holds concatList None w' /\
    holds (pd ++ ["temp_music_script.js"]) None w'.
Proof.
  intros [Hx [Hc Hff]] Hg. unfold MusicVideoGenerator.stages.
  set (script := pd ++ ["temp_music_script.js"]).
  assert (Hframe : forall d f, (pd ++ [d]) ++ [f] <> script)
    by (unfold script; intros d f E; by_length).
  assert (Hdir : forall d, d <> "temp_music_script.js" ->
                           Path.is_prefix script (pd ++ [d]) = false \/
                           @None Node <> None).
  { intros d Hd. left. apply is_prefix_sibling. congruence. }
  (* music *)
  destruct (generateMusic_run env w Hx Hg) as [md [w1 [E1 [G1 [D1 [S1 _]]]]]].
  rewrite (bind_return _ _ _ _ _ _ E1).
  (* intro *)
  destruct (generateIntro_run VisualGenerator.constructor genre (pd ++ ["intro"])
              3 env w1 (Hc IntroFrame)) as [w2 [E2 _]].
  change (inject_Z 3) with 3 in E2.
  pose proof (generateIntro_holds script None (pd ++ ["intro"]) (Hframe "intro")
                (Hdir "intro" ltac:(discriminate)) 3 env w1 S1) as S2.
  pose proof (proj1 (frames_draws (draws w1) (pd ++ ["intro"]) 3 md)
                env w1 eq_refl) as D2.
  rewrite E2 in S2, D2. simpl in S2, D2.
  rewrite (bind_return _ _ _ _ _ _ E2).
  (* main *)
  destruct (generateVisuals_run VisualGenerator.constructor md (pd ++ ["frames"])
              env w2 (Hc MainFrame)) as [w3 [E3 _]];
    [rewrite G1; exact Hg|].
  pose proof (generateVisuals_holds script None (pd ++ ["frames"])
                (Hframe "frames") (Hdir "frames" ltac:(discriminate))
                md env w2 S2) as S3.
  pose proof (proj2 (proj2 (frames_draws (draws w2) (pd ++ ["frames"]) 3 md))
                env w2 eq_refl) as D3.
  rewrite E3 in S3, D3. simpl in S3, D3.
  rewrite (bind_return _ _ _ _ _ _ E3).
  (* outro *)
  destruct (generateOutro_run VisualGenerator.constructor genre (pd ++ ["outro"])
              3 env w3 (Hc OutroFrame)) as [w4 [E4 _]].
  change (inject_Z 3) with 3 in E4.
  pose proof (generateOutro_holds script None (pd ++ ["outro"]) (Hframe "outro")
                (Hdir "outro" ltac:(discriminate)) 3 env w3 S3) as S4.
  pose proof (proj1 (proj2 (frames_draws (draws w3) (pd ++ ["outro"]) 3 md))
                env w3 eq_refl) as D4.
  rewrite E4 in S4, D4. simpl in S4, D4.
  rewrite (bind_return _ _ _ _ _ _ E4).
  (* render *)
  match goal with
  | |- context [VideoRenderer.renderComplete ?im ?vm ?om ?audio video env w4] =>
      destruct (renderComplete_run im vm om audio env w4 Hff)
        as [w5 [E5 [D5 [V5 [T5 [L5 F5]]]]]]
  end.
  exists w5. split; [exact E5|]. split; [congruence|].
  split; [exact V5|]. split; [exact T5|]. split; [exact L5|].
  unfold holds. rewrite F5; [exact S4 | | | |].
  - unfold script. rewrite <- app_assoc. apply is_prefix_sibling.
    apply not_eq_sym, not_temp_segments.
  - unfold script. intros E. by_length.
  - unfold script. intros E. by_length.
  - left. apply longer_outside. unfold script. rewrite !length_app. simpl. lia.
Qed.

(** *** A whole request *)

Lemma request_run env w :
  working env -> ~ In genre Js.object_prototype ->
  normal_files w -> distinct w -> vacant pd w ->
  exists w',
    request genre out name env w = (Return video, w') /\
    draws w' = S (draws w) /\
    holds video (Some Data) w' /\
    vacant pd w' /\ vacant tempDir w' /\ holds concatList None w'.
Proof.
  intros Hwork Hg Hn Hd Hv. unfold request. cbv zeta.
  assert (Ht : tidy pd w).
  { intros q n Hq L. rewrite (Hv q Hq) in L. discriminate. }
  destruct (ensureDirs_run [pd; pd ++ ["frames"]; pd ++ ["intro"]; pd ++ ["outro"]]
              env w) as [w1 [E1 [X1 _]]].
  pose proof (dirs_tidy env w (conj Hn (conj Hd Ht))) as T1.
  assert (D1 : preserves (fun w' => draws w' = draws w)
                 (for_each [pd; pd ++ ["frames"]; pd ++ ["intro"]; pd ++ ["outro"]]
                    ensureDir))
    by (unfold ensureDir; keep; apply draws_on_files).
  specialize (D1 env w eq_refl).
  change (@for_each (list string)) with (@for_each Path.t) in T1, D1.
  rewrite E1 in T1, D1. simpl in T1, D1.
  rewrite (bind_return _ _ _ _ _ _ E1), try_catch_rethrow, pipeline_stages.
  destruct (stages_run env w1 Hwork Hg) as [w2 [E2 [D2 [V2 [M2 [L2 S2]]]]]].
  pose proof (stages_tidy env w1 T1) as T2.
  assert (X2 : forall p, In p [pd; pd ++ ["frames"]; pd ++ ["intro"]; pd ++ ["outro"]] ->
                         exists_in p w2).
  { intros p Hp.
    assert (P : preserves (exists_in p)
                  (MusicVideoGenerator.stages VisualGenerator.constructor genre
                     (pd ++ ["frames"]) (pd ++ ["intro"]) (pd ++ ["outro"])
                     (pd ++ ["audio.wav"]) video)).
    { apply stages_keep; simpl in Hp;
        destruct Hp as [<-|[<-|[<-|[<-|[]]]]];
        first [ intros E; by_length
              | intros E; apply child_inj in E; congruence
              | apply is_prefix_sibling; congruence
              | rewrite <- app_assoc; apply is_prefix_sibling; congruence ]. }
    specialize (P env w1 (X1 p Hp)). rewrite E2 in P. exact P. }
  rewrite E2 in T2. simpl in T2. destruct T2 as [Hn2 [Hd2 Ht2]].
  rewrite (bind_return _ _ _ _ _ _ E2).
  destruct (cleanup_run env w2 Hn2 Hd2 Ht2) as [w3 [E3 [D3 [V3 F3]]]];
    [apply X2; simpl; tauto | | exact S2 |].
  { intros d Hin. apply X2. simpl in Hin. simpl.
    destruct Hin as [<-|[<-|[<-|[]]]]; tauto. }
  rewrite (bind_return _ _ _ _ _ _ E3).
  exists w3. split; [reflexivity|]. split; [congruence|].
  split; [|split; [exact V3|split]].
  - unfold holds. rewrite F3; [exact V2|].
    apply beside, not_eq_sym, mp4_neq.
  - intros q Hq. apply is_prefix_spec in Hq. destruct Hq as [rest ->].
    rewrite F3 by (rewrite <- app_assoc; apply beside; assumption).
    apply M2, is_prefix_app.
  - unfold holds. rewrite F3 by (apply beside; assumption). exact L2.
Qed.

End Bundle.

End Request.

(** [generate] reads the clock, chooses the name and runs the request. *)
Lemma generate_request (this : MusicVideoGenerator.t) (genre : string)
    (outputName : option string) env w :
  let name := MusicVideoGenerator.sanitizedName genre outputName (Io.now env) in
  Path.proper_name name = true ->
  MusicVideoGenerator.generate this genre outputName env w
  = Disk.request genre (MusicVideoGenerator.outputDir this) name env w.
Proof.
  intros name Hname. unfold MusicVideoGenerator.generate, Disk.request.
  unfold Io.bind at 1, Io.Date_now. fold name.
  unfold MusicVideoGenerator.projectDir, MusicVideoGenerator.videoPath.
  rewrite (join_name _ name Hname).
  rewrite !join_name by reflexivity.
  rewrite (join_name _ (name ++ ".mp4")%string)
    by (apply proper_name_mp4, name_no_sep, Hname).
  reflexivity.
Qed.

(** X11: a request leaves the rest of the disk alone.  Whatever the
    collaborators do and however the request ends, [generate] changes
    nothing outside four places: its working directory [output/<name>] with
    what is below it, the directory [output/temp_segments] with what is below
    it, the file [output/concat_list.txt] and the video
    [output/<name>.mp4].  A path [p] outside them holds after the call what
    it held before, provided [p] existed or is not one of the directories
    above the working directory, which [mkdirSync] makes when they are
    missing.  The disk is taken to be made of names (no entry called [.],
    [..] or holding a separator), as is the output directory, and the
    working directory to be spelled with plain characters: its path is
    handed to a shell and pasted into the music script, where any other
    character could make the child process do something else. *)
Theorem generate_leaves_the_rest_alone (this : MusicVideoGenerator.t)
    (genre : string) (outputName : option string) env w (p : Path.t) :
  let name := MusicVideoGenerator.sanitizedName genre outputName (Io.now env) in
  let out := MusicVideoGenerator.outputDir this in
  Path.proper_name name = true -> Path.plain (out ++ [name]) ->
  Disk.normal out -> Disk.normal_files w ->
  Path.is_prefix (out ++ [name]) p = false ->
  Path.is_prefix (out ++ ["temp_segments"%string]) p = false ->
  out ++ ["concat_list.txt"%string] <> p ->
  out ++ [(name ++ ".mp4")%string] <> p ->
  Path.is_prefix p (out ++ [name]) = false \/ Io.exists_in p w ->
  Io.lookup p (Io.files (snd (MusicVideoGenerator.generate this genre outputName env w)))
  = Io.lookup p (Io.files w).
Proof.
  intros name out Hname _ Hout Hw Hpd Htmp Hconcat Hvideo Habove.
  rewrite generate_request by exact Hname. fold name out.
  apply (request_elsewhere genre out name Hname p (Io.lookup p (Io.files w))
           Hout Hpd Htmp Hconcat Hvideo).
  - destruct Habove as [H|H]; [left; exact H | right].
    unfold Io.exists_in, Io.exists_ in H.
    destruct (Io.lookup p (Io.files w)); [discriminate | discriminate].
  - split; [exact Hw | reflexivity].
Qed.

Lemma generate_leaves_the_rest_alone_witness :
  let w := {| Io.files := [(["srv"; "app"; "output"; "keep.mp4"], Io.Data);
                           (["srv"; "app"; "output"], Io.Directory)]%string;
              Io.draws := 0 |} in
  Io.lookup ["srv"; "app"; "output"; "keep.mp4"]%string
    (Io.files (snd (MusicVideoGenerator.generate Scenario.this "pop"%string
                      (Some "clip"%string) Scenario.intro_render_fails w)))
  = Some Io.Data.
Proof.
  intros w.
  apply (generate_leaves_the_rest_alone Scenario.this "pop"%string
           (Some "clip"%string) Scenario.intro_render_fails w
           ["srv"; "app"; "output"; "keep.mp4"]%string);
    try reflexivity; try discriminate.
  - repeat constructor.
  - repeat constructor.
  - repeat constructor.
  - left. reflexivity.
Defined.

(** X12: a request that meets no failure.  When every collaborator works
    (the child process exits cleanly, every frame is drawn, every ffmpeg run
    ends well), the genre is not a name inherited from [Object.prototype],
    the disk is well formed and nothing is yet at or below the working
    directory [output/<name>], [generate] returns the path
    [output/<name>.mp4]; a file is there; the working directory and all it
    held are gone, and so are [output/temp_segments], with anything it held
    before, and [output/concat_list.txt]; the request has taken exactly one
    number from the random source, the one that decides the duration. *)
Theorem generate_succeeds (this : MusicVideoGenerator.t) (genre : string)
    (outputName : option string) env w :
  let name := MusicVideoGenerator.sanitizedName genre outputName (Io.now env) in
  let out := MusicVideoGenerator.outputDir this in
  let video := out ++ [(name ++ ".mp4")%string] in
  Disk.working env -> ~ In genre Js.object_prototype ->
  Path.proper_name name = true ->
  name <> "temp_segments"%string -> name <> "concat_list.txt"%string ->
  Disk.normal out -> Disk.well_formed w -> Disk.vacant (out ++ [name]) w ->
  exists w',
    MusicVideoGenerator.generate this genre outputName env w
    = (Io.Return video, w') /\
    Io.draws w' = S (Io.draws w) /\
    Disk.holds video (Some Io.Data) w' /\
    Disk.vacant (out ++ [name]) w' /\
    Disk.vacant (out ++ ["temp_segments"%string]) w' /\
    Disk.holds (out ++ ["concat_list.txt"%string]) None w'.
Proof.
  intros name out video Hwork Hg Hname Ht Hc Hout [Hd Hn] Hv.
  rewrite generate_request by exact Hname. fold name out.
  apply request_run; assumption.
Qed.

Lemma generate_succeeds_witness :
  exists w',
    MusicVideoGenerator.generate Scenario.this "electronic"%string
      (Some "test_video"%string) Scenario.all_well Scenario.empty_disk
    = (Io.Return ["srv"; "app"; "output"; "test_video.mp4"]%string, w') /\
    Io.draws w' = 1%nat /\
    Disk.vacant ["srv"; "app"; "output"; "test_video"]%string w'.
Proof.
  destruct (generate_succeeds Scenario.this "electronic"%string
              (Some "test_video"%string) Scenario.all_well Scenario.empty_disk)
    as [w' [E [D [_ [V _]]]]].
  - split; [reflexivity|]. split; intros; reflexivity.
  - simpl. intuition discriminate.
  - reflexivity.
  - discriminate.
  - discriminate.
  - repeat constructor.
  - split; constructor.
  - intros [|x q] H; [discriminate | reflexivity].
  - exists w'. split; [exact E|]. split; [exact D | exact V].
Defined.

(** X13: a directory inside [frames] stops the cleanup.  When the [frames]
    directory of a working directory holds a directory, on a disk made of
    names, [_cleanupTempFiles] throws: [unlinkSync] is called on every entry
    that [readdirSync] lists and throws on a directory.  The [intro] and
    [outro] directories and the audio file are then left as they are. *)
Theorem cleanup_stops_at_a_directory (projectDir : Path.t) (sub : string) env w :
  Disk.normal_files w ->
  Io.exists_in (projectDir ++ ["frames"%string]) w ->
  Io.lookup (projectDir ++ ["frames"; sub]%string) (Io.files w)
  = Some Io.Directory ->
  exists w',
    MusicVideoGenerator._cleanupTempFiles projectDir env w
    = (Io.Throw Io.FsError, w') /\
    (forall q, Path.is_prefix (projectDir ++ ["frames"%string]) q = false ->
               Io.lookup q (Io.files w') = Io.lookup q (Io.files w)).
Proof.
  intros Hn Hx L. unfold Io.exists_in in Hx.
  unfold MusicVideoGenerator._cleanupTempFiles. cbv zeta. cbn [Io.for_each].
  rewrite !join_name by reflexivity.
  set (frames := projectDir ++ ["frames"%string]) in *.
  assert (L' : Io.lookup (frames ++ [sub]) (Io.files w) = Some Io.Directory).
  { unfold frames. rewrite <- app_assoc. exact L. }
  destruct (readdir_lists frames sub Io.Directory env w L') as [names [E Hin]].
  destruct (readdir_names frames env w Hn) as [names' [E' Hnames]].
  rewrite E in E'. injection E' as <-.
  destruct (unlink_directory frames sub names env w Hin Hnames L') as [w' Eu].
  assert (F : Io.preserves
                (fun v => forall q, Path.is_prefix frames q = false ->
                                    Io.lookup q (Io.files v) = Io.lookup q (Io.files w))
                (Io.for_each names
                   (fun file => Io.unlinkSync (Path.join frames file)))).
  { apply preserves_for_each_in. intros file Hfile env0 v Hv q Hq.
    rewrite Forall_forall in Hnames.
    rewrite (join_name frames file (Hnames file Hfile)).
    rewrite <- (Hv q Hq).
    apply (holds_unlinkSync q (Io.lookup q (Io.files v)) (frames ++ [file])
             (outside_neq frames [file] q Hq) env0 v eq_refl). }
  specialize (F env w (fun q _ => eq_refl)). rewrite Eu in F.
  exists w'. split; [|exact F].
  unfold Io.bind at 1. unfold Io.bind at 1. unfold Io.bind at 1.
  unfold Io.existsSync at 1. rewrite Hx. cbn [Io.when].
  rewrite (bind_return _ _ _ _ _ _ E), (bind_throw _ _ _ _ _ _ Eu).
  reflexivity.
Qed.

Lemma cleanup_stops_at_a_directory_witness :
  let w := {| Io.files := [(["out"; "clip"; "frames"; "old"], Io.Directory);
                           (["out"; "clip"; "frames"], Io.Directory);
                           (["out"; "clip"; "audio.wav"], Io.Data)]%string;
              Io.draws := 0 |} in
  exists w',
    MusicVideoGenerator._cleanupTempFiles ["out"; "clip"]%string
      Scenario.all_well w = (Io.Throw Io.FsError, w') /\
    Io.lookup ["out"; "clip"; "audio.wav"]%string (Io.files w') = Some Io.Data.
Proof.
  intros w.
  destruct (cleanup_stops_at_a_directory ["out"; "clip"]%string "old"%string
              Scenario.all_well w) as [w' [E F]];
    try reflexivity; try (repeat constructor).
  exists w'. split; [exact E|]. apply F. reflexivity.
Defined.

(** ** The geometry of a main frame *)

Section SceneGeometry.

Local Open Scope R_scope.

Lemma Q2R_num (i : nat) : Q2R (Js.num i) = INR i.
Proof.
  unfold Js.num, Q2R. simpl. rewrite <- INR_IZR_INZ. field.
Qed.

Lemma intensity_range (beat : Q) : 0 <= VisualGenerator.intensity beat <= 1.
Proof.
  unfold VisualGenerator.intensity.
  pose proof (SIN_bound (Q2R beat * PI)). lra.
Qed.

Lemma barHeight_range (beat : Q) (x : R) (style : VisualGenerator.Style) (i : nat) :
  0 <= x <= 1 -> (0 <= VisualGenerator.waveAmplitude style)%Z ->
  0 <= VisualGenerator.barHeight beat x style i
    <= IZR (VisualGenerator.waveAmplitude style).
Proof.
  intros Hx Ha. unfold VisualGenerator.barHeight. cbv zeta.
  pose proof (SIN_bound (Q2R (VisualGenerator.barPhase beat i) * PI)) as Hs.
  apply IZR_le in Ha.
  set (s := sin _ * 0.5 + 0.5) in *.
  set (a := IZR (VisualGenerator.waveAmplitude style)) in *.
  assert (Hs1 : 0 <= s <= 1) by (unfold s; lra).
  clearbody s a.
  assert (0 <= s * a <= a) by nra.
  nra.
Qed.

Lemma registered_style (genre : string) (style : VisualGenerator.Style) :
  VisualGenerator._getVisualStyle genre = Js.Own style ->
  In style (map snd VisualGenerator.styles).
Proof.
  unfold VisualGenerator._getVisualStyle, Js.get, VisualGenerator.styles.
  cbn [Js.own_property map snd].
  repeat match goal with
         | |- context [String.eqb ?k genre] =>
             destruct (String.eqb k genre);
             [intros E; injection E as <-; simpl; tauto|]
         end.
  destruct (existsb _ _); simpl; [discriminate|].
  intros E. injection E as <-. tauto.
Qed.

Lemma registered_amplitude (genre : string) (style : VisualGenerator.Style) :
  VisualGenerator._getVisualStyle genre = Js.Own style ->
  (0 <= VisualGenerator.waveAmplitude style <= 270)%Z.
Proof.
  intros H. apply registered_style in H. simpl in H.
  destruct H as [<- | [<- | [<- | [<- | [<- | []]]]]]; simpl; lia.
Qed.

Lemma bars_inside (beat : Q) (x : R) (style : VisualGenerator.Style) :
  0 <= x <= 1 -> (0 <= VisualGenerator.waveAmplitude style <= 270)%Z ->
  Forall (Frame.inside 1920 1080)
         (VisualGenerator._drawVisualizer VisualGenerator.constructor beat x style).
Proof.
  intros Hx [Ha Hb]. unfold VisualGenerator._drawVisualizer. cbv zeta.
  rewrite for_indices_nat. apply Forall_forall. intros d Hd.
  apply in_map_iff in Hd. destruct Hd as [i [<- Hi]]. apply in_seq in Hi.
  pose proof (barHeight_range beat x style i Hx Ha) as Hh.
  apply IZR_le in Hb.
  assert (Hw : Q2R (inject_Z (VisualGenerator.width VisualGenerator.constructor)
                    / Js.num VisualGenerator.barCount) = 30).
  { unfold Q2R. simpl. lra. }
  assert (Hc : Q2R (inject_Z (VisualGenerator.height VisualGenerator.constructor) / 2)
               = 540).
  { unfold Q2R. simpl. lra. }
  assert (Hn : 0 <= INR i <= 63).
  { split; [apply pos_INR|]. replace 63 with (INR 63) by (simpl; lra).
    apply le_INR. unfold VisualGenerator.barCount in Hi. lia. }
  cbv beta iota delta [Frame.inside]. rewrite Hw, Hc, Q2R_num. lra.
Qed.

Lemma particles_inside (time beat : Q) (style : VisualGenerator.Style) :
  Forall (Frame.inside 1920 1080)
         (VisualGenerator._drawParticles VisualGenerator.constructor time beat style).
Proof.
  unfold VisualGenerator._drawParticles. cbv zeta.
  apply Forall_forall. intros d Hd.
  apply in_map_iff in Hd. destruct Hd as [i [<- _]].
  assert (Hc : Q2R (inject_Z (VisualGenerator.width VisualGenerator.constructor) / 2)
               = 960).
  { unfold Q2R. simpl. lra. }
  assert (Hm : Q2R (inject_Z (VisualGenerator.height VisualGenerator.constructor) / 2)
               = 540).
  { unfold Q2R. simpl. lra. }
  cbv beta iota delta [Frame.inside]. unfold Frame.clear. cbn [fst snd]. rewrite Hc, Hm.
  set (angle := Q2R (Js.num i / inject_Z (VisualGenerator.particleCount style))
                * PI * 2 + Q2R time * 0.5).
  pose proof (SIN_bound (Q2R (beat + Js.num i))) as H1.
  pose proof (SIN_bound (Q2R (beat * 2 + Js.num i))) as H2.
  pose proof (COS_bound angle) as H3.
  pose proof (SIN_bound angle) as H4.
  set (r := 300 + sin (Q2R (beat + Js.num i)) * 100) in *.
  assert (Hr : 200 <= r <= 400) by (unfold r; lra).
  assert (-400 <= cos angle * r <= 400) by nra.
  assert (-400 <= sin angle * r <= 400) by nra.
  lra.
Qed.

Lemma place_polar (t : R * R) (a theta s : R) :
  Frame.place t a (cos theta * s, sin theta * s)
  = (fst t + s * cos (theta + a), snd t + s * sin (theta + a)).
Proof.
  unfold Frame.place. cbn [fst snd]. rewrite cos_plus, sin_plus.
  f_equal; ring.
Qed.

Lemma polar_clear (a theta s : R) :
  0 <= s <= 250 -> Frame.clear 1920 1080 3 (Frame.place (960, 540) a (cos theta * s, sin theta * s)).
Proof.
  intros Hs. rewrite place_polar. unfold Frame.clear. cbn [fst snd].
  pose proof (COS_bound (theta + a)). pose proof (SIN_bound (theta + a)).
  assert (-250 <= s * cos (theta + a) <= 250) by nra.
  assert (-250 <= s * sin (theta + a) <= 250) by nra.
  lra.
Qed.

Lemma patterns_inside (beat : Q) (style : VisualGenerator.Style) :
  Forall (Frame.inside 1920 1080)
         (VisualGenerator._drawGeometricPatterns VisualGenerator.constructor beat style).
Proof.
  unfold VisualGenerator._drawGeometricPatterns. cbv zeta.
  assert (Hc : Q2R (inject_Z (VisualGenerator.width VisualGenerator.constructor) / 2)
               = 960).
  { unfold Q2R. simpl. lra. }
  assert (Hm : Q2R (inject_Z (VisualGenerator.height VisualGenerator.constructor) / 2)
               = 540).
  { unfold Q2R. simpl. lra. }
  rewrite Hc, Hm.
  apply Forall_forall. intros d Hd.
  apply in_map_iff in Hd. destruct Hd as [i [<- Hi]].
  apply for_indices_spec in Hi.
  assert (Hn : (i <= 2)%nat).
  { unfold Js.num in Hi. unfold Qlt in Hi. simpl in Hi. lia. }
  assert (Hs : 0 <= 150 + INR i * 50 <= 250).
  { pose proof (pos_INR i). apply le_INR in Hn. simpl in Hn. lra. }
  destruct (String.eqb _ _); cbv beta iota delta [Frame.inside].
  - apply Forall_forall. intros v Hv.
    apply in_map_iff in Hv. destruct Hv as [j [<- _]].
    apply polar_clear, Hs.
  - split; [lra|]. unfold Frame.clear. cbn [fst snd]. lra.
Qed.

(** X14: nothing is drawn off the canvas.  For every genre whose style is
    found, every beat and every time, each draw call of a main frame stays
    on the 1920 by 1080 canvas: the background covers it, the 64 bars are 28
    pixels wide at 30 pixel steps and at most 4 * waveAmplitude high about
    the middle line, every particle is a disc of radius 2 to 8 whose centre
    is 200 to 400 pixels from the centre, and the three outlines have radius
    150, 200 and 250.  Read over the real numbers. *)
Theorem frame_stays_on_canvas (genre : string) (style : VisualGenerator.Style)
    (beat time : Q) :
  VisualGenerator._getVisualStyle genre = Js.Own style ->
  Forall (Frame.inside 1920 1080)
         (VisualGenerator.frameScene VisualGenerator.constructor beat time style).
Proof.
  intros H. unfold VisualGenerator.frameScene. constructor.
  - simpl. lra.
  - apply Forall_app. split; [|apply Forall_app; split].
    + apply bars_inside; [apply intensity_range|].
      apply (registered_amplitude genre), H.
    + apply particles_inside.
    + apply patterns_inside.
Qed.

Lemma frame_stays_on_canvas_witness :
  Forall (Frame.inside 1920 1080)
         (VisualGenerator.frameScene VisualGenerator.constructor (7 # 3) (35 # 32)
            VisualGenerator.ambient).
Proof.
  apply (frame_stays_on_canvas "ambient"%string). reflexivity.
Defined.

Lemma sin_two_more (x y : R) : y = x + 2 -> sin (y * PI) = sin (x * PI).
Proof.
  intros ->. replace ((x + 2) * PI) with (x * PI + 2 * PI) by ring.
  rewrite sin_plus, sin_2PI, cos_2PI. ring.
Qed.

Lemma bars_two_beats_on (this : VisualGenerator.t) (style : VisualGenerator.Style)
    (b b' : Q) :
  (b' == b + 2)%Q ->
  VisualGenerator._drawVisualizer this b' (VisualGenerator.intensity b') style
  = VisualGenerator._drawVisualizer this b (VisualGenerator.intensity b) style.
Proof.
  intros Hb. unfold VisualGenerator._drawVisualizer. cbv zeta.
  assert (Hi : VisualGenerator.intensity b' = VisualGenerator.intensity b).
  { unfold VisualGenerator.intensity. f_equal. f_equal.
    apply sin_two_more. rewrite (Qeq_eqR _ _ Hb), Q2R_plus.
    f_equal. unfold Q2R. simpl. lra. }
  rewrite Hi. apply map_ext. intros i.
  assert (Hh : VisualGenerator.barHeight b' (VisualGenerator.intensity b) style i
               = VisualGenerator.barHeight b (VisualGenerator.intensity b) style i).
  { unfold VisualGenerator.barHeight. cbv zeta. f_equal. f_equal. f_equal. f_equal.
    apply sin_two_more. unfold VisualGenerator.barPhase. cbv zeta.
    rewrite <- (Q2R_plus _ 2) || idtac.
    assert (E : (b' + Js.num i / Js.num VisualGenerator.barCount * 4
                 == b + Js.num i / Js.num VisualGenerator.barCount * 4 + 2)%Q)
      by (rewrite Hb; ring).
    rewrite (Qeq_eqR _ _ E), Q2R_plus. f_equal. unfold Q2R. simpl. lra. }
  rewrite Hh. reflexivity.
Qed.

(** X15: the bars loop every two beats.  In the frames [generateVisuals]
    draws, frame [k + p] shows the same 64 bars as frame [k] whenever [p]
    frames last two beats, that is [p * tempo = 120 * fps]: both the
    intensity and the phase of every bar are sines of the beat times pi.
    Read over the real numbers. *)
Theorem bars_repeat_every_two_beats (this : VisualGenerator.t)
    (style : VisualGenerator.Style) (tempo : Z) (k p : nat) :
  (0 < VisualGenerator.fps this)%Z ->
  (Z.of_nat p * tempo = 120 * VisualGenerator.fps this)%Z ->
  let beat := fun frameNum : nat =>
    (Js.num frameNum / inject_Z (VisualGenerator.fps this)
     * (inject_Z tempo / 60))%Q in
  VisualGenerator._drawVisualizer this (beat (k + p)%nat)
    (VisualGenerator.intensity (beat (k + p)%nat)) style
  = VisualGenerator._drawVisualizer this (beat k)
      (VisualGenerator.intensity (beat k)) style.
Proof.
  intros Hf Hp beat. apply bars_two_beats_on. unfold beat, Js.num.
  rewrite Nat2Z.inj_add, inject_Z_plus.
  assert (Hq : (inject_Z (Z.of_nat p) * inject_Z tempo
                == 120 * inject_Z (VisualGenerator.fps this))%Q).
  { rewrite <- inject_Z_mult, Hp, inject_Z_mult. reflexivity. }
  assert (Hz : ~ (inject_Z (VisualGenerator.fps this) == 0)%Q).
  { intros E. unfold Qeq in E. simpl in E. lia. }
  set (f := inject_Z (VisualGenerator.fps this)) in *.
  set (P := inject_Z (Z.of_nat p)) in *.
  set (T := inject_Z tempo) in *.
  set (K := inject_Z (Z.of_nat k)) in *.
  assert (E : ((K + P) / f * (T / 60) == K / f * (T / 60) + (P * T) / (60 * f))%Q)
    by (field; exact Hz).
  rewrite E, Hq. field. exact Hz.
Qed.

Lemma bars_repeat_every_two_beats_witness :
  let beat := fun frameNum : nat =>
    (Js.num frameNum / inject_Z 30 * (inject_Z 120 / 60))%Q in
  VisualGenerator._drawVisualizer VisualGenerator.constructor (beat 37%nat)
    (VisualGenerator.intensity (beat 37%nat)) VisualGenerator.pop
  = VisualGenerator._drawVisualizer VisualGenerator.constructor (beat 7%nat)
      (VisualGenerator.intensity (beat 7%nat)) VisualGenerator.pop.
Proof.
  apply (bars_repeat_every_two_beats VisualGenerator.constructor
           VisualGenerator.pop 120 7 30); reflexivity.
Defined.

(** X16: the pulse of a frame.  The intensity sin(beat * pi) / 2 + 1/2 lies
    between 0 and 1; on every whole beat it is 1/2, half a beat after an
    even beat it is 1, and half a beat after an odd beat it is 0: the
    brightest frames fall between the beats, not on them.  Read over the
    real numbers. *)
Theorem intensity_profile (beat : Q) (n : nat) :
  0 <= VisualGenerator.intensity beat <= 1 /\
  VisualGenerator.intensity (Js.num n) = 1 / 2 /\
  VisualGenerator.intensity (Js.num (2 * n) + (1 # 2))%Q = 1 /\
  VisualGenerator.intensity (Js.num (2 * n + 1) + (1 # 2))%Q = 0.
Proof.
  split; [apply intensity_range|]. unfold VisualGenerator.intensity.
  repeat split.
  - rewrite Q2R_num. rewrite (sin_eq_0_1 (INR n * PI)); [lra|].
    exists (Z.of_nat n). rewrite <- INR_IZR_INZ. reflexivity.
  - rewrite Q2R_plus, Q2R_num, mult_INR.
    replace (Q2R (1 # 2)) with (1 / 2) by (unfold Q2R; simpl; lra).
    replace ((INR 2 * INR n + 1 / 2) * PI) with (PI / 2 + 2 * INR n * PI)
      by (simpl; field).
    rewrite sin_period, sin_PI2. lra.
  - rewrite Q2R_plus, Q2R_num, plus_INR, mult_INR.
    replace (Q2R (1 # 2)) with (1 / 2) by (unfold Q2R; simpl; lra).
    replace ((INR 2 * INR n + INR 1 + 1 / 2) * PI)
      with (3 * (PI / 2) + 2 * INR n * PI) by (simpl; field).
    rewrite sin_period, sin_3PI2. lra.
Qed.

End SceneGeometry.

(** ** The command line *)

Section CommandLine.

Local Open Scope string_scope.
Local Open Scope list_scope.

Lemma includes_In (args : list string) (s : string) :
  Cli.includes args s = true <-> In s args.
Proof.
  unfold Cli.includes. rewrite existsb_exists. split.
  - intros [x [Hin E]]. apply String.eqb_eq in E. subst. exact Hin.
  - intros H. exists s. split; [exact H | apply String.eqb_refl].
Qed.

Lemma registered_genre (g : string) :
  Cli.includes MusicVideoGenerator.listGenres g = true ->
  In g ["electronic"; "ambient"; "hiphop"; "pop"; "techno"] /\
  ~ In g Js.object_prototype.
Proof.
  intros H. apply includes_In in H.
  change MusicVideoGenerator.listGenres
    with ["electronic"; "ambient"; "hiphop"; "pop"; "techno"] in H.
  split; [exact H|]. simpl in H.
  destruct H as [<- | [<- | [<- | [<- | [<- | []]]]]];
    simpl; intuition discriminate.
Qed.

(** X17: the command line ends with a code, never with an error.  For every
    argument list, clock, collaborator behaviour and disk, the main block
    reaches [process.exit]: with 0 after the usage text, the genre list or a
    video, with 1 after an unknown genre or a failed generation.  A video is
    only reported, and a generation only attempted, for one of the five
    registered genres; every error [generate] throws is caught. *)
Theorem cli_exit_code (dirname : Path.t) (args : list string) env w :
  exists report code w',
    Cli.main dirname args env w = (Io.Return (report, code), w') /\
    match report with
    | Cli.Usage | Cli.Genres _ => code = 0%Z /\ w' = w
    | Cli.UnknownGenre g _ =>
        code = 1%Z /\ w' = w /\
        ~ In g ["electronic"; "ambient"; "hiphop"; "pop"; "techno"]
    | Cli.Success p =>
        code = 0%Z /\
        In (Cli.genre args) ["electronic"; "ambient"; "hiphop"; "pop"; "techno"] /\
        MusicVideoGenerator.generate (MusicVideoGenerator.constructor dirname)
          (Cli.genre args) (Cli.outputName args) env w = (Io.Return p, w')
    | Cli.GenerationFailed e =>
        code = 1%Z /\
        In (Cli.genre args) ["electronic"; "ambient"; "hiphop"; "pop"; "techno"] /\
        MusicVideoGenerator.generate (MusicVideoGenerator.constructor dirname)
          (Cli.genre args) (Cli.outputName args) env w = (Io.Throw e, w')
    end.
Proof.
  unfold Cli.main.
  destruct (Cli.wantsHelp args);
    [exists Cli.Usage, 0%Z, w; split; [reflexivity | auto]|].
  destruct (Cli.wantsList args);
    [exists (Cli.Genres MusicVideoGenerator.listGenres), 0%Z, w;
     split; [reflexivity | auto]|].
  cbv zeta.
  destruct (Cli.includes MusicVideoGenerator.listGenres (Cli.genre args)) eqn:Hg;
    cbn [negb].
  - apply registered_genre in Hg. destruct Hg as [Hg _].
    unfold Io.try_catch, Io.bind.
    destruct (MusicVideoGenerator.generate _ _ _ env w) as [[p|e] w'] eqn:E.
    + exists (Cli.Success p), 0%Z, w'. auto.
    + exists (Cli.GenerationFailed e), 1%Z, w'. auto.
  - exists (Cli.UnknownGenre (Cli.genre args) MusicVideoGenerator.listGenres),
      1%Z, w.
    split; [reflexivity|]. split; [reflexivity|].
    split; [reflexivity|]. intros H.
    apply (includes_In MusicVideoGenerator.listGenres) in H. congruence.
Qed.

(** X18: flags come first, then the genre check, and neither touches the
    disk.  [--help] or [-h] anywhere among the arguments prints the usage
    text, whatever else is given; otherwise [--list] or [-l] anywhere prints
    the five genres; otherwise a first argument that is not one of the five
    genres (a name inherited from [Object.prototype] included) is refused
    with code 1.  In all three cases the disk and the random source are as
    they were.  A missing or empty first argument stands for electronic. *)
Theorem cli_refuses_before_any_effect (dirname : Path.t) (args : list string) env w :
  (In "--help" args \/ In "-h" args ->
   Cli.main dirname args env w = (Io.Return (Cli.Usage, 0%Z), w)) /\
  (~ In "--help" args -> ~ In "-h" args -> In "--list" args \/ In "-l" args ->
   Cli.main dirname args env w
   = (Io.Return (Cli.Genres ["electronic"; "ambient"; "hiphop"; "pop"; "techno"],
                 0%Z), w)) /\
  (~ In "--help" args -> ~ In "-h" args -> ~ In "--list" args -> ~ In "-l" args ->
   ~ In (hd "" args) ["electronic"; "ambient"; "hiphop"; "pop"; "techno"; ""] ->
   Cli.main dirname args env w
   = (Io.Return (Cli.UnknownGenre (hd "" args)
                   ["electronic"; "ambient"; "hiphop"; "pop"; "techno"], 1%Z), w)) /\
  (hd "" args = "" -> Cli.genre args = "electronic").
Proof.
  assert (Hflag : forall a b, Cli.includes args a || Cli.includes args b = true
                              <-> In a args \/ In b args).
  { intros a b. rewrite orb_true_iff, !includes_In. reflexivity. }
  assert (Hnone : forall a b, ~ In a args -> ~ In b args ->
                              Cli.includes args a || Cli.includes args b = false).
  { intros a b Ha Hb. apply not_true_is_false. rewrite Hflag. tauto. }
  unfold Cli.main, Cli.wantsHelp, Cli.wantsList. repeat split.
  - intros H. apply Hflag in H. rewrite H. reflexivity.
  - intros H1 H2 H. rewrite (Hnone _ _ H1 H2). apply Hflag in H. rewrite H.
    reflexivity.
  - intros H1 H2 H3 H4 Hg. rewrite (Hnone _ _ H1 H2), (Hnone _ _ H3 H4).
    cbv zeta.
    assert (E : Cli.genre args = hd "" args).
    { unfold Cli.genre, Cli.argument. destruct args as [|[|c s] rest]; simpl in *;
        first [reflexivity | exfalso; tauto]. }
    rewrite E.
    assert (N : Cli.includes MusicVideoGenerator.listGenres (hd "" args) = false).
    { apply not_true_is_false. intros H. apply registered_genre in H.
      simpl in Hg, H. tauto. }
    rewrite N. reflexivity.
  - intros H. unfold Cli.genre, Cli.argument.
    destruct args as [|[|c s] rest]; simpl in *;
      first [reflexivity | discriminate].
Qed.

Lemma cli_refuses_before_any_effect_witness :
  Cli.main ["srv"; "app"] ["pop"; "--help"] Scenario.all_well Scenario.empty_disk
  = (Io.Return (Cli.Usage, 0%Z), Scenario.empty_disk) /\
  Cli.main ["srv"; "app"] ["jazz"; "-l"] Scenario.all_well Scenario.empty_disk
  = (Io.Return (Cli.Genres ["electronic"; "ambient"; "hiphop"; "pop"; "techno"],
                0%Z), Scenario.empty_disk) /\
  Cli.main ["srv"; "app"] ["constructor"; "clip"] Scenario.all_well Scenario.empty_disk
  = (Io.Return (Cli.UnknownGenre "constructor"
                  ["electronic"; "ambient"; "hiphop"; "pop"; "techno"], 1%Z),
     Scenario.empty_disk).
Proof.
  split; [|split].
  - apply (cli_refuses_before_any_effect ["srv"; "app"] ["pop"; "--help"]).
    left. simpl. tauto.
  - apply (cli_refuses_before_any_effect ["srv"; "app"] ["jazz"; "-l"]);
      simpl; intuition discriminate.
  - apply (cli_refuses_before_any_effect ["srv"; "app"] ["constructor"; "clip"]);
      simpl; intuition discriminate.
Defined.

(** X19: from the command line to the video.  With no flag among the
    arguments, a registered genre first and a name that is a single path
    component (or no name: then the name is made from the genre and the
    clock), when every collaborator works and nothing is yet at or below
    [output/<name>] on a well-formed disk, the process exits with 0 after
    reporting [output/<name>.mp4]; a file is there and the working directory
    is gone. *)
Theorem cli_makes_the_video (dirname : Path.t) (args : list string) env w :
  let this := MusicVideoGenerator.constructor dirname in
  let out := MusicVideoGenerator.outputDir this in
  let name :=
    MusicVideoGenerator.sanitizedName (Cli.genre args) (Cli.outputName args)
      (Io.now env) in
  let video := out ++ [(name ++ ".mp4")%string] in
  Cli.wantsHelp args = false -> Cli.wantsList args = false ->
  In (Cli.genre args) MusicVideoGenerator.listGenres ->
  Path.proper_name name = true ->
  name <> "temp_segments" -> name <> "concat_list.txt" ->
  Disk.working env -> Disk.normal out -> Disk.well_formed w ->
  Disk.vacant (out ++ [name]) w ->
  exists w',
    Cli.main dirname args env w = (Io.Return (Cli.Success video, 0%Z), w') /\
    Disk.holds video (Some Io.Data) w' /\
    Disk.vacant (out ++ [name]) w'.
Proof.
  intros this out name video Hh Hl Hg Hname Ht Hc Hwork Hout [Hd Hn] Hv.
  apply includes_In in Hg. pose proof (registered_genre _ Hg) as [_ Hp].
  unfold Cli.main. rewrite Hh, Hl. cbv zeta. rewrite Hg. cbn [negb].
  fold this.
  destruct (request_run (Cli.genre args) out name Hname Hout Ht Hc env w
              Hwork Hp Hn Hd Hv) as [w' [E [_ [Hvideo [Hgone _]]]]].
  exists w'. split; [|split; assumption].
  unfold Io.try_catch, Io.bind.
  rewrite generate_request by exact Hname. fold name out. rewrite E.
  reflexivity.
Qed.

Lemma cli_makes_the_video_witness :
  exists w',
    Cli.main ["srv"; "app"] ["techno"; "clip"] Scenario.all_well Scenario.empty_disk
    = (Io.Return (Cli.Success ["srv"; "app"; "output"; "clip.mp4"], 0%Z), w') /\
    Disk.holds ["srv"; "app"; "output"; "clip.mp4"] (Some Io.Data) w'.
Proof.
  destruct (cli_makes_the_video ["srv"; "app"] ["techno"; "clip"]
              Scenario.all_well Scenario.empty_disk)
    as [w' [E [H _]]].
  - reflexivity.
  - reflexivity.
  - simpl. tauto.
  - reflexivity.
  - discriminate.
  - discriminate.
  - split; [reflexivity|]. split; intros; reflexivity.
  - repeat constructor.
  - split; constructor.
  - intros [|x q] H; [discriminate | reflexivity].
  - exists w'. split; [exact E | exact H].
Defined.

End CommandLine.

(** ** A render that fails *)

Section RenderFailure.

Import Io Disk.
Local Open Scope io_scope.
Local Open Scope string_scope.
Local Open Scope list_scope.

Variable dir : Path.t.
Variable file : string.
Hypothesis not_temp_segments : file <> "temp_segments".
Hypothesis not_concat_list : file <> "concat_list.txt".

Local Notation "'out'" := (dir ++ [file]).
Local Notation "'tempDir'" := (dir ++ ["temp_segments"]).
Local Notation "'concatList'" := (dir ++ ["concat_list.txt"]).
Local Notation "'introPath'" := ((dir ++ ["temp_segments"]) ++ ["intro.mp4"]).
Local Notation "'mainPath'" := ((dir ++ ["temp_segments"]) ++ ["main.mp4"]).
Local Notation "'outroPath'" := ((dir ++ ["temp_segments"]) ++ ["outro.mp4"]).

Lemma try_catch_throw {A : Type} (m : IO A) (h : Error -> IO A) env w e w' :
  m env w = (Throw e, w') -> try_catch m h env w = h e env w'.
Proof. intros H. unfold try_catch. now rewrite H. Qed.

Lemma runFfmpeg_failed {A : Type} (job : Job) (q : Path.t) (on_end : IO A)
    (on_error : Error -> IO A) (partial : bool) env w :
  ffmpeg env job = Failed partial ->
  runFfmpeg job q on_end on_error env w
  = on_error (FfmpegError job) env
      (if partial
       then {| files := write q Data (files w); draws := draws w |}
       else w).
Proof. intros H. unfold runFfmpeg. now rewrite H. Qed.

Lemma segment_neq (x : string) : tempDir ++ [x] <> out.
Proof.
  intros E. apply (f_equal (@List.length string)) in E.
  rewrite !length_app in E. simpl in E. lia.
Qed.

Lemma out_nonroot : out <> [].
Proof. intros E. apply app_eq_nil in E. destruct E; discriminate. Qed.

Lemma list_nonroot : concatList <> [].
Proof. intros E. apply app_eq_nil in E. destruct E; discriminate. Qed.

Lemma list_neq_out : concatList <> out.
Proof. intros E. apply child_inj in E. congruence. Qed.

(** The body of the [try] block when the run of [job] is the first to
    fail. *)
Lemma render_body_fails im vm om audio (job : Job) (partial : bool) env w :
  Forall (fun j => ffmpeg env j = Done) (earlier job) ->
  ffmpeg env job = Failed partial ->
  exists w',
    (VideoRenderer.renderIntro im audio introPath ;;
     VideoRenderer.renderMain vm audio mainPath ;;
     VideoRenderer.renderOutro om outroPath ;;
     VideoRenderer.concatenateVideos [introPath; mainPath; outroPath] out ;;
     VideoRenderer.removeSegments introPath mainPath outroPath tempDir ;;
     statSync out ;;
     ret out) env w
    = (Throw (FfmpegError job), w') /\
    draws w' = draws w /\
    lookup out (files w')
    = match job, partial with
      | Concat, true => Some Data
      | _, _ => lookup out (files w)
      end.
Proof.
  intros Hdone Hfail.
  unfold VideoRenderer.renderIntro, VideoRenderer.renderMain,
    VideoRenderer.renderOutro, VideoRenderer.concatenateVideos. cbv zeta.
  rewrite dirname_child, join_name by reflexivity.
  destruct job; unfold earlier in Hdone.
  - unfold bind at 1. rewrite (runFfmpeg_failed _ _ _ _ partial) by exact Hfail.
    unfold throw. eexists. split; [reflexivity|].
    destruct partial; cbn [files draws]; split; try reflexivity.
    apply lookup_write_other, segment_neq.
  - inversion Hdone as [|? ? H1 _]; subst.
    unfold bind at 1. rewrite runFfmpeg_done by exact H1. unfold ret at 1.
    unfold bind at 1. rewrite (runFfmpeg_failed _ _ _ _ partial) by exact Hfail.
    unfold throw. eexists. split; [reflexivity|].
    destruct partial; cbn [files draws]; split; try reflexivity;
      rewrite !lookup_write_other by apply segment_neq; reflexivity.
  - inversion Hdone as [|? ? H1 Hdone']; subst.
    inversion Hdone' as [|? ? H2 _]; subst.
    unfold bind at 1. rewrite runFfmpeg_done by exact H1. unfold ret at 1.
    unfold bind at 1. rewrite runFfmpeg_done by exact H2. unfold ret at 1.
    unfold bind at 1. rewrite (runFfmpeg_failed _ _ _ _ partial) by exact Hfail.
    unfold throw. eexists. split; [reflexivity|].
    destruct partial; cbn [files draws]; split; try reflexivity;
      rewrite !lookup_write_other by apply segment_neq; reflexivity.
  - inversion Hdone as [|? ? H1 Hdone']; subst.
    inversion Hdone' as [|? ? H2 Hdone'']; subst.
    inversion Hdone'' as [|? ? H3 _]; subst.
    unfold bind at 1. rewrite runFfmpeg_done by exact H1. unfold ret at 1.
    unfold bind at 1. rewrite runFfmpeg_done by exact H2. unfold ret at 1.
    unfold bind at 1. rewrite runFfmpeg_done by exact H3. unfold ret at 1.
    unfold bind at 1. unfold bind at 1.
    unfold writeFileSync at 1, on_files. cbn [files draws].
    rewrite (runFfmpeg_failed _ _ _ _ partial) by exact Hfail.
    set (wl := {| files := write concatList Data _; draws := draws w |}).
    set (wf := if partial
               then {| files := write out Data (files wl); draws := draws wl |}
               else wl).
    assert (Ll : lookup concatList (files wf) = Some Data).
    { unfold wf. destruct partial; cbn [files].
      - rewrite lookup_write_other by (apply not_eq_sym, list_neq_out).
        apply lookup_write_same, list_nonroot.
      - apply lookup_write_same, list_nonroot. }
    destruct (unlinkIfExists_exact concatList env wf) as [w6 [E6 [D6 [_ F6]]]];
      [unfold not_dir; rewrite Ll; discriminate|].
    exists w6. split; [|split].
    + rewrite (bind_return _ _ _ _ _ _ E6). reflexivity.
    + rewrite D6. unfold wf. destruct partial; reflexivity.
    + rewrite F6 by apply list_neq_out. unfold wf.
      destruct partial; cbn [files].
      * apply lookup_write_same, out_nonroot.
      * unfold wl. cbn [files].
        rewrite lookup_write_other by apply list_neq_out.
        rewrite !lookup_write_other by apply segment_neq. reflexivity.
Qed.

Lemma removeSegments_keeps (v : option Node) :
  preserves (holds out v)
    (VideoRenderer.removeSegments introPath mainPath outroPath tempDir).
Proof.
  unfold VideoRenderer.removeSegments, VideoRenderer.unlinkIfExists.
  keep;
    first [ apply holds_unlinkSync, segment_neq
          | apply holds_rmSync, is_prefix_sibling; congruence ].
Qed.

Lemma ensureDir_keeps_out (v : option Node) :
  preserves (holds out v) (ensureDir tempDir).
Proof.
  unfold ensureDir. keep. apply holds_mkdirSync. left.
  apply (is_prefix_sibling dir [] file "temp_segments"), not_temp_segments.
Qed.

Lemma renderComplete_fails im vm om audio (job : Job) (partial : bool) env w :
  not_dir introPath w -> not_dir mainPath w -> not_dir outroPath w ->
  Forall (fun j => ffmpeg env j = Done) (earlier job) ->
  ffmpeg env job = Failed partial ->
  exists w',
    VideoRenderer.renderComplete im vm om audio out env w
    = (Throw (FfmpegError job), w') /\
    missing_in tempDir w' /\
    draws w' = draws w /\
    lookup out (files w')
    = match job, partial with
      | Concat, true => Some Data
      | _, _ => lookup out (files w)
      end.
Proof.
  intros Ha Hb Hc Hdone Hfail. unfold VideoRenderer.renderComplete. cbv zeta.
  rewrite dirname_child. rewrite !join_name by reflexivity.
  destruct (ensureDir_run tempDir env w) as [w1 [E1 [_ [D1 [_ N1]]]]].
  rewrite (bind_return _ _ _ _ _ _ E1).
  pose proof (ensureDir_keeps_out (lookup out (files w)) env w eq_refl) as K1.
  rewrite E1 in K1. unfold holds in K1. simpl in K1.
  destruct (render_body_fails im vm om audio job partial env w1 Hdone Hfail)
    as [w2 [E2 [D2 L2]]].
  rewrite (try_catch_throw _ _ _ _ _ _ E2).
  assert (Hlen : forall x, (List.length tempDir < List.length (tempDir ++ [x]))%nat).
  { intros x. rewrite (length_app tempDir [x]). simpl. lia. }
  assert (N2 : forall x, not_dir (tempDir ++ [x]) w -> not_dir (tempDir ++ [x]) w2).
  { intros x Hx.
    pose proof (render_body_not_dir (tempDir ++ [x]) im vm om audio out
                  introPath mainPath outroPath tempDir env w1
                  (N1 _ (Hlen x) Hx)) as P.
    unfold Path.t in P. rewrite E2 in P. exact P. }
  destruct (removeSegments_run introPath mainPath outroPath tempDir env w2
              (N2 _ Ha) (N2 _ Hb) (N2 _ Hc)) as [w3 [E3 [_ [_ [_ M3]]]]].
  { intros E. apply app_eq_nil in E. destruct E; discriminate. }
  pose proof (removeSegments_keeps (lookup out (files w2)) env w2 eq_refl) as K3.
  assert (D3 : preserves (fun v => draws v = draws w2)
                 (VideoRenderer.removeSegments introPath mainPath outroPath tempDir)).
  { unfold VideoRenderer.removeSegments, VideoRenderer.unlinkIfExists.
    keep; first [apply draws_unlinkSync | apply draws_on_files]. }
  specialize (D3 env w2 eq_refl).
  rewrite E3 in K3, D3. unfold holds in K3. simpl in K3, D3.
  exists w3. split; [|split; [exact M3 | split]].
  - rewrite (bind_return _ _ _ _ _ _ E3). reflexivity.
  - congruence.
  - rewrite K3, L2, K1. reflexivity.
Qed.

End RenderFailure.

(** X20: a render that fails.  When the ffmpeg run of [job] is the first of
    the four (intro, main, outro, concatenation) not to end well,
    [renderComplete] throws the error of that run: the cleanup in its
    [catch] block does not replace it, given that none of the three segment
    paths is a directory.  [temp_segments] is gone afterwards and no random
    number is drawn.  The output path holds what it held before, with one
    exception: a concatenation that fails after writing part of its output
    leaves that file at the output path. *)
Theorem renderComplete_failure im vm om audio (dir : Path.t) (file : string)
    (job : Io.Job) (partial : bool) env w :
  let tempDir := dir ++ ["temp_segments"%string] in
  file <> "temp_segments"%string -> file <> "concat_list.txt"%string ->
  Io.not_dir (tempDir ++ ["intro.mp4"%string]) w ->
  Io.not_dir (tempDir ++ ["main.mp4"%string]) w ->
  Io.not_dir (tempDir ++ ["outro.mp4"%string]) w ->
  Forall (fun j => Io.ffmpeg env j = Io.Done) (Disk.earlier job) ->
  Io.ffmpeg env job = Io.Failed partial ->
  exists w',
    VideoRenderer.renderComplete im vm om audio (dir ++ [file]) env w
    = (Io.Throw (Io.FfmpegError job), w') /\
    Io.missing_in tempDir w' /\
    Io.draws w' = Io.draws w /\
    Io.lookup (dir ++ [file]) (Io.files w')
    = match job, partial with
      | Io.Concat, true => Some Io.Data
      | _, _ => Io.lookup (dir ++ [file]) (Io.files w)
      end.
Proof.
  intros tempDir Ht Hc Ha Hb Hc' Hdone Hfail.
  apply renderComplete_fails; assumption.
Qed.

Lemma renderComplete_failure_witness :
  let env := {| Io.random := fun _ => 1 # 2;
                Io.now := 1700000000000;
                Io.node_exec := true;
                Io.node_writes := true;
                Io.canvas := fun _ _ => true;
                Io.ffmpeg := fun job =>
                  match job with
                  | Io.Concat => Io.Failed true
                  | _ => Io.Done
                  end |} in
  exists w',
    VideoRenderer.renderComplete
      (Scenario.card 90 ["out"; "clip"; "intro"]%string)
      (Scenario.card 5400 ["out"; "clip"; "frames"]%string)
      (Scenario.card 90 ["out"; "clip"; "outro"]%string)
      ["out"; "clip"; "audio.wav"]%string ["out"; "clip.mp4"]%string
      env Scenario.empty_disk
    = (Io.Throw (Io.FfmpegError Io.Concat), w') /\
    Io.lookup ["out"; "clip.mp4"]%string (Io.files w') = Some Io.Data.
Proof.
  intros env.
  destruct (renderComplete_failure
              (Scenario.card 90 ["out"; "clip"; "intro"]%string)
              (Scenario.card 5400 ["out"; "clip"; "frames"]%string)
              (Scenario.card 90 ["out"; "clip"; "outro"]%string)
              ["out"; "clip"; "audio.wav"]%string ["out"]%string "clip.mp4"%string
              Io.Concat true env Scenario.empty_disk)
    as [w' [E [_ [_ L]]]];
    try discriminate.
  - repeat constructor.
  - reflexivity.
  - exists w'. split; [exact E | exact L].
Defined.

(** ** One run of the music stage *)

Section MusicRun.

Import Io.
Local Open Scope io_scope.
Local Open Scope string_scope.
Local Open Scope list_scope.

(** X21: the music stage cleans up after itself either way, and a clean
    exit does not mean there is audio.  For a genre that is not a name
    inherited from [Object.prototype], an audio path made of plain
    characters (so that the shell and the script read it as it is spelled)
    in a directory that exists, [generateMusic] draws exactly one random
    number, removes the script [temp_music_script.js] it wrote beside the
    audio file whether the child process exits cleanly or not, and touches
    nothing but the script and the audio file.  When the child exits cleanly
    it returns metadata carrying the genre as it was asked for and the audio
    path, otherwise it throws the error of the child process.  The audio
    file is written only if the script got that far: the script catches its
    own errors and exits cleanly all the same, so metadata can come back
    with the audio path holding what it held before. *)
Theorem generateMusic_outcome (genre : string) (dir : Path.t) (file : string) env w :
  let audio := dir ++ [file] in
  let script := dir ++ ["temp_music_script.js"] in
  file <> "temp_music_script.js" -> ~ In genre Js.object_prototype ->
  Path.plain audio ->
  lookup dir (files w) = Some Directory -> not_dir script w ->
  exists r w',
    MusicGenerator.generateMusic genre audio env w = (r, w') /\
    draws w' = S (draws w) /\
    lookup script (files w') = None /\
    (forall q, script <> q -> audio <> q ->
               lookup q (files w') = lookup q (files w)) /\
    lookup audio (files w')
    = (if node_writes env then Some Data else lookup audio (files w)) /\
    if node_exec env
    then exists md, r = Return md /\ MusicGenerator.md_genre md = genre /\
                    MusicGenerator.md_path md = audio
    else r = Throw ExecError.
Proof.
  intros audio script Hfile Hg _ _ _. unfold MusicGenerator.generateMusic.
  change (Path.dirname audio) with (Path.dirname (dir ++ [file])).
  rewrite dirname_child, join_name by reflexivity.
  unfold MusicGenerator.lookupTemplate.
  destruct (get_or_else_own MusicGenerator.genreTemplates genre "electronic" Hg)
    as [template ->]; [simpl; tauto|].
  unfold bind at 1, Math_random.
  unfold bind at 1, writeFileSync at 1, on_files. cbn [files draws].
  fold script audio.
  assert (Hne : audio <> script)
    by (intros E; apply child_inj in E; contradiction).
  assert (Hs : script <> [])
    by (unfold script; intros E; apply app_eq_nil in E; destruct E; discriminate).
  assert (Ha : audio <> [])
    by (unfold audio; intros E; apply app_eq_nil in E; destruct E; discriminate).
  unfold try_catch, bind at 1, execNode.
  destruct (node_writes env), (node_exec env); cbn [files draws].
  - unfold bind at 1, unlinkSync. cbn [files].
    rewrite (lookup_write_other script audio) by exact Hne.
    rewrite lookup_write_same by exact Hs.
    unfold on_files, ret. cbn [files draws].
    eexists. eexists. split; [reflexivity|]. cbn [files draws].
    split; [reflexivity|]. split; [apply lookup_remove_same, Hs|]. split; [|split].
    + intros q Hq1 Hq2.
      rewrite lookup_remove_other, !lookup_write_other by assumption.
      reflexivity.
    + rewrite lookup_remove_other by (apply not_eq_sym, Hne).
      apply lookup_write_same, Ha.
    + eexists. split; [reflexivity|]. split; reflexivity.
  - unfold bind at 1, existsSync, exists_. cbn [files].
    rewrite (lookup_write_other script audio) by exact Hne.
    rewrite lookup_write_same by exact Hs. cbn [when].
    unfold bind, unlinkSync. cbn [files].
    rewrite (lookup_write_other script audio) by exact Hne.
    rewrite lookup_write_same by exact Hs.
    unfold on_files, throw. cbn [files draws].
    eexists. eexists. split; [reflexivity|]. cbn [files draws].
    split; [reflexivity|]. split; [apply lookup_remove_same, Hs|]. split; [|split].
    + intros q Hq1 Hq2.
      rewrite lookup_remove_other, !lookup_write_other by assumption.
      reflexivity.
    + rewrite lookup_remove_other by (apply not_eq_sym, Hne).
      apply lookup_write_same, Ha.
    + reflexivity.
  - unfold bind at 1, unlinkSync. cbn [files].
    rewrite lookup_write_same by exact Hs.
    unfold on_files, ret. cbn [files draws].
    eexists. eexists. split; [reflexivity|]. cbn [files draws].
    split; [reflexivity|]. split; [apply lookup_remove_same, Hs|]. split; [|split].
    + intros q Hq1 Hq2.
      rewrite lookup_remove_other, lookup_write_other by assumption.
      reflexivity.
    + rewrite lookup_remove_other, lookup_write_other
        by (apply not_eq_sym, Hne).
      reflexivity.
    + eexists. split; [reflexivity|]. split; reflexivity.
  - unfold bind at 1, existsSync, exists_. cbn [files].
    rewrite lookup_write_same by exact Hs. cbn [when].
    unfold bind, unlinkSync. cbn [files].
    rewrite lookup_write_same by exact Hs.
    unfold on_files, throw. cbn [files draws].
    eexists. eexists. split; [reflexivity|]. cbn [files draws].
    split; [reflexivity|]. split; [apply lookup_remove_same, Hs|]. split; [|split].
    + intros q Hq1 Hq2.
      rewrite lookup_remove_other, lookup_write_other by assumption.
      reflexivity.
    + rewrite lookup_remove_other, lookup_write_other
        by (apply not_eq_sym, Hne).
      reflexivity.
    + reflexivity.
Qed.

(** The script fails inside and exits cleanly: metadata comes back, no
    audio file does. *)
Lemma generateMusic_outcome_witness :
  let env := {| random := fun _ => 1 # 2;
                now := 1700000000000;
                node_exec := true;
                node_writes := false;
                canvas := fun _ _ => true;
                ffmpeg := fun _ => Done |} in
  let w := {| files := [(["out"; "clip"; "notes.txt"], Data);
                        (["out"; "clip"], Directory)];
              draws := 4 |} in
  exists md w',
    MusicGenerator.generateMusic "jazz" ["out"; "clip"; "audio.wav"] env w
    = (Return md, w') /\
    MusicGenerator.md_genre md = "jazz" /\
    draws w' = 5%nat /\
    lookup ["out"; "clip"; "audio.wav"] (files w') = None /\
    lookup ["out"; "clip"; "temp_music_script.js"] (files w') = None /\
    lookup ["out"; "clip"; "notes.txt"] (files w') = Some Data.
Proof.
  intros env w.
  destruct (generateMusic_outcome "jazz" ["out"; "clip"] "audio.wav" env w)
    as [r [w' [E [D [Gone [F [A [md [-> [G _]]]]]]]]]].
  - discriminate.
  - simpl. intuition discriminate.
  - repeat constructor.
  - reflexivity.
  - discriminate.
  - exists md, w'. split; [exact E|]. split; [exact G|]. split; [exact D|].
    split; [exact A|]. split; [exact Gone|]. apply F; discriminate.
Defined.

End MusicRun.

(** ** The frames of the three segments *)

Section Segments.

Import Io Disk.
Local Open Scope io_scope.
Local Open Scope string_scope.
Local Open Scope list_scope.

(** Making a directory leaves alone what existed and what is not on the
    way to it. *)
Lemma ensureDir_elsewhere (dir q : Path.t) env w :
  Path.is_prefix q dir = false \/ exists_in q w ->
  lookup q (files (snd (ensureDir dir env w))) = lookup q (files w).
Proof.
  intros Hq.
  assert (P : preserves (holds q (lookup q (files w))) (ensureDir dir)).
  { unfold ensureDir. keep. apply holds_mkdirSync.
    destruct Hq as [Hq|Hq]; [left; exact Hq | right].
    unfold exists_in, exists_ in Hq.
    destruct (lookup q (files w)); [discriminate | discriminate]. }
  exact (P env w eq_refl).
Qed.

(** One frame loop: the directory is made, then the rounds [0 .. n-1] each
    write their picture to the file named after the round.  The loop
    returns, draws no random number, leaves the picture of every round in
    its file and changes no other path, apart from making the directory. *)
Lemma segment_frames (prefix : string) (img : nat -> Canvas.Image)
    (body : nat -> IO unit) (md : VisualGenerator.Metadata) (n : nat)
    (dir : Path.t) env w :
  (forall k v, (k < n)%nat ->
     body k env v
     = (Return tt,
        {| files := write (dir ++ [VisualGenerator.frameFile prefix k])
                          (Picture (img k)) (files v);
           draws := draws v |})) ->
  exists w',
    (ensureDir dir ;; for_each (seq 0 n) body ;; ret md) env w = (Return md, w') /\
    draws w' = draws w /\
    (forall k, (k < n)%nat ->
       lookup (dir ++ [VisualGenerator.frameFile prefix k]) (files w')
       = Some (Picture (img k))) /\
    (forall q,
       (forall k, (k < n)%nat -> dir ++ [VisualGenerator.frameFile prefix k] <> q) ->
       Path.is_prefix q dir = false \/ exists_in q w ->
       lookup q (files w') = lookup q (files w)).
Proof.
  intros Hbody.
  destruct (ensureDir_run dir env w) as [w1 [E1 [_ [D1 _]]]].
  pose proof (fun q => ensureDir_elsewhere dir q env w) as F1.
  rewrite E1 in F1. cbn [snd] in F1.
  rewrite (bind_return _ _ _ _ _ _ E1).
  destruct (for_each_pictures env
              (fun k => dir ++ [VisualGenerator.frameFile prefix k]) img body
              (seq 0 n)) with (w := w1) as [w2 [E2 [D2 [Pics Frame]]]].
  - apply seq_NoDup.
  - intros x y E. apply child_inj, frameFile_inj in E. exact E.
  - intros x E. apply app_eq_nil in E. destruct E; discriminate.
  - intros k v Hk. apply Hbody. apply in_seq in Hk. lia.
  - rewrite (bind_return _ _ _ _ _ _ E2). exists w2.
    split; [reflexivity|]. split; [congruence|]. split.
    + intros k Hk. apply Pics, in_seq. lia.
    + intros q Hq Hd. rewrite Frame.
      * apply F1, Hd.
      * intros k Hk. apply Hq. apply in_seq in Hk. lia.
Qed.

(** A frame whose number is not below the count is not among those
    written. *)
Lemma later_frame (prefix : string) (dir : Path.t) (n k : nat) :
  (n <= k)%nat ->
  (forall i, (i < n)%nat ->
     dir ++ [VisualGenerator.frameFile prefix i]
     <> dir ++ [VisualGenerator.frameFile prefix k]) /\
  Path.is_prefix (dir ++ [VisualGenerator.frameFile prefix k]) dir = false.
Proof.
  intros Hk. split.
  - intros i Hi E. apply child_inj, frameFile_inj in E. lia.
  - apply longer_outside. rewrite length_app. simpl. lia.
Qed.

Lemma intro_frames (this : VisualGenerator.t) (genre : string) (dir : Path.t)
    (seconds : Z) env w :
  (forall k, canvas env IntroFrame k = true) ->
  let n := (seconds * VisualGenerator.fps this)%Z in
  exists w',
    VisualGenerator.generateIntro this genre dir (inject_Z seconds) env w
    = (Return (VisualGenerator.metadata this n dir), w') /\
    draws w' = draws w /\
    (forall k, (k < Z.to_nat n)%nat ->
       lookup (dir ++ [VisualGenerator.frameFile "intro_" k]) (files w')
       = Some (Picture
                 (Canvas.TitleCard (Qmin (Js.num k / inject_Z n * 2) 1)
                    [(VisualGenerator.toUpperCase genre ++ " MUSIC VIDEO")%string;
                     "Generated by AI"]))) /\
    (forall q,
       (forall k, (k < Z.to_nat n)%nat ->
                  dir ++ [VisualGenerator.frameFile "intro_" k] <> q) ->
       Path.is_prefix q dir = false \/ exists_in q w ->
       lookup q (files w') = lookup q (files w)).
Proof.
  intros Hc n. unfold VisualGenerator.generateIntro.
  rewrite totalFrames_whole. fold n. rewrite for_indices_Z.
  apply (segment_frames "intro_"
           (fun k => Canvas.TitleCard (Qmin (Js.num k / inject_Z n * 2) 1)
                       [(VisualGenerator.toUpperCase genre ++ " MUSIC VIDEO")%string;
                        "Generated by AI"])).
  intros k v _. unfold VisualGenerator._generateIntroFrame.
  rewrite join_frameFile by reflexivity.
  apply writeCanvas_run, Hc.
Qed.

Lemma outro_frames (this : VisualGenerator.t) (genre : string) (dir : Path.t)
    (seconds : Z) env w :
  (forall k, canvas env OutroFrame k = true) ->
  let n := (seconds * VisualGenerator.fps this)%Z in
  exists w',
    VisualGenerator.generateOutro this genre dir (inject_Z seconds) env w
    = (Return (VisualGenerator.metadata this n dir), w') /\
    draws w' = draws w /\
    (forall k, (k < Z.to_nat n)%nat ->
       lookup (dir ++ [VisualGenerator.frameFile "outro_" k]) (files w')
       = Some (Picture
                 (Canvas.TitleCard (Qmax (1 - Js.num k / inject_Z n * 2) 0)
                    ["THANK YOU"; "FOR WATCHING"]))) /\
    (forall q,
       (forall k, (k < Z.to_nat n)%nat ->
                  dir ++ [VisualGenerator.frameFile "outro_" k] <> q) ->
       Path.is_prefix q dir = false \/ exists_in q w ->
       lookup q (files w') = lookup q (files w)).
Proof.
  intros Hc n. unfold VisualGenerator.generateOutro.
  rewrite totalFrames_whole. fold n. rewrite for_indices_Z.
  apply (segment_frames "outro_"
           (fun k => Canvas.TitleCard (Qmax (1 - Js.num k / inject_Z n * 2) 0)
                       ["THANK YOU"; "FOR WATCHING"])).
  intros k v _. unfold VisualGenerator._generateOutroFrame.
  rewrite join_frameFile by reflexivity.
  apply writeCanvas_run, Hc.
Qed.

Lemma main_frames (this : VisualGenerator.t) (md : MusicGenerator.Metadata)
    (dir : Path.t) env w :
  (forall k, canvas env MainFrame k = true) ->
  ~ In (MusicGenerator.md_genre md) Js.object_prototype ->
  let n := (MusicGenerator.md_duration md * VisualGenerator.fps this)%Z in
  exists w',
    VisualGenerator.generateVisuals this md dir env w
    = (Return (VisualGenerator.metadata this n dir), w') /\
    draws w' = draws w /\
    (forall k, (k < Z.to_nat n)%nat ->
       exists scene,
         lookup (dir ++ [VisualGenerator.frameFile "frame_" k]) (files w')
         = Some (Picture (Canvas.Scene scene))) /\
    (forall q,
       (forall k, (k < Z.to_nat n)%nat ->
                  dir ++ [VisualGenerator.frameFile "frame_" k] <> q) ->
       Path.is_prefix q dir = false \/ exists_in q w ->
       lookup q (files w') = lookup q (files w)).
Proof.
  intros Hc Hg n. unfold VisualGenerator.generateVisuals.
  rewrite totalFrames_whole. fold n.
  unfold VisualGenerator._getVisualStyle.
  destruct (get_or_else_own VisualGenerator.styles _ "electronic" Hg)
    as [style Hs]; [simpl; auto|]. rewrite Hs, for_indices_Z.
  match goal with
  | |- context [for_each ?l ?body] =>
      destruct (segment_frames "frame_"
                  (fun k =>
                     let time := Js.num k / inject_Z (VisualGenerator.fps this) in
                     let beat :=
                       time * (inject_Z (MusicGenerator.md_tempo md) / 60) in
                     Canvas.Scene (VisualGenerator.frameScene this beat time style))
                  body (VisualGenerator.metadata this n dir) (Z.to_nat n) dir env w)
        as [w' [E [D [Pics Frame]]]]
  end.
  - intros k v _. cbv zeta. apply generateFrame_run, Hc.
  - exists w'. split; [exact E|]. split; [exact D|]. split; [|exact Frame].
    intros k Hk. eexists. apply Pics, Hk.
Qed.

(** The fade along the frames: [min(2k/n, 1)] never decreases,
    [max(1 - 2k/n, 0)] never increases, and they are 1 and 0 exactly from
    the frame at half of the count on. *)
Lemma fade_shape (n : Z) (k k' : nat) :
  (0 < n)%Z ->
  let fadeIn := fun i : nat => Qmin (Js.num i / inject_Z n * 2) 1 in
  let fadeOut := fun i : nat => Qmax (1 - Js.num i / inject_Z n * 2) 0 in
  ((k <= k')%nat -> fadeIn k <= fadeIn k' /\ fadeOut k' <= fadeOut k) /\
  ((n <= 2 * Z.of_nat k)%Z -> fadeIn k == 1 /\ fadeOut k == 0) /\
  ((2 * Z.of_nat k < n)%Z -> fadeIn k < 1 /\ 0 < fadeOut k) /\
  fadeIn 0%nat == 0 /\ fadeOut 0%nat == 1.
Proof.
  intros Hn fadeIn fadeOut.
  assert (Hq : 0 < inject_Z n).
  { change 0 with (inject_Z 0). rewrite <- Zlt_Qlt. exact Hn. }
  assert (Hmono : forall i j : nat, (i <= j)%nat ->
            Js.num i / inject_Z n <= Js.num j / inject_Z n).
  { intros i j Hij. unfold Qdiv. apply Qmult_le_compat_r.
    - unfold Js.num. rewrite <- Zle_Qle. lia.
    - apply Qinv_le_0_compat, Qlt_le_weak, Hq. }
  assert (Hhalf : forall i : nat, (n <= 2 * Z.of_nat i)%Z ->
            1 # 2 <= Js.num i / inject_Z n).
  { intros i Hi. apply Qle_shift_div_l; [exact Hq|].
    unfold Js.num. rewrite Zle_Qle, inject_Z_mult in Hi.
    change (inject_Z 2) with 2 in Hi. qlra. }
  assert (Hless : forall i : nat, (2 * Z.of_nat i < n)%Z ->
            Js.num i / inject_Z n < 1 # 2).
  { intros i Hi. apply Qlt_shift_div_r; [exact Hq|].
    unfold Js.num. rewrite Zlt_Qlt, inject_Z_mult in Hi.
    change (inject_Z 2) with 2 in Hi. qlra. }
  assert (Hpos : forall i : nat, 0 <= Js.num i / inject_Z n).
  { intros i. apply Qle_shift_div_l; [exact Hq|]. rewrite Qmult_0_l.
    unfold Js.num. change 0 with (inject_Z 0). rewrite <- Zle_Qle. lia. }
  unfold fadeIn, fadeOut. split; [|split; [|split; [|split]]].
  - intros Hk. pose proof (Hmono k k' Hk). split.
    + apply Q.min_le_compat_r. qlra.
    + apply Q.max_le_compat_r. qlra.
  - intros Hk. pose proof (Hhalf k Hk). split.
    + apply Q.min_r. qlra.
    + apply Q.max_r. qlra.
  - intros Hk. pose proof (Hless k Hk). split.
    + apply Q.min_lt_iff. left. qlra.
    + apply Q.max_lt_iff. left. qlra.
  - assert (E : Js.num 0 / inject_Z n == 0) by (unfold Js.num, Qdiv; simpl; ring).
    rewrite E. reflexivity.
  - assert (E : Js.num 0 / inject_Z n == 0) by (unfold Js.num, Qdiv; simpl; ring).
    rewrite E. reflexivity.
Qed.

(** C8: with progress = frameIndex / totalFrames, the intro card of frame
    [k] is drawn with opacity min(progress*2, 1) and the outro card with
    max(1 - progress*2, 0): [generateIntro] and [generateOutro] leave in the
    file of every frame [k] below the count [n] a title card of opacity
    [min(k/n*2, 1)], respectively [max(1 - k/n*2, 0)].  Along the frames the
    first never decreases and the second never increases; they are 1 and 0
    from the frame at half of the count on (progress 1/2 and more), and
    below 1, respectively above 0, on every frame before it. *)
Theorem fade_opacity (this : VisualGenerator.t) (genre : string)
    (dir : Path.t) (seconds : Z) env w :
  (forall kind k, canvas env kind k = true) ->
  let n := (seconds * VisualGenerator.fps this)%Z in
  (0 < n)%Z ->
  let fadeIn := fun k : nat => Qmin (Js.num k / inject_Z n * 2) 1 in
  let fadeOut := fun k : nat => Qmax (1 - Js.num k / inject_Z n * 2) 0 in
  (exists w' text,
      VisualGenerator.generateIntro this genre dir (inject_Z seconds) env w
      = (Return (VisualGenerator.metadata this n dir), w') /\
      forall k, (k < Z.to_nat n)%nat ->
        lookup (dir ++ [VisualGenerator.frameFile "intro_" k]) (files w')
        = Some (Picture (Canvas.TitleCard (fadeIn k) text))) /\
  (exists w' text,
      VisualGenerator.generateOutro this genre dir (inject_Z seconds) env w
      = (Return (VisualGenerator.metadata this n dir), w') /\
      forall k, (k < Z.to_nat n)%nat ->
        lookup (dir ++ [VisualGenerator.frameFile "outro_" k]) (files w')
        = Some (Picture (Canvas.TitleCard (fadeOut k) text))) /\
  (forall k k' : nat, (k <= k')%nat ->
      fadeIn k <= fadeIn k' /\ fadeOut k' <= fadeOut k) /\
  (forall k : nat, (n <= 2 * Z.of_nat k)%Z -> fadeIn k == 1 /\ fadeOut k == 0) /\
  (forall k : nat, (2 * Z.of_nat k < n)%Z -> fadeIn k < 1 /\ 0 < fadeOut k).
Proof.
  intros Hc n Hn fadeIn fadeOut.
  split; [|split; [|split; [|split]]].
  - destruct (intro_frames this genre dir seconds env w (Hc IntroFrame))
      as [w' [E [_ [Pics _]]]].
    exists w'. eexists. split; [exact E | exact Pics].
  - destruct (outro_frames this genre dir seconds env w (Hc OutroFrame))
      as [w' [E [_ [Pics _]]]].
    exists w'. eexists. split; [exact E | exact Pics].
  - intros k k' Hk. apply (fade_shape n k k' Hn), Hk.
  - intros k Hk. apply (fade_shape n k k Hn), Hk.
  - intros k Hk. apply (fade_shape n k k Hn), Hk.
Qed.

(** The 3 seconds of the intro at 30 frames a second: frame 30 is written
    at opacity 2/3, frame 45 and frame 89 at opacity 1. *)
Lemma fade_opacity_witness :
  exists w' text,
    VisualGenerator.generateIntro VisualGenerator.constructor "pop" ["intro"] 3
      Scenario.all_well Scenario.empty_disk
    = (Return (VisualGenerator.metadata VisualGenerator.constructor 90 ["intro"]), w') /\
    lookup ["intro"; VisualGenerator.frameFile "intro_" 30] (files w')
    = Some (Picture (Canvas.TitleCard (Qmin (Js.num 30 / inject_Z 90 * 2) 1) text)) /\
    lookup ["intro"; VisualGenerator.frameFile "intro_" 45] (files w')
    = Some (Picture (Canvas.TitleCard (Qmin (Js.num 45 / inject_Z 90 * 2) 1) text)) /\
    Qmin (Js.num 30 / inject_Z 90 * 2) 1 == 2 # 3 /\
    Qmin (Js.num 45 / inject_Z 90 * 2) 1 == 1.
Proof.
  destruct (fade_opacity VisualGenerator.constructor "pop" ["intro"] 3
              Scenario.all_well Scenario.empty_disk)
    as [[w' [text [E Pics]]] _].
  - reflexivity.
  - reflexivity.
  - exists w', text. split; [exact E|].
    split; [apply (Pics 30%nat); vm_compute; lia|].
    split; [apply (Pics 45%nat); vm_compute; lia|].
    split; reflexivity.
Defined.

(** C9: for a whole number of seconds the main segment consists of exactly
    duration*fps frames, those of the numbers 0 .. duration*fps - 1:
    [generateVisuals] reports that count, writes a picture for each of these
    numbers, and changes no other path of the disk (apart from making the
    frame directory), so no frame of a higher number (300 frames for 10
    seconds at 30 fps).  The intro and the outro, 3 seconds long, likewise
    consist of exactly floor(3*fps) = 90 frames each, numbered 0 .. 89, and
    last frameCount/fps = 3 seconds. *)
Theorem frame_counts (md : MusicGenerator.Metadata) (dir : Path.t) genre env w :
  (forall kind k, canvas env kind k = true) ->
  ~ In (MusicGenerator.md_genre md) Js.object_prototype ->
  let this := VisualGenerator.constructor in
  let d := MusicGenerator.md_duration md in
  let exactly := fun (prefix : string) (count : nat) (w' : World) =>
    (forall k, (k < count)%nat ->
       exists image,
         lookup (dir ++ [VisualGenerator.frameFile prefix k]) (files w')
         = Some (Picture image)) /\
    (forall k, (count <= k)%nat ->
       lookup (dir ++ [VisualGenerator.frameFile prefix k]) (files w')
       = lookup (dir ++ [VisualGenerator.frameFile prefix k]) (files w)) /\
    (forall q,
       (forall k, (k < count)%nat ->
                  dir ++ [VisualGenerator.frameFile prefix k] <> q) ->
       Path.is_prefix q dir = false \/ exists_in q w ->
       lookup q (files w') = lookup q (files w)) in
  (exists w',
      VisualGenerator.generateVisuals this md dir env w
      = (Return (VisualGenerator.metadata this (d * 30) dir), w') /\
      exactly "frame_" (Z.to_nat (d * 30)) w') /\
  (d = 10%Z -> Z.to_nat (d * 30) = 300%nat) /\
  (exists w',
      VisualGenerator.generateIntro this genre dir 3 env w
      = (Return (VisualGenerator.metadata this 90 dir), w') /\
      exactly "intro_" 90%nat w' /\
      VideoRenderer.segmentDuration (VisualGenerator.metadata this 90 dir) == 3) /\
  (exists w',
      VisualGenerator.generateOutro this genre dir 3 env w
      = (Return (VisualGenerator.metadata this 90 dir), w') /\
      exactly "outro_" 90%nat w' /\
      VideoRenderer.segmentDuration (VisualGenerator.metadata this 90 dir) == 3).
Proof.
  intros Hc Hg this d exactly.
  assert (Hex : forall prefix count w',
            (forall k, (k < count)%nat ->
               exists image,
                 lookup (dir ++ [VisualGenerator.frameFile prefix k]) (files w')
                 = Some (Picture image)) ->
            (forall q,
               (forall k, (k < count)%nat ->
                          dir ++ [VisualGenerator.frameFile prefix k] <> q) ->
               Path.is_prefix q dir = false \/ exists_in q w ->
               lookup q (files w') = lookup q (files w)) ->
            exactly prefix count w').
  { intros prefix count w' Pics Frame. split; [exact Pics|]. split; [|exact Frame].
    intros k Hk. destruct (later_frame prefix dir count k Hk) as [Hne Hout].
    apply Frame; [exact Hne | left; exact Hout]. }
  split; [|split; [|split]].
  - destruct (main_frames this md dir env w (Hc MainFrame) Hg)
      as [w' [E [_ [Pics Frame]]]].
    exists w'. split; [exact E|]. apply Hex; [|exact Frame].
    intros k Hk. destruct (Pics k Hk) as [scene L]. eexists. exact L.
  - intros ->. reflexivity.
  - destruct (intro_frames this genre dir 3 env w (Hc IntroFrame))
      as [w' [E [_ [Pics Frame]]]].
    exists w'. split; [exact E|]. split; [|reflexivity].
    apply Hex; [|exact Frame].
    intros k Hk. eexists. apply Pics, Hk.
  - destruct (outro_frames this genre dir 3 env w (Hc OutroFrame))
      as [w' [E [_ [Pics Frame]]]].
    exists w'. split; [exact E|]. split; [|reflexivity].
    apply Hex; [|exact Frame].
    intros k Hk. eexists. apply Pics, Hk.
Qed.

(** Ten seconds of electronic music: frames 0 .. 299 of the main segment
    are written and frame 300 is not. *)
Lemma frame_counts_witness :
  exists w',
    VisualGenerator.generateVisuals VisualGenerator.constructor
      {| MusicGenerator.md_tempo := 128; MusicGenerator.md_duration := 10;
         MusicGenerator.md_genre := "electronic";
         MusicGenerator.md_path := ["audio.wav"] |}
      ["frames"] Scenario.all_well Scenario.empty_disk
    = (Return (VisualGenerator.metadata VisualGenerator.constructor 300 ["frames"]),
       w') /\
    (exists image,
        lookup ["frames"; VisualGenerator.frameFile "frame_" 299] (files w')
        = Some (Picture image)) /\
    lookup ["frames"; VisualGenerator.frameFile "frame_" 300] (files w') = None.
Proof.
  destruct (frame_counts
              {| MusicGenerator.md_tempo := 128; MusicGenerator.md_duration := 10;
                 MusicGenerator.md_genre := "electronic";
                 MusicGenerator.md_path := ["audio.wav"] |}
              ["frames"] "electronic" Scenario.all_well Scenario.empty_disk)
    as [[w' [E [Pics [Later _]]]] _].
  - reflexivity.
  - simpl. intros H. repeat (destruct H as [H|H]; [discriminate|]). exact H.
  - exists w'. split; [exact E|]. split.
    + apply (Pics 299%nat). vm_compute. lia.
    + exact (Later 300%nat (le_n 300)).
Defined.

End Segments.
